(** * einnahmencalc: the year-by-year projections of [main.py]

    [main.py] projects how a yearly deposit accumulates under three
    strategies: a savings account (Tagesgeld), an index fund (ETF) and a
    combination of both with a target for the savings account.  This file
    embeds the three simulations and the present-value helper, and proves
    the properties the specification states about them.

    The Python code computes with [float], that is IEEE 754 binary64.  The
    functions are written once, over an interface of the arithmetic they
    use, and run at two carriers: Rocq's primitive binary64 floats (what
    the program computes) and the rationals (the exact arithmetic the
    specification reasons in).

    Beyond the simulations the file embeds the formatting of amounts
    ([format_money], and [format_euro] of [app.py]) and the console report
    ([print_header], [print_table]), with texts as lists of code points. *)

From Stdlib Require Import ZArith List Bool Lia Lqa.
From Stdlib Require Import QArith Qpower.
From Stdlib Require Import Floats.
From Stdlib Require NArith Ascii String.
Import ListNotations.

#[global] Set Warnings "-inexact-float".

(** * Exceptions

    The only operations of the simulations that can raise are the power and
    the division of [real_value]. *)

Inductive exn : Set :=
| ZeroDivisionError
| OverflowError.

Inductive result (A : Type) : Type :=
| Ok (a : A)
| Raise (e : exn).

Arguments Ok {A} a.
Arguments Raise {A} e.

Definition bind {A B : Type} (m : result A) (k : A -> result B) : result B :=
  match m with
  | Ok a => k a
  | Raise e => Raise e
  end.

Notation "x <- m ;; k" := (bind m (fun x => k))
  (at level 61, m at next level, right associativity).

(** * The arithmetic the simulations use

    [zero] and [one] are the literals [0.0] (also [0]) and [1]; [ltb] is
    Python's [<] ([a > b] is [ltb b a]).  [leb] and [same] are [<=] and
    equality of values; the code does not call them, the statements do. *)

Class Arith (F : Type) : Type := {
  zero : F;
  one : F;
  add : F -> F -> F;
  sub : F -> F -> F;
  mul : F -> F -> F;
  div : F -> F -> result F;
  pow : F -> Z -> result F;
  ltb : F -> F -> bool;
  leb : F -> F -> bool;
  same : F -> F -> bool
}.

(** The laws every carrier has to satisfy: the ones that also hold with
    rounding, infinities and NaN. *)

Class ArithLaws (F : Type) {A : Arith F} : Prop := {
  same_refl : forall x : F, same x x = true;
  add_zero_r : forall x : F, same x (add x zero) = true;
  add_zero_l : forall x : F, same x (add zero x) = true;
  ltb_irrefl : forall x : F, ltb x x = false;
  leb_not_ltb : forall x y : F, leb y x = true -> ltb x y = false
}.

Arguments ArithLaws F {A}.

(** * Data *)

Record YearResult (F : Type) : Type := mkYearResult {
  year : Z;
  deposit : F;
  tg_balance : F;
  etf_balance : F;
  total_nominal : F;
  total_real : F
}.

Arguments mkYearResult {F} _ _ _ _ _ _.
Arguments year {F} _.
Arguments deposit {F} _.
Arguments tg_balance {F} _.
Arguments etf_balance {F} _.
Arguments total_nominal {F} _.
Arguments total_real {F} _.

(** [range(lo, hi)] of Python, on integers. *)
Definition py_range (lo hi : Z) : list Z :=
  map (fun i => lo + Z.of_nat i)%Z (seq 0 (Z.to_nat (hi - lo))).

Section Simulation.

Context {F : Type} {A : Arith F}.

(** [min(a, b)] of Python: the first argument unless the second is smaller. *)
Definition py_min (a b : F) : F := if ltb b a then b else a.

(** [real_value]: [nominal / ((1 + inflation_rate) ** year)]. *)
Definition real_value (nominal inflation_rate : F) (year : Z) : result F :=
  p <- pow (add one inflation_rate) year ;;
  div nominal p.

(** [annual_deposit if year <= deposit_years else 0.0] *)
Definition deposit_of (deposit_years : Z) (annual_deposit : F) (year : Z) : F :=
  if (year <=? deposit_years)%Z then annual_deposit else zero.

(** ** simulate_tagesgeld *)

Fixpoint tagesgeld_loop (deposit_years : Z) (annual_deposit tg_rate inflation_rate : F)
    (years : list Z) (tg_balance : F) (results : list (YearResult F))
    : result (list (YearResult F)) :=
  match years with
  | [] => Ok results
  | year :: rest =>
      let deposit := deposit_of deposit_years annual_deposit year in
      let tg_balance := mul (add tg_balance deposit) (add one tg_rate) in
      let total_nominal := tg_balance in
      total_real <- real_value total_nominal inflation_rate year ;;
      tagesgeld_loop deposit_years annual_deposit tg_rate inflation_rate rest tg_balance
        (results ++ [mkYearResult year deposit tg_balance zero total_nominal total_real])
  end.

Definition simulate_tagesgeld (deposit_years growth_years : Z)
    (annual_deposit tg_rate inflation_rate : F) : result (list (YearResult F)) :=
  let total_years := (deposit_years + growth_years)%Z in
  tagesgeld_loop deposit_years annual_deposit tg_rate inflation_rate
    (py_range 1 (total_years + 1)) zero [].

(** ** simulate_etf *)

Fixpoint etf_loop (deposit_years : Z) (annual_deposit etf_rate inflation_rate : F)
    (years : list Z) (etf_balance : F) (results : list (YearResult F))
    : result (list (YearResult F)) :=
  match years with
  | [] => Ok results
  | year :: rest =>
      let deposit := deposit_of deposit_years annual_deposit year in
      let etf_balance := mul (add etf_balance deposit) (add one etf_rate) in
      let total_nominal := etf_balance in
      total_real <- real_value total_nominal inflation_rate year ;;
      etf_loop deposit_years annual_deposit etf_rate inflation_rate rest etf_balance
        (results ++ [mkYearResult year deposit zero etf_balance total_nominal total_real])
  end.

Definition simulate_etf (deposit_years growth_years : Z)
    (annual_deposit etf_rate inflation_rate : F) : result (list (YearResult F)) :=
  let total_years := (deposit_years + growth_years)%Z in
  etf_loop deposit_years annual_deposit etf_rate inflation_rate
    (py_range 1 (total_years + 1)) zero [].

(** ** simulate_combo

    The body of the loop, block by block.  Each block maps the pair
    [(tg_balance, etf_balance)] to the pair after the block. *)

(** [target = tg_target_first if year <= years_first_target else tg_target_after] *)
Definition target_of (tg_target_first tg_target_after : F) (years_first_target year : Z) : F :=
  if (year <=? years_first_target)%Z then tg_target_first else tg_target_after.

(** Fill the savings account up to the target, the rest goes to the ETF. *)
Definition allocate (target deposit : F) (b : F * F) : F * F :=
  let '(tg_balance, etf_balance) := b in
  let remaining := deposit in
  let '(tg_balance, remaining) :=
    if ltb tg_balance target && ltb zero remaining then
      let needed := sub target tg_balance in
      let alloc := py_min remaining needed in
      (add tg_balance alloc, sub remaining alloc)
    else (tg_balance, remaining) in
  (tg_balance, add etf_balance remaining).

(** Interest and return at the end of the year. *)
Definition compound (tg_rate etf_rate : F) (b : F * F) : F * F :=
  let '(tg_balance, etf_balance) := b in
  (mul tg_balance (add one tg_rate), mul etf_balance (add one etf_rate)).

(** Move what exceeds the target from the savings account to the ETF. *)
Definition sweep (target : F) (b : F * F) : F * F :=
  let '(tg_balance, etf_balance) := b in
  if ltb target tg_balance then
    let excess := sub tg_balance target in
    (target, add etf_balance excess)
  else (tg_balance, etf_balance).

Section Combo.

Variables (deposit_years : Z) (annual_deposit tg_rate etf_rate inflation_rate : F).
Variables (tg_target_first tg_target_after : F) (years_first_target : Z).

(** One pass through the loop body, up to the balances of the snapshot. *)
Definition combo_year (year : Z) (b : F * F) : F * F :=
  let target := target_of tg_target_first tg_target_after years_first_target year in
  let deposit := deposit_of deposit_years annual_deposit year in
  sweep target (compound tg_rate etf_rate (allocate target deposit b)).

Fixpoint combo_loop (years : list Z) (b : F * F) (results : list (YearResult F))
    : result (list (YearResult F)) :=
  match years with
  | [] => Ok results
  | year :: rest =>
      let deposit := deposit_of deposit_years annual_deposit year in
      let '(tg_balance, etf_balance) := combo_year year b in
      let total_nominal := add tg_balance etf_balance in
      total_real <- real_value total_nominal inflation_rate year ;;
      combo_loop rest (tg_balance, etf_balance)
        (results ++ [mkYearResult year deposit tg_balance etf_balance total_nominal total_real])
  end.

End Combo.

Definition simulate_combo (deposit_years growth_years : Z)
    (annual_deposit tg_rate etf_rate inflation_rate tg_target_first tg_target_after : F)
    (years_first_target : Z) : result (list (YearResult F)) :=
  let total_years := (deposit_years + growth_years)%Z in
  combo_loop deposit_years annual_deposit tg_rate etf_rate inflation_rate
    tg_target_first tg_target_after years_first_target
    (py_range 1 (total_years + 1)) (zero, zero) [].

End Simulation.

(** * The two carriers *)

(** ** binary64: Python's [float]

    [float_div] is the [/] of two floats: a zero divisor, of either sign,
    raises.  The [**] operator ends in the C library's [pow], which is not
    part of the program: the carrier takes it as a parameter, so that what
    is proved of the simulations holds for every [pow]. *)

Module Binary64.

Definition float_div (x y : float) : result float :=
  if PrimFloat.eqb y 0%float then Raise ZeroDivisionError else Ok (PrimFloat.div x y).

(** Equal as values: [==], made reflexive at NaN.  [-0.0] and [0.0] are the
    same value. *)
Definition float_same (x y : float) : bool :=
  PrimFloat.eqb x y || (PrimFloat.is_nan x && PrimFloat.is_nan y).

Definition arith (float_pow : float -> Z -> result float) : Arith float := {|
  zero := 0%float;
  one := 1%float;
  add := PrimFloat.add;
  sub := PrimFloat.sub;
  mul := PrimFloat.mul;
  div := float_div;
  pow := float_pow;
  ltb := PrimFloat.ltb;
  leb := PrimFloat.leb;
  same := float_same
|}.

(** A stand-in for [**] with an integer exponent, to run the simulations:
    the special cases of CPython's [float_pow] ([x ** 0] and [1.0 ** n] are
    [1.0], a zero base with a negative exponent raises, an overflow
    raises), and repeated multiplication where CPython calls [pow].  It is
    exact for the exponent [1] and for the bases [0.0] and [1.0]. *)

Fixpoint pow_iter (x : float) (n : nat) : float :=
  match n with
  | O => 1%float
  | S k => PrimFloat.mul x (pow_iter x k)
  end.

Definition pow_mult (x : float) (n : Z) : result float :=
  if (n =? 0)%Z then Ok 1%float
  else if PrimFloat.is_nan x then Ok x
  else if PrimFloat.eqb x 1%float then Ok 1%float
  else if (n <? 0)%Z then
    (if PrimFloat.eqb x 0%float then Raise ZeroDivisionError
     else Ok (PrimFloat.div 1%float (pow_iter x (Z.to_nat (- n)))))
  else
    let r := pow_iter x (Z.to_nat n) in
    if PrimFloat.is_infinity r && negb (PrimFloat.is_infinity x)
    then Raise OverflowError else Ok r.

Definition python : Arith float := arith pow_mult.

End Binary64.

(** ** Exact rationals *)

Module Exact.

Definition q_div (x y : Q) : result Q :=
  if Qeq_bool y 0 then Raise ZeroDivisionError else Ok (x / y)%Q.

Definition q_pow (x : Q) (n : Z) : result Q :=
  if (n <? 0)%Z && Qeq_bool x 0 then Raise ZeroDivisionError else Ok (x ^ n)%Q.

Definition q_ltb (x y : Q) : bool := negb (Qle_bool y x).

#[global] Instance arith : Arith Q := {|
  zero := 0%Q;
  one := 1%Q;
  add := Qplus;
  sub := Qminus;
  mul := Qmult;
  div := q_div;
  pow := q_pow;
  ltb := q_ltb;
  leb := Qle_bool;
  same := Qeq_bool
|}.

End Exact.

(** [float_same] read on the specification of binary64. *)
Definition sf_same (x y : spec_float) : bool :=
  SFeqb x y || (negb (SFeqb x x) && negb (SFeqb y y)).

(** Laws that hold where dividing by one and adding zero to one are exact
    and [1 ** n] is [1]: the case [inflation_rate = 0] of [real_value]. *)
Class UnitLaws (F : Type) {A : Arith F} : Prop := {
  one_plus_zero : add one zero = one;
  pow_one : forall n : Z, pow one n = Ok one;
  div_one : forall x : F, div x one = Ok x
}.

Arguments UnitLaws F {A}.

(** Laws of sign: what is built from values that are not negative, by the
    operations as the simulations use them, is not negative.  [x] is not
    negative when [x < 0] is false, which NaN satisfies too. *)
Class SignLaws (F : Type) {A : Arith F} : Prop := {
  one_not_neg : ltb one zero = false;
  add_not_neg : forall x y : F,
    ltb x zero = false -> ltb y zero = false -> ltb (add x y) zero = false;
  mul_not_neg : forall x y : F,
    ltb x zero = false -> ltb y zero = false -> ltb (mul x y) zero = false;
  sub_diag_not_neg : forall x : F, ltb (sub x x) zero = false;
  sub_lt_not_neg : forall x y : F,
    ltb x zero = false -> ltb y zero = false -> ltb y x = true ->
    ltb (sub x y) zero = false
}.

Arguments SignLaws F {A}.

(** Not negative, on the specification of binary64. *)
Definition sf_nn (s : spec_float) : bool :=
  match s with
  | S754_finite true _ _ | S754_infinity true => false
  | _ => true
  end.

(** [1.0] *)
Definition sf_one : spec_float := S754_finite false 4503599627370496 (-52).

(** A carrier whose order is total: no NaN. *)
Class OrderTotal (F : Type) {A : Arith F} : Prop := {
  ltb_false_leb : forall x y : F, ltb x y = false -> leb y x = true
}.

Arguments OrderTotal F {A}.

(** * The shape the three loops share

    Each loop steps a state through the years, asks [real_value] for the
    discounted total and appends one snapshot.  [year_loop] is that shape;
    the three loops above are instances of it (proved below), so that what
    holds of the shape is proved once. *)

Section Skeleton.

Context {F : Type} {A : Arith F} {St : Type}.
Variables (step : Z -> St -> St) (snapshot : Z -> St -> F -> YearResult F).
Variables (nominal : St -> F) (inflation_rate : F).

Fixpoint year_loop (years : list Z) (st : St) (results : list (YearResult F))
    : result (list (YearResult F)) :=
  match years with
  | [] => Ok results
  | year :: rest =>
      let st' := step year st in
      v <- real_value (nominal st') inflation_rate year ;;
      year_loop rest st' (results ++ [snapshot year st' v])
  end.

(** The years of a run, each with the state at the end of its pass. *)
Fixpoint trace (years : list Z) (st : St) : list (Z * St) :=
  match years with
  | [] => []
  | year :: rest => let st' := step year st in (year, st') :: trace rest st'
  end.

(** [r] is the snapshot of the pass [p]. *)
Definition snapshot_at (p : Z * St) (r : YearResult F) : Prop :=
  exists v, real_value (nominal (snd p)) inflation_rate (fst p) = Ok v
            /\ r = snapshot (fst p) (snd p) v.

(** The state after the years [1 .. n]. *)
Fixpoint state_after (init : St) (n : nat) : St :=
  match n with
  | O => init
  | S k => step (Z.of_nat (S k)) (state_after init k)
  end.

End Skeleton.

Section Instances.

Context {F : Type} {A : Arith F}.

(** The pass of the two pure simulations on their one balance. *)
Definition pure_step (deposit_years : Z) (annual_deposit rate : F) (year : Z) (balance : F) : F :=
  mul (add balance (deposit_of deposit_years annual_deposit year)) (add one rate).

Definition tagesgeld_snapshot (deposit_years : Z) (annual_deposit : F)
    (year : Z) (balance v : F) : YearResult F :=
  mkYearResult year (deposit_of deposit_years annual_deposit year) balance zero balance v.

Definition etf_snapshot (deposit_years : Z) (annual_deposit : F)
    (year : Z) (balance v : F) : YearResult F :=
  mkYearResult year (deposit_of deposit_years annual_deposit year) zero balance balance v.

Definition combo_snapshot (deposit_years : Z) (annual_deposit : F)
    (year : Z) (b : F * F) (v : F) : YearResult F :=
  mkYearResult year (deposit_of deposit_years annual_deposit year)
    (fst b) (snd b) (add (fst b) (snd b)) v.

Definition combo_nominal (b : F * F) : F := add (fst b) (snd b).

(** The recurrence of the specification for the pure simulations: start
    from zero; each year add the deposit, then multiply by [1 + rate]. *)
Fixpoint recurrence (deposit_years : Z) (annual_deposit rate : F) (n : nat) : F :=
  match n with
  | O => zero
  | S k =>
      let y := Z.of_nat (S k) in
      let deposit := if (y <=? deposit_years)%Z then annual_deposit else zero in
      mul (add (recurrence deposit_years annual_deposit rate k) deposit) (add one rate)
  end.

(** The balances of [simulate_combo] after the years [1 .. n]. *)
Definition combo_state (deposit_years : Z) (annual_deposit tg_rate etf_rate : F)
    (tg_target_first tg_target_after : F) (years_first_target : Z) (n : nat) : F * F :=
  state_after
    (combo_year deposit_years annual_deposit tg_rate etf_rate
       tg_target_first tg_target_after years_first_target)
    (zero, zero) n.

(** The two balances of a snapshot. *)
Definition balances (r : YearResult F) : F * F := (tg_balance r, etf_balance r).

(** What [tg_balance] and [etf_balance] hold when the pass with index [k]
    (year [k + 1]) of [simulate_combo] starts, read off the returned
    sequence [l]: zero before the first year, else the balances of the
    snapshot before. *)
Definition balances_before (l : list (YearResult F)) (k : nat) : F * F :=
  match k with
  | O => (zero, zero)
  | S j =>
      match nth_error l j with
      | Some r => balances r
      | None => (zero, zero)
      end
  end.

End Instances.

(** * Concrete runs

    Inputs the examples below run the simulations on. *)

Module Scenario.

Local Open Scope float_scope.

(** Scenario 1 of the specification: one year of savings at ten percent. *)
Definition savings (inflation_rate : float) : result (list (YearResult float)) :=
  @simulate_tagesgeld float Binary64.python 1 0 1000 0.1 inflation_rate.

(** Two years of deposits and a year of growth, savings and ETF. *)
Definition savings_3 : result (list (YearResult float)) :=
  @simulate_tagesgeld float Binary64.python 2 1 1000 0.1 0.

Definition savings_3_result : list (YearResult float) :=
  [mkYearResult 1 1000 1100 0 1100 1100;
   mkYearResult 2 1000 2310 0 2310 2310;
   mkYearResult 3 0 2541 0 2541 2541].

Definition etf_3 : result (list (YearResult float)) :=
  @simulate_etf float Binary64.python 2 1 1000 0.1 0.

Definition etf_3_result : list (YearResult float) :=
  [mkYearResult 1 1000 0 1100 1100 1100;
   mkYearResult 2 1000 0 2310 2310 2310;
   mkYearResult 3 0 0 2541 2541 2541].

(** Scenario 3 of the specification: the target is met in the first year. *)
Definition hybrid : result (list (YearResult float)) :=
  @simulate_combo float Binary64.python 2 0 1000 0 0 0 500 500 1.

Definition hybrid_result : list (YearResult float) :=
  [mkYearResult 1 1000 500 500 1000 1000;
   mkYearResult 2 1000 500 1500 2000 2000].

(** The target falls from 500 to 200 after the first year. *)
Definition hybrid_drop : result (list (YearResult float)) :=
  @simulate_combo float Binary64.python 1 1 1000 0 0 0 500 200 1.

Definition hybrid_drop_result : list (YearResult float) :=
  [mkYearResult 1 1000 500 500 1000 1000;
   mkYearResult 2 0 200 800 1000 1000].

(** The target falls from 500 to 0.17 after the first year, no interest. *)
Definition hybrid_rounding : result (list (YearResult float)) :=
  @simulate_combo float Binary64.python 1 1 1000 0 0 0 500 0.17 1.

(** An inflation rate of minus one hundred percent. *)
Definition savings_deflated : result (list (YearResult float)) :=
  @simulate_tagesgeld float Binary64.python 1 0 1000 0.1 (-1).

Definition savings_deflated_exact : result (list (YearResult Q)) :=
  (@simulate_tagesgeld Q Exact.arith 1 0 1000 (1 # 10) (-1 # 1))%Q.

End Scenario.

(** * Further vocabulary for the simulations *)

(** [f] applied to what a call returns; an exception passes through. *)
Definition map_result {X Y : Type} (f : X -> Y) (m : result X) : result Y :=
  match m with
  | Ok x => Ok (f x)
  | Raise e => Raise e
  end.

Section Vocabulary.

Context {F : Type} {A : Arith F}.

(** Neither below nor above zero: zero of either sign, or NaN. *)
Definition zero_like (x : F) : Prop := ltb x zero = false /\ ltb zero x = false.

(** A snapshot with its two balances exchanged. *)
Definition mirror (r : YearResult F) : YearResult F :=
  mkYearResult (year r) (deposit r) (etf_balance r) (tg_balance r)
    (total_nominal r) (total_real r).

(** A snapshot without its discounted total. *)
Definition nominal_part (r : YearResult F) : Z * F * F * F * F :=
  (year r, deposit r, tg_balance r, etf_balance r, total_nominal r).

End Vocabulary.

(** Laws of zero: products and sums of zero-like values are zero-like, and
    nothing non-negative is below a zero-like value. *)
Class ZeroLaws (F : Type) {A : Arith F} : Prop := {
  mul_zero_like : forall x g : F, zero_like x -> zero_like (mul x g);
  add_zero_like : forall x y : F, zero_like x -> zero_like y -> zero_like (add x y);
  zero_like_not_above : forall x t : F,
    zero_like x -> leb zero t = true -> ltb t x = false
}.

Arguments ZeroLaws F {A}.

(** Zero-like, on the specification of binary64. *)
Definition sf_zero_like (s : spec_float) : bool :=
  match s with
  | S754_zero _ | S754_nan => true
  | _ => false
  end.

(** * Text and the formatting of amounts

    [format_money] of [main.py] and [format_euro] of [app.py] have the same
    body: the amount is formatted with [f"{value:,.2f}"], followed by a
    space and the euro sign, and then [","] and ["."] are exchanged by way
    of three [str.replace] calls.

    A text is the list of its code points.  The format specification
    [,.2f] is the language's: fixed notation with two decimals, the value
    rounded to the nearest hundredth (ties to the even one), the integer
    part in groups of three separated by [","]. *)

Definition text : Type := list N.

(** The code points of a literal made of ASCII characters. *)
Definition ascii_text (s : String.string) : text :=
  map Ascii.N_of_ascii (String.list_ascii_of_string s).

(** The literals of the source. *)
Module Literal.
Import String.
#[local] Open Scope string_scope.
Definition nan : text := ascii_text "nan".
Definition inf : text := ascii_text "inf".
Definition zero : text := ascii_text "0.00".
Definition scenario : text := ascii_text "Szenario: ".
Definition bar : text := ascii_text " | ".
Definition jahr : text := ascii_text "Jahr".
Definition einzahlung : text := ascii_text "Einzahlung".
Definition tg_stand : text := ascii_text "TG-Stand".
Definition etf_stand : text := ascii_text "ETF-Stand".
Definition gesamt : text := ascii_text "Gesamt".
Definition real_heute : text := ascii_text "Real (heute)".
Definition summe_einzahlungen : text := ascii_text "Summe Einzahlungen:".
Definition endstand_nominal : text := ascii_text "Endstand nominal:".
Definition endstand_real : text := ascii_text "Endstand real:".
Definition inflation_pa : text := ascii_text "Inflation p.a.:".
End Literal.

Module Char.
Definition minus : N := 45.
Definition comma : N := 44.
Definition dot : N := 46.
Definition space : N := 32.
Definition euro : N := 8364.
Definition X : N := 88.
Definition zero : N := 48.
Definition newline : N := 10.
Definition equals : N := 61.
Definition percent : N := 37.
Definition is_digit (c : N) : bool := (48 <=? c)%N && (c <=? 57)%N.
End Char.

(** [s.replace(old, new)] where [old] and [new] are single characters. *)
Definition replace_char (old new : N) (s : text) : text :=
  map (fun c => if (c =? old)%N then new else c) s.

(** The decimal digits of a natural number. *)
Fixpoint digits_fuel (fuel : nat) (n : N) (acc : text) : text :=
  match fuel with
  | O => acc
  | S fuel' =>
      let acc' := (Char.zero + n mod 10)%N :: acc in
      if (n / 10 =? 0)%N then acc' else digits_fuel fuel' (n / 10)%N acc'
  end.

Definition decimal (n : N) : text := digits_fuel (S (N.to_nat (N.log2 n))) n [].

(** Digits in groups of three from the right, [sep] between the groups. *)
Fixpoint group (sep : N) (ds : text) : text :=
  match ds with
  | [] => []
  | d :: rest =>
      d :: (if (0 <? List.length rest)%nat && (List.length rest mod 3 =? 0)%nat
            then sep :: group sep rest else group sep rest)
  end.

(** The hundredths nearest to [m * 2 ^ e], ties to even. *)
Definition cents_of (m : positive) (e : Z) : N :=
  match e with
  | Z0 => Npos m * 100
  | Zpos p => Npos m * 2 ^ Npos p * 100
  | Zneg p =>
      let num := (Npos m * 100)%N in
      let den := (2 ^ Npos p)%N in
      let q := (num / den)%N in
      let r := (num mod den)%N in
      match (2 * r ?= den)%N with
      | Lt => q
      | Gt => (q + 1)%N
      | Eq => if N.even q then q else (q + 1)%N
      end
  end.

(** The amount in hundredths, sign apart, as the format rounds it. *)
Definition cents (value : float) : N :=
  match Prim2SF value with
  | S754_finite _ m e => cents_of m e
  | _ => 0%N
  end.

Definition sign_text (s : bool) : text := if s then [Char.minus] else [].

Definition two_digits (k : N) : text := [(Char.zero + k / 10)%N; (Char.zero + k mod 10)%N].

(** [f"{value:,.2f}"] when [grouped], [f"{value:.2f}"] when not. *)
Definition format_fixed2 (grouped : bool) (value : float) : text :=
  match Prim2SF value with
  | S754_nan => Literal.nan
  | S754_infinity s => sign_text s ++ Literal.inf
  | S754_zero s => sign_text s ++ Literal.zero
  | S754_finite s m e =>
      let c := cents_of m e in
      let whole := decimal (c / 100) in
      sign_text s ++ (if grouped then group Char.comma whole else whole)
        ++ [Char.dot] ++ two_digits (c mod 100)
  end.

(** [format_money] of [main.py], [format_euro] of [app.py]. *)
Definition format_money (value : float) : text :=
  replace_char Char.X Char.dot
    (replace_char Char.dot Char.comma
       (replace_char Char.comma Char.X
          (format_fixed2 true value ++ [Char.space; Char.euro]))).

Definition format_euro (value : float) : text := format_money value.

(** What the three replacements do to one character, when it is not the
    placeholder: comma and point change places. *)
Definition swap_separators (c : N) : N :=
  if (c =? Char.comma)%N then Char.dot
  else if (c =? Char.dot)%N then Char.comma
  else c.

(** The pattern of a German amount: an optional minus, one to three digits,
    groups of a point and three digits, a comma, two digits, a space and the
    euro sign. *)
Fixpoint groups_and_cents (s : text) : bool :=
  match s with
  | sep :: rest =>
      if (sep =? Char.dot)%N then
        match rest with
        | a :: b :: c :: rest' =>
            Char.is_digit a && Char.is_digit b && Char.is_digit c && groups_and_cents rest'
        | _ => false
        end
      else if (sep =? Char.comma)%N then
        match rest with
        | [a; b; sp; eu] =>
            Char.is_digit a && Char.is_digit b && (sp =? Char.space)%N && (eu =? Char.euro)%N
        | _ => false
        end
      else false
  | [] => false
  end.

Definition unsigned_amount (s : text) : bool :=
  match s with
  | a :: rest =>
      Char.is_digit a &&
      (groups_and_cents rest ||
       match rest with
       | b :: rest' =>
           Char.is_digit b &&
           (groups_and_cents rest' ||
            match rest' with
            | c :: rest'' => Char.is_digit c && groups_and_cents rest''
            | [] => false
            end)
       | [] => false
       end)
  | [] => false
  end.

Definition german_amount (s : text) : bool :=
  match s with
  | c :: rest => if (c =? Char.minus)%N then unsigned_amount rest else unsigned_amount s
  | [] => false
  end.

(** The number the digits of a text spell, other characters skipped. *)
Definition read_digit (acc c : N) : N :=
  if Char.is_digit c then (acc * 10 + (c - Char.zero))%N else acc.

Definition digits_value (s : text) : N := fold_left read_digit s 0%N.

(** * The console report

    [print_header] and [print_table] of [main.py] write to the standard
    output; the output is the text written so far, and [print] adds its
    argument and a line feed.  [print_table] reads [results[-1]], which
    raises [IndexError] on an empty list. *)

Definition print (line : text) (out : text) : text := out ++ line ++ [Char.newline].

(** [s.center(width)]. *)
Definition center (width : nat) (s : text) : text :=
  let marg := (width - List.length s)%nat in
  let left := (marg / 2 + (if Nat.odd marg && Nat.odd width then 1 else 0))%nat in
  repeat Char.space left ++ s ++ repeat Char.space (marg - left).

(** The format specifications [>width] and [<width]. *)
Definition align_right (width : nat) (s : text) : text :=
  repeat Char.space (width - List.length s) ++ s.

Definition align_left (width : nat) (s : text) : text :=
  s ++ repeat Char.space (width - List.length s).

(** An [int] as the format writes it. *)
Definition int_text (z : Z) : text :=
  match z with
  | Z0 => decimal 0
  | Zpos p => decimal (Npos p)
  | Zneg p => Char.minus :: decimal (Npos p)
  end.

(** [l[i]], the index counted from the end when negative. *)
Definition py_index {X : Type} (l : list X) (i : Z) : option X :=
  let n := Z.of_nat (List.length l) in
  let j := if (i <? 0)%Z then (i + n)%Z else i in
  if (j <? 0)%Z || (n <=? j)%Z then None else nth_error l (Z.to_nat j).

Inductive lookup_error : Type := IndexError.

(** What a call that prints leaves behind: the output, and the exception
    when it raised. *)
Inductive printed : Type :=
  | Returned (out : text)
  | Raised (e : lookup_error) (out : text).

Definition print_header (title : text) (out : text) : text :=
  let out := print ([Char.newline] ++ repeat Char.equals 80) out in
  let out := print (center 80 title) out in
  print (repeat Char.equals 80) out.

Definition table_header : text :=
  align_right 4 Literal.jahr ++ Literal.bar
    ++ align_right 12 Literal.einzahlung ++ Literal.bar
    ++ align_right 12 Literal.tg_stand ++ Literal.bar
    ++ align_right 12 Literal.etf_stand ++ Literal.bar
    ++ align_right 12 Literal.gesamt ++ Literal.bar
    ++ align_right 14 Literal.real_heute.

(** The line [print_table] prints for one snapshot. *)
Definition table_row (r : YearResult float) : text :=
  align_right 4 (int_text (year r)) ++ Literal.bar
    ++ align_right 12 (format_money (deposit r)) ++ Literal.bar
    ++ align_right 12 (format_money (tg_balance r)) ++ Literal.bar
    ++ align_right 12 (format_money (etf_balance r)) ++ Literal.bar
    ++ align_right 12 (format_money (total_nominal r)) ++ Literal.bar
    ++ align_right 14 (format_money (total_real r)).

Section Report.

(** [sum] over floats is the interpreter's: how it rounds depends on the
    version, and nothing below depends on it. *)
Variable float_sum : list float -> float.

Definition print_table (results : list (YearResult float)) (inflation_rate : float)
    (scenario_name : text) (out : text) : printed :=
  let out := print_header (Literal.scenario ++ scenario_name) out in
  let header := table_header in
  let out := print header out in
  let out := print (repeat Char.minus (List.length header)) out in
  let out := fold_left (fun out r => print (table_row r) out) results out in
  let total_deposits := float_sum (map deposit results) in
  match py_index results (-1) with
  | None => Raised IndexError out
  | Some last =>
      let final_nominal := total_nominal last in
      match py_index results (-1) with
      | None => Raised IndexError out
      | Some last' =>
          let final_real := total_real last' in
          let out := print (repeat Char.minus (List.length header)) out in
          let out :=
            print (align_left 20 Literal.summe_einzahlungen ++ [Char.space]
                     ++ format_money total_deposits) out in
          let out :=
            print (align_left 20 Literal.endstand_nominal ++ [Char.space]
                     ++ format_money final_nominal) out in
          let out :=
            print (align_left 20 Literal.endstand_real ++ [Char.space]
                     ++ format_money final_real) out in
          let out :=
            print (align_left 20 Literal.inflation_pa ++ [Char.space]
                     ++ format_fixed2 false (PrimFloat.mul inflation_rate 100)
                     ++ [Char.space; Char.percent]) out in
          Returned (print [] out)
      end
  end.

End Report.

(** Summation from the left, starting at zero. *)
Definition sum_left (l : list float) : float := fold_left PrimFloat.add l 0%float.

(** An amount that fits a column of twelve: not negative and, rounded to
    hundredths, below a million. *)
Definition fits_column (value : float) : Prop :=
  PrimFloat.ltb value 0 = false /\ (cents value < 100000000)%N.

(** * Further concrete runs *)

Module Sample.

#[local] Open Scope float_scope.

(** The run [savings_3] of [Scenario] with two percent of inflation. *)
Definition savings_3_inflated : result (list (YearResult float)) :=
  @simulate_tagesgeld float Binary64.python 2 1 1000 0.1 0.02.

Definition savings_3_inflated_result : list (YearResult float) :=
  Eval vm_compute in
    match savings_3_inflated with
    | Ok l => l
    | Raise _ => []
    end.

(** The combination with both targets zero. *)
Definition combo_zero_targets : result (list (YearResult float)) :=
  @simulate_combo float Binary64.python 2 1 1000 0.1 0.1 0 0 0 1.

(** Two years without a deposit year. *)
Definition idle : result (list (YearResult float)) :=
  @simulate_combo float Binary64.python 0 2 1000 0.02 0.05 0.02 500 800 1.

Definition idle_result : list (YearResult float) :=
  Eval vm_compute in
    match idle with
    | Ok l => l
    | Raise _ => []
    end.

(** No year at all. *)
Definition no_year : result (list (YearResult float)) :=
  @simulate_tagesgeld float Binary64.python 0 0 1000 0.02 0.02.

(** A row of the table, and a title. *)
Definition row : YearResult float :=
  mkYearResult 1 10200 5100 5610.5 10710.5 10500.49.

Definition title : text := Literal.jahr.

End Sample.

(** * Rounding to nearest, on integers

    What binary64 rounding does, written on integers: a float that is not
    negative is read as a multiple of [2 ^ -1074], the smallest positive
    float, and positive infinity as [2 ^ 2098], the first power of two
    above every finite float. *)

(** [m / 2 ^ k] rounded to the nearest integer, ties to the even one. *)
Definition rne_shift (m k : Z) : Z :=
  let q := (m / 2 ^ k)%Z in
  let r := (m mod 2 ^ k)%Z in
  match (2 * r ?= 2 ^ k)%Z with
  | Lt => q
  | Gt => (q + 1)%Z
  | Eq => if Z.even q then q else (q + 1)%Z
  end.

(** [n / 2 ^ u] rounded to 53 significant binary digits and to an integer,
    ties to even. *)
Definition round53 (u n : Z) : Z :=
  let k := Z.max (Zdigits2 n - 53) u in
  (rne_shift n k * 2 ^ (k - u))%Z.

(** The value of a float that is not negative, in units of [2 ^ -1074]. *)
Definition sf_val (s : spec_float) : Z :=
  match s with
  | S754_finite false m e => (Zpos m * 2 ^ (e + 1074))%Z
  | S754_infinity false => (2 ^ 2098)%Z
  | _ => 0%Z
  end.

(** Not negative and not NaN, on the specification of binary64. *)
Definition sf_good (s : spec_float) : bool :=
  match s with
  | S754_zero _ | S754_infinity false | S754_finite false _ _ => true
  | _ => false
  end.

(** What a float can hold: at most 53 significant digits. *)
Definition fits53 (n : Z) : Prop :=
  n = 0%Z \/ exists m j : Z, (0 < m < 2 ^ 53)%Z /\ (0 <= j)%Z /\ n = (m * 2 ^ j)%Z.

(** The same readings on the floats of the program. *)
Definition float_val (x : float) : Z := sf_val (Prim2SF x).

Definition float_good (x : float) : bool := sf_good (Prim2SF x).

(** NaN, or not negative and worth at least [lo]. *)
Definition at_least (lo : Z) (x : float) : Prop :=
  Prim2SF x = S754_nan \/ (float_good x = true /\ (lo <= float_val x)%Z).

(** [y] is not below [x]: [y < x] is false, and [x <= y] holds unless one
    of the two is NaN. *)
Definition not_below (x y : float) : Prop :=
  PrimFloat.ltb y x = false /\
  (PrimFloat.is_nan x = false -> PrimFloat.is_nan y = false -> PrimFloat.leb x y = true).

(** * Laws of the carriers *)

Module SpecFloatFacts.

Lemma SFcompare_refl (s : spec_float) :
  s <> S754_nan -> SFcompare s s = Some Eq.
Proof.
  destruct s as [b | b | | b m e]; simpl; intros H; try congruence.
  - now destruct b.
  - rewrite Z.compare_refl, Pos.compare_cont_refl. now destruct b.
Qed.

Lemma SFcompare_antisym (x y : spec_float) (c : comparison) :
  SFcompare x y = Some c -> SFcompare y x = Some (CompOpp c).
Proof.
  destruct x as [bx | bx | | bx mx ex], y as [b_y | b_y | | b_y my ey]; simpl;
    intros H; try discriminate; injection H as <-;
    try (destruct bx; reflexivity); try (destruct b_y; reflexivity);
    try (destruct bx, b_y; reflexivity).
  rewrite (Z.compare_antisym ex ey).
  change (PosDef.Pos.compare_cont Eq my mx)
    with (Pos.compare_cont (CompOpp Eq) my mx).
  rewrite <- (Pos.compare_cont_antisym mx my Eq).
  change (PosDef.Pos.compare_cont Eq mx my) with (Pos.compare_cont Eq mx my).
  destruct bx, b_y; try reflexivity;
    destruct (ex ?= ey)%Z; simpl; try reflexivity.
Qed.

Local Open Scope Z_scope.

Lemma binary_round_aux_nn (m e : Z) (l : location) :
  sf_nn (binary_round_aux prec emax false m e l) = true.
Proof.
  unfold binary_round_aux.
  destruct (shr_fexp prec emax m e l) as [mrs e'].
  destruct (shr_fexp prec emax _ e' loc_Exact) as [mrs' e''].
  destruct (shr_m mrs'); try reflexivity.
  now destruct (e'' <=? emax - prec).
Qed.

Lemma binary_normalize_nn (m e : Z) :
  0 <= m -> sf_nn (binary_normalize prec emax m e false) = true.
Proof.
  intros H. destruct m as [| p | p]; [reflexivity | | lia].
  unfold binary_normalize, binary_round.
  destruct (shl_align p e _) as [mz ez]. apply binary_round_aux_nn.
Qed.

Lemma sf_nn_mul (a b : spec_float) :
  sf_nn a = true -> sf_nn b = true -> sf_nn (SFmul prec emax a b) = true.
Proof.
  destruct a as [[] | [] | | [] ma ea], b as [[] | [] | | [] mb eb];
    intros Ha Hb; try discriminate; try reflexivity.
  apply binary_round_aux_nn.
Qed.

Lemma sf_nn_add (a b : spec_float) :
  sf_nn a = true -> sf_nn b = true -> sf_nn (SFadd prec emax a b) = true.
Proof.
  destruct a as [[] | [] | | [] ma ea], b as [[] | [] | | [] mb eb];
    intros Ha Hb; try discriminate; try reflexivity.
  unfold SFadd. apply binary_normalize_nn. unfold cond_Zopp. lia.
Qed.

Lemma sf_nn_sub_diag (a : spec_float) : sf_nn (SFsub prec emax a a) = true.
Proof.
  destruct a as [[] | [] | | s m e]; try reflexivity.
  unfold SFsub. rewrite Z.sub_diag. reflexivity.
Qed.

Lemma digits2_pos_bounds (m : positive) :
  2 ^ (Zpos (digits2_pos m) - 1) <= Zpos m < 2 ^ Zpos (digits2_pos m).
Proof.
  induction m as [m IH | m IH |]; cbn [digits2_pos].
  - rewrite Pos2Z.inj_succ.
    replace (Z.succ (Z.pos (digits2_pos m)) - 1) with (Z.succ (Z.pos (digits2_pos m) - 1)) by lia.
    rewrite !Z.pow_succ_r by lia. lia.
  - rewrite Pos2Z.inj_succ.
    replace (Z.succ (Z.pos (digits2_pos m)) - 1) with (Z.succ (Z.pos (digits2_pos m) - 1)) by lia.
    rewrite !Z.pow_succ_r by lia. lia.
  - simpl. lia.
Qed.

Lemma iter_xO (m d : positive) : Zpos (Pos.iter xO m d) = Zpos m * 2 ^ Zpos d.
Proof.
  revert m. induction d as [| d IH] using Pos.peano_ind; intros m.
  - simpl. lia.
  - rewrite Pos.iter_succ, Pos2Z.inj_succ, Z.pow_succ_r by lia.
    rewrite Pos2Z.inj_xO, IH. lia.
Qed.

Lemma shl_align_value (m : positive) (e e' : Z) :
  e' <= e -> Zpos (fst (shl_align m e e')) = Zpos m * 2 ^ (e - e').
Proof.
  intros H. unfold shl_align.
  destruct (e' - e) as [| p | p] eqn:E; simpl fst.
  - replace (e - e') with 0 by lia. simpl. lia.
  - lia.
  - rewrite iter_xO. f_equal. f_equal. lia.
Qed.

(** A valid finite value with exponent above the least one has a full mantissa. *)
Lemma valid_mantissa (m : positive) (e : Z) :
  SpecFloat.bounded prec emax m e = true ->
  Zpos m < 2 ^ 53 /\ (SpecFloat.emin prec emax < e -> 2 ^ 52 <= Zpos m) /\ SpecFloat.emin prec emax <= e.
Proof.
  unfold bounded, canonical_mantissa, fexp. intros H.
  apply andb_true_iff in H. destruct H as (H & _). apply Z.eqb_eq in H.
  pose proof (digits2_pos_bounds m) as (Hlo & Hhi).
  change prec with 53 in *. change (SpecFloat.emin 53 emax) with (-1074) in *.
  assert (Hd : Zpos (digits2_pos m) <= 53) by lia.
  repeat split.
  - apply Z.lt_le_trans with (1 := Hhi). apply Z.pow_le_mono_r; lia.
  - intros He. assert (Zpos (digits2_pos m) = 53) by lia.
    replace 52 with (Zpos (digits2_pos m) - 1) by lia. exact Hlo.
  - lia.
Qed.

Lemma sf_nn_sub_lt (a b : spec_float) :
  SpecFloat.valid_binary prec emax a = true -> SpecFloat.valid_binary prec emax b = true ->
  sf_nn a = true -> sf_nn b = true -> SFltb b a = true ->
  sf_nn (SFsub prec emax a b) = true.
Proof.
  destruct a as [[] | [] | | [] ma ea], b as [[] | [] | | [] mb eb];
    intros Va Vb Ha Hb Hlt; try discriminate; try reflexivity.
  unfold SFsub. apply binary_normalize_nn. unfold cond_Zopp.
  simpl in Va, Vb. apply valid_mantissa in Va, Vb.
  destruct Va as (Ha1 & Ha2 & Ha3), Vb as (Hb1 & Hb2 & Hb3).
  unfold SFltb, SFcompare in Hlt.
  rewrite !shl_align_value by lia.
  destruct (Z.compare_spec eb ea) as [E | E | E].
  - subst eb.
    rewrite Z.min_id, Z.sub_diag, Z.pow_0_r.
    destruct (PosDef.Pos.compare_cont Eq mb ma) eqn:E'; try discriminate.
    assert (Hm : (mb < ma)%positive) by exact E'. lia.
  - rewrite Z.min_r by lia. rewrite Z.sub_diag.
    assert (2 ^ 52 <= Zpos ma) by (apply Ha2; lia).
    assert (2 <= 2 ^ (ea - eb)).
    { change 2 with (2 ^ 1) at 1. apply Z.pow_le_mono_r; lia. }
    rewrite Z.pow_0_r. nia.
  - discriminate.
Qed.

(** Rounding a value that is already in the format returns it. *)
Lemma binary_round_aux_canonical (s : bool) (m : positive) (e : Z) :
  SpecFloat.bounded prec emax m e = true ->
  binary_round_aux prec emax s (Zpos m) e loc_Exact = S754_finite s m e.
Proof.
  unfold SpecFloat.bounded, canonical_mantissa. intros H.
  apply andb_true_iff in H. destruct H as (H1 & H2). apply Z.eqb_eq in H1.
  unfold binary_round_aux, shr_fexp. cbn [Zdigits2 shr_record_of_loc].
  rewrite H1, Z.sub_diag. cbn [shr shr_m loc_of_shr_record round_nearest_even Zdigits2].
  rewrite H1, Z.sub_diag. cbn [shr shr_m]. now rewrite H2.
Qed.

(** The same after one more binary digit: [2 m] at exponent [e - 1]. *)
Lemma binary_round_aux_double (s : bool) (m : positive) (e : Z) :
  SpecFloat.bounded prec emax m e = true ->
  fexp prec emax (Zpos (digits2_pos m) + e - 1) = e - 1 ->
  binary_round_aux prec emax s (Zpos (xO m)) (e - 1) loc_Exact = S754_finite s m e.
Proof.
  intros H He. pose proof H as H'.
  unfold SpecFloat.bounded, canonical_mantissa in H.
  apply andb_true_iff in H. destruct H as (H1 & H2). apply Z.eqb_eq in H1.
  unfold binary_round_aux, shr_fexp. cbn [Zdigits2 shr_record_of_loc digits2_pos].
  rewrite Pos2Z.inj_succ.
  replace (Z.succ (Z.pos (digits2_pos m)) + (e - 1)) with (Z.pos (digits2_pos m) + e) by lia.
  rewrite H1. replace (e - (e - 1)) with 1 by lia.
  cbn [shr iter_pos shr_1 orb shr_m loc_of_shr_record round_nearest_even Zdigits2].
  replace (e - 1 + 1) with e by lia.
  rewrite H1, Z.sub_diag. cbn [shr shr_m]. now rewrite H2.
Qed.

Lemma SFdiv_one (a : spec_float) :
  SpecFloat.valid_binary prec emax a = true -> SFdiv prec emax a sf_one = a.
Proof.
  destruct a as [[] | [] | | s m e]; intros V; try reflexivity.
  simpl in V. pose proof V as V'.
  unfold SpecFloat.bounded, canonical_mantissa, fexp in V'.
  apply andb_true_iff in V'. destruct V' as (H1 & H2).
  apply Z.eqb_eq in H1. apply Z.leb_le in H2.
  change (SpecFloat.emin prec emax) with (-1074) in H1. change prec with 53 in H1.
  pose proof (digits2_pos_bounds m) as Hd.
  unfold SFdiv, sf_one, SFdiv_core_binary.
  change (Zdigits2 (Zpos 4503599627370496)) with 53.
  cbn [Zdigits2]. rewrite xorb_false_r.
  set (d := Zpos (digits2_pos m)) in *.
  assert (Hcases : (e = -1074 /\ d <= 53) \/ (-1074 < e /\ d = 53)) by lia.
  destruct Hcases as [(-> & Hd53) | (He & Hd53)].
  - replace (Z.min (fexp prec emax (d + -1074 - (53 + -52))) (-1074 - -52)) with (-1074)
      by (unfold fexp; change (SpecFloat.emin prec emax) with (-1074); change prec with 53; lia).
    change (-1074 - -52 - -1074) with 52.
    rewrite Z.shiftl_mul_pow2 by lia.
    destruct (Z.div_eucl (Zpos m * 2 ^ 52) (Zpos 4503599627370496)) as [q r] eqn:E.
    assert (Hq : q = Zpos m /\ r = 0).
    { pose proof (Z_div_mod (Zpos m * 2 ^ 52) (Zpos 4503599627370496) eq_refl) as H.
      rewrite E in H. change (2 ^ 52) with 4503599627370496 in H. lia. }
    destruct Hq as (-> & ->).
    change (new_location (Zpos 4503599627370496) 0) with loc_Exact.
    now apply binary_round_aux_canonical.
  - replace (Z.min (fexp prec emax (d + e - (53 + -52))) (e - -52)) with (e - 1)
      by (unfold fexp; change (SpecFloat.emin prec emax) with (-1074); change prec with 53; lia).
    replace (e - -52 - (e - 1)) with 53 by lia.
    rewrite Z.shiftl_mul_pow2 by lia.
    destruct (Z.div_eucl (Zpos m * 2 ^ 53) (Zpos 4503599627370496)) as [q r] eqn:E.
    assert (Hq : q = Zpos (xO m) /\ r = 0).
    { pose proof (Z_div_mod (Zpos m * 2 ^ 53) (Zpos 4503599627370496) eq_refl) as H.
      rewrite E in H. change (2 ^ 53) with 9007199254740992 in H. lia. }
    destruct Hq as (-> & ->).
    change (new_location (Zpos 4503599627370496) 0) with loc_Exact.
    apply binary_round_aux_double; [exact V |].
    unfold fexp. change (SpecFloat.emin prec emax) with (-1074). change prec with 53.
    fold d. lia.
Qed.

End SpecFloatFacts.

Module Binary64Laws.
Import SpecFloatFacts.

Lemma float_same_refl (x : float) : Binary64.float_same x x = true.
Proof.
  unfold Binary64.float_same, PrimFloat.is_nan.
  now destruct (PrimFloat.eqb x x).
Qed.

Lemma ltb_irrefl (x : float) : PrimFloat.ltb x x = false.
Proof.
  rewrite ltb_spec. unfold SFltb.
  destruct (Prim2SF x) eqn:E; try reflexivity.
  - now destruct s.
  - rewrite SFcompare_refl by discriminate. reflexivity.
Qed.

Lemma leb_not_ltb (x y : float) :
  PrimFloat.leb y x = true -> PrimFloat.ltb x y = false.
Proof.
  rewrite leb_spec, ltb_spec. unfold SFleb, SFltb.
  destruct (SFcompare (Prim2SF y) (Prim2SF x)) as [c |] eqn:E; try discriminate.
  rewrite (SFcompare_antisym _ _ _ E).
  destruct c; simpl; congruence.
Qed.

Lemma float_same_spec (x y : float) :
  Binary64.float_same x y = sf_same (Prim2SF x) (Prim2SF y).
Proof.
  unfold Binary64.float_same, sf_same, PrimFloat.is_nan.
  now rewrite !eqb_spec.
Qed.

Lemma sf_same_refl (s : spec_float) : sf_same s s = true.
Proof. unfold sf_same. now destruct (SFeqb s s). Qed.

Lemma sf_same_add_zero_r (s : spec_float) :
  sf_same s (SFadd prec emax s (S754_zero false)) = true.
Proof.
  destruct s as [b | b | | b m e]; try apply sf_same_refl.
  now destruct b.
Qed.

Lemma sf_same_add_zero_l (s : spec_float) :
  sf_same s (SFadd prec emax (S754_zero false) s) = true.
Proof.
  destruct s as [b | b | | b m e]; try apply sf_same_refl.
  now destruct b.
Qed.

Lemma Prim2SF_zero : Prim2SF 0%float = S754_zero false.
Proof. reflexivity. Qed.

Lemma float_add_zero_r (x : float) :
  Binary64.float_same x (PrimFloat.add x 0%float) = true.
Proof.
  rewrite float_same_spec, add_spec, Prim2SF_zero.
  apply sf_same_add_zero_r.
Qed.

Lemma float_add_zero_l (x : float) :
  Binary64.float_same x (PrimFloat.add 0%float x) = true.
Proof.
  rewrite float_same_spec, add_spec, Prim2SF_zero.
  apply sf_same_add_zero_l.
Qed.

Lemma ltb_zero_spec (x : float) :
  PrimFloat.ltb x 0%float = negb (sf_nn (Prim2SF x)).
Proof.
  rewrite ltb_spec, Prim2SF_zero.
  destruct (Prim2SF x) as [[] | [] | | [] m e]; reflexivity.
Qed.

Lemma not_neg_spec (x : float) :
  PrimFloat.ltb x 0%float = false <-> sf_nn (Prim2SF x) = true.
Proof. rewrite ltb_zero_spec. apply negb_false_iff. Qed.

Lemma Prim2SF_one : Prim2SF 1%float = sf_one.
Proof. reflexivity. Qed.

(** Dividing by [1.0] is exact, at every value. *)
Lemma div_one_float (x : float) : PrimFloat.div x 1%float = x.
Proof.
  apply Prim2SF_inj. rewrite div_spec, Prim2SF_one.
  apply SFdiv_one. apply Prim2SF_valid.
Qed.

#[global] Instance sign_laws (float_pow : float -> Z -> result float) :
  @SignLaws float (Binary64.arith float_pow).
Proof.
  constructor; simpl.
  - reflexivity.
  - intros x y Hx Hy. apply not_neg_spec in Hx, Hy. apply not_neg_spec.
    rewrite add_spec. now apply sf_nn_add.
  - intros x y Hx Hy. apply not_neg_spec in Hx, Hy. apply not_neg_spec.
    rewrite mul_spec. now apply sf_nn_mul.
  - intros x. apply not_neg_spec. rewrite sub_spec. apply sf_nn_sub_diag.
  - intros x y Hx Hy Hlt. apply not_neg_spec in Hx, Hy. apply not_neg_spec.
    rewrite sub_spec. rewrite ltb_spec in Hlt.
    apply sf_nn_sub_lt; try assumption; apply Prim2SF_valid.
Qed.

(** [pow_mult], like CPython's [**], has [1.0 ** n = 1.0]. *)
Lemma pow_mult_one (n : Z) : Binary64.pow_mult 1%float n = Ok 1%float.
Proof.
  unfold Binary64.pow_mult. now destruct (n =? 0)%Z.
Qed.

Lemma unit_laws (float_pow : float -> Z -> result float) :
  (forall n : Z, float_pow 1%float n = Ok 1%float) ->
  @UnitLaws float (Binary64.arith float_pow).
Proof.
  intros Hpow. constructor; simpl.
  - reflexivity.
  - exact Hpow.
  - intros x. unfold Binary64.float_div.
    change (PrimFloat.eqb 1%float 0%float) with false. cbv iota.
    now rewrite div_one_float.
Qed.

#[global] Instance python_unit_laws : @UnitLaws float Binary64.python :=
  unit_laws Binary64.pow_mult pow_mult_one.

#[global] Instance laws (float_pow : float -> Z -> result float) :
  @ArithLaws float (Binary64.arith float_pow).
Proof.
  constructor; simpl.
  - apply float_same_refl.
  - apply float_add_zero_r.
  - apply float_add_zero_l.
  - apply ltb_irrefl.
  - apply leb_not_ltb.
Qed.

End Binary64Laws.

Module ExactLaws.

Lemma q_ltb_lt (x y : Q) : Exact.q_ltb x y = true <-> (x < y)%Q.
Proof.
  unfold Exact.q_ltb. rewrite negb_true_iff.
  destruct (Qle_bool y x) eqn:E.
  - apply Qle_bool_iff in E. split; [discriminate | intros H; exfalso; lra].
  - split; [intros _ | reflexivity].
    destruct (Qlt_le_dec x y) as [H | H]; [exact H |].
    apply Qle_bool_iff in H. congruence.
Qed.

Lemma q_ltb_ge (x y : Q) : Exact.q_ltb x y = false <-> (y <= x)%Q.
Proof.
  unfold Exact.q_ltb. rewrite negb_false_iff. apply Qle_bool_iff.
Qed.

#[global] Instance laws : @ArithLaws Q Exact.arith.
Proof.
  constructor; simpl; intros.
  - apply Qeq_bool_iff. reflexivity.
  - apply Qeq_bool_iff. ring.
  - apply Qeq_bool_iff. ring.
  - apply q_ltb_ge. apply Qle_refl.
  - apply q_ltb_ge. now apply Qle_bool_iff.
Qed.

#[global] Instance order_total : OrderTotal Q.
Proof.
  constructor. simpl. intros x y H. apply q_ltb_ge in H. now apply Qle_bool_iff.
Qed.

#[global] Instance sign_laws : SignLaws Q.
Proof.
  constructor; simpl.
  - apply q_ltb_ge. lra.
  - intros x y Hx Hy. apply q_ltb_ge in Hx, Hy. apply q_ltb_ge. lra.
  - intros x y Hx Hy. apply q_ltb_ge in Hx, Hy. apply q_ltb_ge.
    now apply Qmult_le_0_compat.
  - intros x. apply q_ltb_ge. lra.
  - intros x y _ _ Hlt. apply q_ltb_lt in Hlt. apply q_ltb_ge. lra.
Qed.

Lemma Qpower_positive_one (p : positive) : Qpower_positive 1 p = 1%Q.
Proof.
  unfold Qpower_positive.
  induction p as [p IH | p IH |]; simpl; rewrite ?IH; reflexivity.
Qed.

#[global] Instance unit_laws : UnitLaws Q.
Proof.
  constructor; simpl.
  - reflexivity.
  - intros n. unfold Exact.q_pow.
    replace (Qeq_bool 1 0) with false by reflexivity. rewrite andb_false_r.
    f_equal. destruct n as [| p | p]; simpl; rewrite ?Qpower_positive_one; reflexivity.
  - intros [n d]. unfold Exact.q_div. simpl. f_equal.
    unfold Qdiv, Qmult, Qinv. simpl. now rewrite Z.mul_1_r, Pos.mul_1_r.
Qed.

(** In exact arithmetic [real_value] is defined as soon as the inflation
    rate is not minus one: from the first year on the divisor is not zero. *)
Lemma real_value_defined (x i : Q) (y : Z) :
  ~ (1 + i == 0)%Q -> (0 <= y)%Z -> exists v, real_value x i y = Ok v.
Proof.
  intros Hi Hy. unfold real_value. simpl. unfold Exact.q_pow.
  replace (y <? 0)%Z with false by (symmetry; apply Z.ltb_ge; exact Hy).
  simpl. unfold Exact.q_div.
  destruct (Qeq_bool ((1 + i) ^ y) 0) eqn:E.
  - apply Qeq_bool_iff in E. now apply Qpower_not_0 in E.
  - eexists. reflexivity.
Qed.

End ExactLaws.

(** * The loops *)

Lemma py_range_from_1 (n : Z) :
  py_range 1 (n + 1) = map Z.of_nat (seq 1 (Z.to_nat n)).
Proof.
  unfold py_range.
  replace (n + 1 - 1)%Z with n by lia.
  rewrite <- seq_shift, map_map.
  apply map_ext. intros i. lia.
Qed.

Lemma Forall2_nth_error_r {X Y : Type} (P : X -> Y -> Prop) (xs : list X) (ys : list Y) :
  Forall2 P xs ys ->
  forall k y, nth_error ys k = Some y ->
    exists x, nth_error xs k = Some x /\ P x y.
Proof.
  induction 1 as [| x y' xs ys Hxy Hrest IH]; intros k y Hk.
  - destruct k; discriminate.
  - destruct k as [| k]; simpl in Hk.
    + injection Hk as <-. now exists x.
    + exact (IH k y Hk).
Qed.

Section SkeletonFacts.

Context {F : Type} {A : Arith F} {St : Type}.
Variables (step : Z -> St -> St) (snapshot : Z -> St -> F -> YearResult F).
Variables (nominal : St -> F) (inflation_rate : F).

Let loop := year_loop step snapshot nominal inflation_rate.
Let at_pass := snapshot_at snapshot nominal inflation_rate.

(** A run that returns has appended one snapshot per year, in order. *)
Lemma year_loop_ok (years : list Z) :
  forall (st : St) (results l : list (YearResult F)),
    loop years st results = Ok l ->
    exists l', l = results ++ l' /\ Forall2 at_pass (trace step years st) l'.
Proof.
  induction years as [| y rest IH]; intros st results l H; simpl in H.
  - injection H as <-. exists []. split; [now rewrite app_nil_r | constructor].
  - destruct (real_value (nominal (step y st)) inflation_rate y) as [v |] eqn:E;
      simpl in H; [| discriminate].
    destruct (IH _ _ _ H) as (l' & -> & Hall).
    exists (snapshot y (step y st) v :: l'). split.
    + now rewrite <- app_assoc.
    + simpl. constructor; [| exact Hall].
      exists v. split; [exact E | reflexivity].
Qed.

(** A run returns when [real_value] is defined at each of its years. *)
Lemma year_loop_defined (years : list Z) :
  (forall y x, In y years -> exists v, real_value x inflation_rate y = Ok v) ->
  forall (st : St) (results : list (YearResult F)),
    exists l, loop years st results = Ok l.
Proof.
  induction years as [| y rest IH]; intros Hdef st results; simpl.
  - now exists results.
  - destruct (Hdef y (nominal (step y st)) (or_introl eq_refl)) as (v & ->). simpl.
    apply IH. intros y' x Hin. apply Hdef. now right.
Qed.

(** The years of the snapshots are the years of the run. *)
Lemma trace_years (years : list Z) :
  forall st : St, map fst (trace step years st) = years.
Proof.
  induction years as [| y rest IH]; intros st; simpl; [reflexivity |].
  now rewrite IH.
Qed.

Lemma at_pass_years (ps : list (Z * St)) (l : list (YearResult F)) :
  (forall y st v, year (snapshot y st v) = y) ->
  Forall2 at_pass ps l -> map (@year F) l = map fst ps.
Proof.
  intros Hy. induction 1 as [| p r ps rs (v & _ & ->) _ IH]; simpl; [reflexivity |].
  now rewrite Hy, IH.
Qed.

Lemma trace_seq (init : St) (n : nat) :
  forall a : nat,
    trace step (map Z.of_nat (seq (S a) n)) (state_after step init a)
    = map (fun k => (Z.of_nat k, state_after step init k)) (seq (S a) n).
Proof.
  induction n as [| n IH]; intros a; [reflexivity |].
  cbn [seq map trace]. f_equal. exact (IH (S a)).
Qed.

(** The run of a simulation: as many snapshots as years, the one with
    index [k] taken after the pass of the year [k + 1]. *)
Lemma run_spec (init : St) (n : Z) (l : list (YearResult F)) :
  loop (py_range 1 (n + 1)) init [] = Ok l ->
  length l = Z.to_nat n /\
  forall k r, nth_error l k = Some r ->
    at_pass (Z.of_nat (S k), state_after step init (S k)) r.
Proof.
  intros H. apply year_loop_ok in H. destruct H as (l' & -> & Hall).
  simpl. rewrite py_range_from_1 in Hall.
  change init with (state_after step init 0) in Hall at 1.
  rewrite trace_seq in Hall.
  split.
  - apply Forall2_length in Hall. now rewrite length_map, length_seq in Hall.
  - intros k r Hk.
    destruct (Forall2_nth_error_r _ _ _ Hall k r Hk) as (p & Hp & Hat).
    rewrite nth_error_map, nth_error_seq in Hp.
    destruct (k <? Z.to_nat n)%nat; simpl in Hp; [| discriminate].
    injection Hp as <-. exact Hat.
Qed.

Lemma run_years (init : St) (n : Z) (l : list (YearResult F)) :
  (forall y st v, year (snapshot y st v) = y) ->
  loop (py_range 1 (n + 1)) init [] = Ok l ->
  map (@year F) l = map Z.of_nat (seq 1 (Z.to_nat n)).
Proof.
  intros Hy H. apply year_loop_ok in H. destruct H as (l' & -> & Hall).
  simpl. rewrite (at_pass_years _ _ Hy Hall), trace_years.
  apply py_range_from_1.
Qed.

(** The run returns when [real_value] is defined at the years [1 .. n]. *)
Lemma run_defined (init : St) (n : Z) :
  (forall y x, (1 <= y <= n)%Z -> exists v, real_value x inflation_rate y = Ok v) ->
  exists l, loop (py_range 1 (n + 1)) init [] = Ok l.
Proof.
  intros Hdef. apply year_loop_defined.
  intros y x Hin. apply Hdef.
  rewrite py_range_from_1 in Hin. apply in_map_iff in Hin.
  destruct Hin as (k & <- & Hk). apply in_seq in Hk. lia.
Qed.

End SkeletonFacts.

(** ** The three loops are instances of the shared shape *)

Section Runs.

Context {F : Type} {A : Arith F}.
Variables (deposit_years growth_years : Z).
Variables (annual_deposit tg_rate etf_rate inflation_rate : F).
Variables (tg_target_first tg_target_after : F) (years_first_target : Z).

Lemma tagesgeld_loop_eq (years : list Z) :
  forall (b : F) (results : list (YearResult F)),
    tagesgeld_loop deposit_years annual_deposit tg_rate inflation_rate years b results
    = year_loop (pure_step deposit_years annual_deposit tg_rate)
        (tagesgeld_snapshot deposit_years annual_deposit) (fun b => b)
        inflation_rate years b results.
Proof.
  induction years as [| y rest IH]; intros b results; simpl; [reflexivity |].
  fold (pure_step deposit_years annual_deposit tg_rate y b).
  destruct (real_value _ inflation_rate y); simpl; [apply IH | reflexivity].
Qed.

Lemma etf_loop_eq (years : list Z) :
  forall (b : F) (results : list (YearResult F)),
    etf_loop deposit_years annual_deposit etf_rate inflation_rate years b results
    = year_loop (pure_step deposit_years annual_deposit etf_rate)
        (etf_snapshot deposit_years annual_deposit) (fun b => b)
        inflation_rate years b results.
Proof.
  induction years as [| y rest IH]; intros b results; simpl; [reflexivity |].
  fold (pure_step deposit_years annual_deposit etf_rate y b).
  destruct (real_value _ inflation_rate y); simpl; [apply IH | reflexivity].
Qed.

Let combo_step :=
  combo_year deposit_years annual_deposit tg_rate etf_rate
    tg_target_first tg_target_after years_first_target.

Lemma combo_loop_eq (years : list Z) :
  forall (b : F * F) (results : list (YearResult F)),
    combo_loop deposit_years annual_deposit tg_rate etf_rate inflation_rate
      tg_target_first tg_target_after years_first_target years b results
    = year_loop combo_step (combo_snapshot deposit_years annual_deposit)
        combo_nominal inflation_rate years b results.
Proof.
  induction years as [| y rest IH]; intros b results; simpl; [reflexivity |].
  fold (combo_step y b). destruct (combo_step y b) as [tg etf] eqn:E.
  unfold combo_nominal, combo_snapshot. simpl.
  destruct (real_value _ inflation_rate y); simpl; [apply IH | reflexivity].
Qed.

(** The balance the pure simulations reach is the recurrence. *)
Lemma pure_state_recurrence (rate : F) (n : nat) :
  state_after (pure_step deposit_years annual_deposit rate) zero n
  = recurrence deposit_years annual_deposit rate n.
Proof.
  induction n as [| n IH]; [reflexivity |].
  cbn [state_after recurrence]. rewrite IH. reflexivity.
Qed.

(** What a returned sequence of [simulate_tagesgeld] looks like. *)
Lemma tagesgeld_run (l : list (YearResult F)) :
  simulate_tagesgeld deposit_years growth_years annual_deposit tg_rate inflation_rate = Ok l ->
  length l = Z.to_nat (deposit_years + growth_years) /\
  forall k r, nth_error l k = Some r ->
    exists v,
      real_value (recurrence deposit_years annual_deposit tg_rate (S k))
        inflation_rate (Z.of_nat (S k)) = Ok v /\
      r = tagesgeld_snapshot deposit_years annual_deposit (Z.of_nat (S k))
            (recurrence deposit_years annual_deposit tg_rate (S k)) v.
Proof.
  unfold simulate_tagesgeld. rewrite tagesgeld_loop_eq. intros H.
  apply run_spec in H. destruct H as (Hlen & Hnth). split; [exact Hlen |].
  intros k r Hk. destruct (Hnth k r Hk) as (v & Hv & ->).
  cbn [fst snd] in *. rewrite pure_state_recurrence in *. now exists v.
Qed.

Lemma etf_run (l : list (YearResult F)) :
  simulate_etf deposit_years growth_years annual_deposit etf_rate inflation_rate = Ok l ->
  length l = Z.to_nat (deposit_years + growth_years) /\
  forall k r, nth_error l k = Some r ->
    exists v,
      real_value (recurrence deposit_years annual_deposit etf_rate (S k))
        inflation_rate (Z.of_nat (S k)) = Ok v /\
      r = etf_snapshot deposit_years annual_deposit (Z.of_nat (S k))
            (recurrence deposit_years annual_deposit etf_rate (S k)) v.
Proof.
  unfold simulate_etf. rewrite etf_loop_eq. intros H.
  apply run_spec in H. destruct H as (Hlen & Hnth). split; [exact Hlen |].
  intros k r Hk. destruct (Hnth k r Hk) as (v & Hv & ->).
  cbn [fst snd] in *. rewrite pure_state_recurrence in *. now exists v.
Qed.

Let combo_state :=
  combo_state deposit_years annual_deposit tg_rate etf_rate
    tg_target_first tg_target_after years_first_target.

Lemma combo_run (l : list (YearResult F)) :
  simulate_combo deposit_years growth_years annual_deposit tg_rate etf_rate
    inflation_rate tg_target_first tg_target_after years_first_target = Ok l ->
  length l = Z.to_nat (deposit_years + growth_years) /\
  forall k r, nth_error l k = Some r ->
    exists v,
      real_value (combo_nominal (combo_state (S k))) inflation_rate (Z.of_nat (S k)) = Ok v /\
      r = combo_snapshot deposit_years annual_deposit (Z.of_nat (S k))
            (combo_state (S k)) v.
Proof.
  unfold simulate_combo. rewrite combo_loop_eq. intros H.
  apply run_spec in H. destruct H as (Hlen & Hnth). split; [exact Hlen |].
  intros k r Hk. destruct (Hnth k r Hk) as (v & Hv & ->).
  cbn [fst snd] in *. now exists v.
Qed.

(** The balances a pass of [simulate_combo] starts from are the state after
    the years before. *)
Lemma combo_balances_before (l : list (YearResult F)) (k : nat) (r : YearResult F) :
  simulate_combo deposit_years growth_years annual_deposit tg_rate etf_rate
    inflation_rate tg_target_first tg_target_after years_first_target = Ok l ->
  nth_error l k = Some r ->
  balances_before l k = combo_state k.
Proof.
  intros H Hk. apply combo_run in H. destruct H as (Hlen & Hnth).
  destruct k as [| j]; [reflexivity |]. simpl.
  assert (Hj : (j < length l)%nat).
  { assert (S j < length l)%nat by (apply nth_error_Some; congruence). lia. }
  apply nth_error_Some in Hj.
  destruct (nth_error l j) as [r' |] eqn:E; [| congruence].
  destruct (Hnth j r' E) as (v & _ & ->).
  unfold balances, combo_snapshot. simpl. now destruct (combo_state (S j)).
Qed.

End Runs.

(** * Properties that hold at every carrier

    Nothing below depends on how the carrier rounds: the statements hold of
    the binary64 run as they hold of the exact one. *)

Section Claims.

Context {F : Type} {A : Arith F} {L : ArithLaws F}.
Variables (deposit_years growth_years : Z).
Variables (annual_deposit tg_rate etf_rate inflation_rate : F).
Variables (tg_target_first tg_target_after : F) (years_first_target : Z).

Let tagesgeld :=
  simulate_tagesgeld deposit_years growth_years annual_deposit tg_rate inflation_rate.
Let etf :=
  simulate_etf deposit_years growth_years annual_deposit etf_rate inflation_rate.
Let combo :=
  simulate_combo deposit_years growth_years annual_deposit tg_rate etf_rate
    inflation_rate tg_target_first tg_target_after years_first_target.
Let target_in := target_of tg_target_first tg_target_after years_first_target.
Let deposit_in := deposit_of deposit_years annual_deposit.

(** The snapshot with index [k] of [simulate_combo], from the balances the
    pass started with. *)
Lemma combo_snapshot_step (l : list (YearResult F)) (k : nat) (r : YearResult F) :
  combo = Ok l -> nth_error l k = Some r ->
  year r = Z.of_nat (S k) /\
  deposit r = deposit_in (Z.of_nat (S k)) /\
  total_nominal r = add (tg_balance r) (etf_balance r) /\
  balances r
  = sweep (target_in (Z.of_nat (S k)))
      (compound tg_rate etf_rate
         (allocate (target_in (Z.of_nat (S k))) (deposit_in (Z.of_nat (S k)))
            (balances_before l k))).
Proof.
  intros H Hk. unfold combo in H.
  pose proof H as H0. eapply combo_balances_before in H0; [| exact Hk].
  rewrite H0. clear H0.
  apply combo_run in H. destruct H as (_ & Hnth).
  destruct (Hnth k r Hk) as (v & _ & ->).
  unfold combo_snapshot, balances. cbn [year deposit total_nominal tg_balance etf_balance].
  repeat split.
  rewrite <- surjective_pairing. reflexivity.
Qed.

(** C1. In [simulate_combo], in the year [k + 1] of a run, starting from
    the balances [tg0] and [etf0] the year before ended with: when [tg0] is
    strictly below the year's target and the deposit is positive,
    [min(deposit, target - tg0)] is added to the savings account and the
    rest of the deposit to the ETF; when [tg0] meets or exceeds the target,
    the whole deposit is added to the ETF.  The year's target is
    [tg_target_first] up to the year [years_first_target] and
    [tg_target_after] later.  The snapshot shows these balances after
    compounding and sweep. *)
Theorem combo_allocation_rule (l : list (YearResult F)) (k : nat) (r : YearResult F) :
  combo = Ok l -> nth_error l k = Some r ->
  let y := Z.of_nat (S k) in
  let target :=
    if (y <=? years_first_target)%Z then tg_target_first else tg_target_after in
  let dep := deposit r in
  let tg0 := fst (balances_before l k) in
  let etf0 := snd (balances_before l k) in
  year r = y /\
  dep = (if (y <=? deposit_years)%Z then annual_deposit else zero) /\
  exists tg1 etf1 : F,
    balances r = sweep target (compound tg_rate etf_rate (tg1, etf1)) /\
    (ltb tg0 target = true -> ltb zero dep = true ->
       tg1 = add tg0 (py_min dep (sub target tg0)) /\
       etf1 = add etf0 (sub dep (py_min dep (sub target tg0)))) /\
    (leb target tg0 = true -> tg1 = tg0 /\ etf1 = add etf0 dep).
Proof.
  intros H Hk y target dep tg0 etf0.
  destruct (combo_snapshot_step l k r H Hk) as (Hy & Hd & _ & Hb).
  fold y in Hy, Hd, Hb.
  change (target_in y) with target in Hb.
  assert (Hdep : dep = deposit_in y) by exact Hd.
  rewrite <- Hdep in Hb.
  split; [exact Hy |]. split; [exact Hdep |].
  rewrite (surjective_pairing (balances_before l k)) in Hb.
  fold tg0 etf0 in Hb.
  exists (fst (allocate target dep (tg0, etf0))), (snd (allocate target dep (tg0, etf0))).
  rewrite <- surjective_pairing. split; [exact Hb |].
  unfold allocate. split.
  - intros -> ->. simpl. split; reflexivity.
  - intros Hge. rewrite (leb_not_ltb _ _ Hge). simpl. split; reflexivity.
Qed.

(** C2. In [simulate_combo], with [tg2] and [etf2] the balances of the year
    after allocation and compounding: when [tg2] strictly exceeds the
    year's target, the snapshot has the savings account at exactly the
    target and the ETF at [etf2 + (tg2 - target)].  In the first year of the
    second phase the target is [tg_target_after], so what the savings
    account holds above it is swept in that year. *)
Theorem combo_sweep_rule (l : list (YearResult F)) (k : nat) (r : YearResult F) :
  combo = Ok l -> nth_error l k = Some r ->
  let y := Z.of_nat (S k) in
  let target :=
    if (y <=? years_first_target)%Z then tg_target_first else tg_target_after in
  exists tg2 etf2 : F,
    (tg2, etf2) = compound tg_rate etf_rate (allocate target (deposit r) (balances_before l k)) /\
    (ltb target tg2 = true ->
       tg_balance r = target /\ etf_balance r = add etf2 (sub tg2 target)) /\
    (ltb target tg2 = false -> tg_balance r = tg2 /\ etf_balance r = etf2) /\
    (y = (years_first_target + 1)%Z -> ltb tg_target_after tg2 = true ->
       tg_balance r = tg_target_after /\
       etf_balance r = add etf2 (sub tg2 tg_target_after)).
Proof.
  intros H Hk y target.
  destruct (combo_snapshot_step l k r H Hk) as (Hy & Hd & _ & Hb).
  fold y in Hy, Hd, Hb.
  change (target_in y) with target in Hb. rewrite <- Hd in Hb.
  destruct (compound tg_rate etf_rate (allocate target (deposit r) (balances_before l k)))
    as [tg2 etf2] eqn:E.
  exists tg2, etf2. split; [reflexivity |].
  unfold sweep, balances in Hb.
  assert (Hsw : ltb target tg2 = true ->
                tg_balance r = target /\ etf_balance r = add etf2 (sub tg2 target)).
  { intros Hgt. rewrite Hgt in Hb. now injection Hb as -> ->. }
  split; [exact Hsw |]. split.
  - intros Hle. rewrite Hle in Hb. now injection Hb as -> ->.
  - intros Hfirst Hgt.
    assert (Ht : target = tg_target_after).
    { unfold target. destruct (y <=? years_first_target)%Z eqn:Ey; [lia | reflexivity]. }
    rewrite Ht in Hsw. exact (Hsw Hgt).
Qed.

Lemma real_value_ok (nominal i v : F) (y : Z) :
  real_value nominal i y = Ok v <->
  exists p, pow (add one i) y = Ok p /\ div nominal p = Ok v.
Proof.
  unfold real_value. destruct (pow (add one i) y) as [p | e]; simpl; split.
  - intros H. now exists p.
  - now intros (p' & [= <-] & H).
  - discriminate.
  - now intros (p' & [=] & _).
Qed.

(** A snapshot of any of the three simulations: its year, and how its
    fields come from the balances the simulation had reached. *)
Lemma snapshot_shape (l : list (YearResult F)) (r : YearResult F) :
  tagesgeld = Ok l \/ etf = Ok l \/ combo = Ok l -> In r l ->
  real_value (total_nominal r) inflation_rate (year r) = Ok (total_real r) /\
  ((total_nominal r = tg_balance r /\ etf_balance r = zero) \/
   (total_nominal r = etf_balance r /\ tg_balance r = zero) \/
   total_nominal r = add (tg_balance r) (etf_balance r)).
Proof.
  intros H Hin. apply In_nth_error in Hin. destruct Hin as (k & Hk).
  destruct H as [H | [H | H]].
  - apply tagesgeld_run in H. destruct H as (_ & Hnth).
    destruct (Hnth k r Hk) as (v & Hv & ->). simpl. auto.
  - apply etf_run in H. destruct H as (_ & Hnth).
    destruct (Hnth k r Hk) as (v & Hv & ->). simpl. auto.
  - apply combo_run in H. destruct H as (_ & Hnth).
    destruct (Hnth k r Hk) as (v & Hv & ->). simpl. auto.
Qed.

(** C3. In every snapshot of each of the three simulations, on any inputs,
    [total_nominal] is the same value as [tg_balance + etf_balance]: equal
    by [same], which in binary64 is Python's [==] counted as holding between
    two NaN, and in exact arithmetic equality of rationals. *)
Theorem total_nominal_is_sum (l : list (YearResult F)) (r : YearResult F) :
  tagesgeld = Ok l \/ etf = Ok l \/ combo = Ok l -> In r l ->
  same (total_nominal r) (add (tg_balance r) (etf_balance r)) = true.
Proof.
  intros H Hin. destruct (snapshot_shape l r H Hin) as (_ & [(-> & ->) | [(-> & ->) | ->]]).
  - apply add_zero_r.
  - apply add_zero_l.
  - apply same_refl.
Qed.


(** C5, as the code has it.  When [real_value] is defined at each year of
    the run (the power and the division raise nothing), each of the three
    simulations returns a sequence of [deposit_years + growth_years]
    snapshots (none when that is not positive) whose [year] fields are
    [1, 2, ..., N] in order. *)
Theorem simulations_return_every_year :
  (forall y x, (1 <= y <= deposit_years + growth_years)%Z ->
     exists v, real_value x inflation_rate y = Ok v) ->
  forall sim, In sim [tagesgeld; etf; combo] ->
    exists l, sim = Ok l /\
      length l = Z.to_nat (deposit_years + growth_years) /\
      map (@year F) l = map Z.of_nat (seq 1 (Z.to_nat (deposit_years + growth_years))).
Proof.
  intros Hdef sim [<- | [<- | [<- | []]]].
  - unfold tagesgeld, simulate_tagesgeld. cbv zeta.
    destruct (run_defined (pure_step deposit_years annual_deposit tg_rate)
                (tagesgeld_snapshot deposit_years annual_deposit) (fun b => b)
                inflation_rate zero (deposit_years + growth_years)%Z Hdef) as (l & Hl).
    exists l. rewrite tagesgeld_loop_eq. split; [exact Hl |]. split.
    + now apply run_spec in Hl.
    + apply run_years in Hl; [exact Hl | reflexivity].
  - unfold etf, simulate_etf. cbv zeta.
    destruct (run_defined (pure_step deposit_years annual_deposit etf_rate)
                (etf_snapshot deposit_years annual_deposit) (fun b => b)
                inflation_rate zero (deposit_years + growth_years)%Z Hdef) as (l & Hl).
    exists l. rewrite etf_loop_eq. split; [exact Hl |]. split.
    + now apply run_spec in Hl.
    + apply run_years in Hl; [exact Hl | reflexivity].
  - unfold combo, simulate_combo. cbv zeta.
    destruct (run_defined
                (combo_year deposit_years annual_deposit tg_rate etf_rate
                   tg_target_first tg_target_after years_first_target)
                (combo_snapshot deposit_years annual_deposit) combo_nominal
                inflation_rate (zero, zero) (deposit_years + growth_years)%Z Hdef)
      as (l & Hl).
    exists l. rewrite combo_loop_eq. split; [exact Hl |]. split.
    + now apply run_spec in Hl.
    + apply run_years in Hl; [exact Hl | reflexivity].
Qed.

(** C6. In every snapshot of each simulation, [total_real] is
    [total_nominal / (1 + inflation_rate) ** year]; with a zero
    [inflation_rate], where one plus zero is one, [1 ** year] is one and
    a division by one is exact, [total_real] is [total_nominal]. *)
Theorem total_real_is_discounted (l : list (YearResult F)) (r : YearResult F) :
  tagesgeld = Ok l \/ etf = Ok l \/ combo = Ok l -> In r l ->
  (exists p, pow (add one inflation_rate) (year r) = Ok p /\
             div (total_nominal r) p = Ok (total_real r)) /\
  (UnitLaws F -> inflation_rate = zero -> total_real r = total_nominal r).
Proof.
  intros H Hin. destruct (snapshot_shape l r H Hin) as (Hv & _).
  split; [now apply real_value_ok |].
  intros U Hz. apply real_value_ok in Hv. destruct Hv as (p & Hp & Hd).
  rewrite Hz, one_plus_zero, pow_one in Hp. injection Hp as <-.
  rewrite div_one in Hd. now injection Hd.
Qed.

Lemma sweep_within_target (target : F) (b : F * F) :
  ltb target (fst (sweep target b)) = false.
Proof.
  destruct b as [tg e]. unfold sweep.
  destruct (ltb target tg) eqn:E; simpl; [apply ltb_irrefl | exact E].
Qed.

(** C10. In every snapshot of [simulate_combo], on any inputs, [tg_balance]
    does not exceed the target of the snapshot's year; where the order is
    total, it is less than or equal to it. *)
Theorem combo_tg_within_target (l : list (YearResult F)) (r : YearResult F) :
  combo = Ok l -> In r l ->
  let target :=
    if (year r <=? years_first_target)%Z then tg_target_first else tg_target_after in
  ltb target (tg_balance r) = false /\
  (OrderTotal F -> leb (tg_balance r) target = true).
Proof.
  intros H Hin target.
  assert (Hgt : ltb target (tg_balance r) = false).
  { apply In_nth_error in Hin. destruct Hin as (k & Hk).
    apply combo_run in H. destruct H as (_ & Hnth).
    destruct (Hnth k r Hk) as (v & _ & Hr).
    subst r. unfold target. simpl. apply sweep_within_target. }
  split; [exact Hgt |].
  intros T. now apply ltb_false_leb.
Qed.

End Claims.

(** * Signs of the balances *)

Section SignClaims.

Context {F : Type} {A : Arith F} {L : ArithLaws F} {SL : SignLaws F}.
Variables (deposit_years growth_years : Z).
Variables (annual_deposit tg_rate etf_rate inflation_rate : F).
Variables (tg_target_first tg_target_after : F) (years_first_target : Z).
Hypothesis deposit_nonneg : leb zero annual_deposit = true.
Hypothesis tg_rate_nonneg : leb zero tg_rate = true.
Hypothesis etf_rate_nonneg : leb zero etf_rate = true.
Hypothesis first_nonneg : leb zero tg_target_first = true.
Hypothesis after_nonneg : leb zero tg_target_after = true.

Let not_neg (x : F) : Prop := ltb x zero = false.

Lemma zero_not_neg : not_neg zero.
Proof. apply ltb_irrefl. Qed.

Lemma deposit_not_neg (y : Z) : not_neg (deposit_of deposit_years annual_deposit y).
Proof.
  unfold deposit_of. destruct (y <=? deposit_years)%Z.
  - now apply leb_not_ltb.
  - apply zero_not_neg.
Qed.

Lemma target_not_neg (y : Z) :
  not_neg (target_of tg_target_first tg_target_after years_first_target y).
Proof.
  unfold target_of. destruct (y <=? years_first_target)%Z; now apply leb_not_ltb.
Qed.

Lemma growth_factor_not_neg (rate : F) : leb zero rate = true -> not_neg (add one rate).
Proof.
  intros H. apply add_not_neg; [apply one_not_neg | now apply leb_not_ltb].
Qed.

Lemma recurrence_not_neg (rate : F) (n : nat) :
  leb zero rate = true -> not_neg (recurrence deposit_years annual_deposit rate n).
Proof.
  intros Hr. induction n as [| n IH]; cbn [recurrence].
  - apply zero_not_neg.
  - apply mul_not_neg; [| now apply growth_factor_not_neg].
    apply add_not_neg; [exact IH |]. apply (deposit_not_neg (Z.of_nat (S n))).
Qed.

Lemma allocate_not_neg (target dep : F) (b : F * F) :
  not_neg target -> not_neg dep -> not_neg (fst b) -> not_neg (snd b) ->
  not_neg (fst (allocate target dep b)) /\ not_neg (snd (allocate target dep b)).
Proof.
  destruct b as [tg e]. cbn [fst snd]. intros Ht Hd Htg He. unfold allocate.
  destruct (ltb tg target) eqn:E1; cbn [andb].
  - destruct (ltb zero dep) eqn:E2.
    + assert (Hneeded : not_neg (sub target tg)) by now apply sub_lt_not_neg.
      unfold py_min. destruct (ltb (sub target tg) dep) eqn:E3; cbn [fst snd]; split.
      * now apply add_not_neg.
      * apply add_not_neg; [exact He |]. now apply sub_lt_not_neg.
      * now apply add_not_neg.
      * apply add_not_neg; [exact He |]. apply sub_diag_not_neg.
    + cbn [fst snd]. split; [exact Htg | now apply add_not_neg].
  - cbn [fst snd]. split; [exact Htg | now apply add_not_neg].
Qed.

Lemma compound_not_neg (b : F * F) :
  not_neg (fst b) -> not_neg (snd b) ->
  not_neg (fst (compound tg_rate etf_rate b)) /\ not_neg (snd (compound tg_rate etf_rate b)).
Proof.
  destruct b as [tg e]. cbn [fst snd compound]. intros Htg He.
  split; apply mul_not_neg; try assumption; now apply growth_factor_not_neg.
Qed.

Lemma sweep_not_neg (target : F) (b : F * F) :
  not_neg target -> not_neg (fst b) -> not_neg (snd b) ->
  not_neg (fst (sweep target b)) /\ not_neg (snd (sweep target b)).
Proof.
  destruct b as [tg e]. cbn [fst snd]. intros Ht Htg He. unfold sweep.
  destruct (ltb target tg) eqn:E; cbn [fst snd]; split; try assumption.
  apply add_not_neg; [exact He |]. now apply sub_lt_not_neg.
Qed.

Lemma combo_state_not_neg (n : nat) :
  let b := combo_state deposit_years annual_deposit tg_rate etf_rate
             tg_target_first tg_target_after years_first_target n in
  not_neg (fst b) /\ not_neg (snd b).
Proof.
  induction n as [| n (Hf & Hs)]; cbn zeta.
  - split; apply zero_not_neg.
  - unfold combo_state. cbn [state_after]. unfold combo_year.
    pose proof (target_not_neg (Z.of_nat (S n))) as Ht.
    pose proof (deposit_not_neg (Z.of_nat (S n))) as Hd.
    destruct (allocate_not_neg _ _ _ Ht Hd Hf Hs) as (H1 & H2).
    destruct (compound_not_neg _ H1 H2) as (H3 & H4).
    exact (sweep_not_neg _ _ Ht H3 H4).
Qed.

(** C8. With a non-negative deposit, non-negative rates and (for the
    combination) non-negative targets, neither [tg_balance] nor
    [etf_balance] is negative in any snapshot of any of the three
    simulations; where the order is total, both are greater than or equal to
    zero. *)
Theorem balances_never_negative (l : list (YearResult F)) (r : YearResult F) :
  simulate_tagesgeld deposit_years growth_years annual_deposit tg_rate inflation_rate = Ok l \/
  simulate_etf deposit_years growth_years annual_deposit etf_rate inflation_rate = Ok l \/
  simulate_combo deposit_years growth_years annual_deposit tg_rate etf_rate
    inflation_rate tg_target_first tg_target_after years_first_target = Ok l ->
  In r l ->
  (ltb (tg_balance r) zero = false /\ ltb (etf_balance r) zero = false) /\
  (OrderTotal F -> leb zero (tg_balance r) = true /\ leb zero (etf_balance r) = true).
Proof.
  intros H Hin.
  assert (Hnn : not_neg (tg_balance r) /\ not_neg (etf_balance r)).
  { apply In_nth_error in Hin. destruct Hin as (k & Hk).
    destruct H as [H | [H | H]].
    - apply tagesgeld_run in H. destruct H as (_ & Hnth).
      destruct (Hnth k r Hk) as (v & _ & ->).
      cbn [tg_balance etf_balance tagesgeld_snapshot].
      split; [now apply recurrence_not_neg | apply zero_not_neg].
    - apply etf_run in H. destruct H as (_ & Hnth).
      destruct (Hnth k r Hk) as (v & _ & ->).
      cbn [tg_balance etf_balance etf_snapshot].
      split; [apply zero_not_neg | now apply recurrence_not_neg].
    - apply combo_run in H. destruct H as (_ & Hnth).
      destruct (Hnth k r Hk) as (v & _ & ->).
      cbn [tg_balance etf_balance combo_snapshot].
      apply combo_state_not_neg. }
  split; [exact Hnn |].
  intros T. destruct Hnn as (H1 & H2). split; now apply ltb_false_leb.
Qed.

End SignClaims.

(** * Binary64: rounding is monotone

    The sum and the product of two floats are the exact sum and product,
    rounded to nearest.  Read on integers, rounding is monotone and leaves
    what a float can hold unchanged. *)

Module RoundingFacts.
Import SpecFloatFacts.
#[local] Open Scope Z_scope.

(** ** Shifting right, with the round and the sticky bit *)

Lemma iter_pos_nat {X : Type} (f : X -> X) (p : positive) (x : X) :
  iter_pos f p x = Nat.iter (Pos.to_nat p) f x.
Proof.
  revert x. induction p as [p IH | p IH |]; intros x; cbn [iter_pos].
  - rewrite !IH, Pos2Nat.inj_xI.
    replace (S (2 * Pos.to_nat p))%nat with (Pos.to_nat p + S (Pos.to_nat p))%nat by lia.
    rewrite Nat.iter_add. f_equal. rewrite Nat.iter_succ. apply Nat.iter_swap.
  - rewrite !IH, Pos2Nat.inj_xO.
    replace (2 * Pos.to_nat p)%nat with (Pos.to_nat p + Pos.to_nat p)%nat by lia.
    now rewrite Nat.iter_add.
  - reflexivity.
Qed.

Lemma shr_1_spec (m : Z) (r s : bool) :
  0 <= m ->
  shr_1 (Build_shr_record m r s) = Build_shr_record (m / 2) (Z.odd m) (r || s).
Proof.
  intros Hm. rewrite <- Z.div2_div. destruct m as [| p | p]; [reflexivity | | lia].
  destruct p; reflexivity.
Qed.

Lemma shr_iter (m : Z) (n : nat) :
  0 <= m ->
  Nat.iter (S n) shr_1 (Build_shr_record m false false)
  = Build_shr_record (m / 2 ^ Z.of_nat (S n)) (Z.odd (m / 2 ^ Z.of_nat n))
      (negb (m mod 2 ^ Z.of_nat n =? 0)).
Proof.
  intros Hm. induction n as [| n IH].
  - cbn [Nat.iter nat_rect]. rewrite shr_1_spec by exact Hm.
    change (2 ^ Z.of_nat 1) with 2. change (2 ^ Z.of_nat 0) with 1.
    now rewrite Z.div_1_r, Z.mod_1_r.
  - change (Nat.iter (S (S n)) shr_1 (Build_shr_record m false false))
      with (shr_1 (Nat.iter (S n) shr_1 (Build_shr_record m false false))).
    rewrite IH. clear IH.
    assert (Hp : 0 < 2 ^ Z.of_nat n) by (apply Z.pow_pos_nonneg; lia).
    assert (E : 2 ^ Z.of_nat (S n) = 2 ^ Z.of_nat n * 2)
      by (rewrite Nat2Z.inj_succ, Z.pow_succ_r by lia; lia).
    rewrite shr_1_spec by (apply Z.div_pos; [exact Hm | apply Z.pow_pos_nonneg; lia]).
    f_equal.
    + rewrite Z.div_div by lia.
      f_equal. rewrite (Nat2Z.inj_succ (S n)), Z.pow_succ_r by lia. lia.
    + rewrite E, Z.rem_mul_r by lia.
      set (a := m / 2 ^ Z.of_nat n).
      pose proof (Z.mod_pos_bound m (2 ^ Z.of_nat n) Hp) as Hb.
      set (t := m mod 2 ^ Z.of_nat n) in *.
      rewrite (Zmod_odd a).
      destruct (Z.odd a); cbn [orb].
      * symmetry. apply negb_true_iff, Z.eqb_neq. nia.
      * replace (t + 2 ^ Z.of_nat n * 0) with t by lia. reflexivity.
Qed.

(** One pass of [shr] followed by [round_nearest_even] is [rne_shift]. *)
Lemma round_shr (m : Z) (p : positive) :
  0 <= m ->
  let mrs := iter_pos shr_1 p (Build_shr_record m false false) in
  round_nearest_even (shr_m mrs) (loc_of_shr_record mrs) = rne_shift m (Zpos p).
Proof.
  intros Hm. cbv zeta. rewrite iter_pos_nat.
  destruct (Pos2Nat.is_succ p) as (n & Hn). rewrite Hn, shr_iter by exact Hm.
  assert (Hp : Zpos p = Z.of_nat n + 1) by lia.
  cbn [shr_m]. unfold rne_shift. rewrite Hp.
  replace (Z.of_nat (S n)) with (Z.of_nat n + 1) by lia.
  assert (Hpos : 0 < 2 ^ Z.of_nat n) by (apply Z.pow_pos_nonneg; lia).
  assert (E : 2 ^ (Z.of_nat n + 1) = 2 ^ Z.of_nat n * 2)
    by (rewrite Z.pow_add_r by lia; lia).
  rewrite E. rewrite Z.rem_mul_r by lia.
  set (a := m / 2 ^ Z.of_nat n).
  pose proof (Z.mod_pos_bound m (2 ^ Z.of_nat n) Hpos) as Hb.
  set (t := m mod 2 ^ Z.of_nat n) in *.
  rewrite (Zmod_odd a).
  destruct (Z.odd a); cbn [loc_of_shr_record].
  - destruct (t =? 0) eqn:Et; cbn [negb round_nearest_even].
    + apply Z.eqb_eq in Et. rewrite Et.
      replace (2 * (0 + 2 ^ Z.of_nat n * 1) ?= 2 ^ Z.of_nat n * 2) with Eq
        by (symmetry; apply Z.compare_eq_iff; lia).
      reflexivity.
    + apply Z.eqb_neq in Et.
      replace (2 * (t + 2 ^ Z.of_nat n * 1) ?= 2 ^ Z.of_nat n * 2) with Gt
        by (symmetry; apply Z.compare_gt_iff; lia).
      reflexivity.
  - replace (2 * (t + 2 ^ Z.of_nat n * 0) ?= 2 ^ Z.of_nat n * 2) with Lt
      by (symmetry; apply Z.compare_lt_iff; lia).
    destruct (t =? 0); reflexivity.
Qed.


(** ** Powers of two and binary digits *)

Lemma pow2_pos (k : Z) : 0 <= k -> 0 < 2 ^ k.
Proof. intros H. apply Z.pow_pos_nonneg; lia. Qed.

Lemma pow2_add (a b : Z) : 0 <= a -> 0 <= b -> 2 ^ (a + b) = 2 ^ a * 2 ^ b.
Proof. intros Ha Hb. now apply Z.pow_add_r. Qed.

Lemma pow2_le (a b : Z) : 0 <= a <= b -> 2 ^ a <= 2 ^ b.
Proof. intros H. apply Z.pow_le_mono_r; lia. Qed.

Lemma pow2_lt (a b : Z) : 0 <= a < b -> 2 ^ a < 2 ^ b.
Proof. intros H. apply Z.pow_lt_mono_r; lia. Qed.

Lemma pow2_split (a b : Z) : 0 <= a <= b -> 2 ^ b = 2 ^ (b - a) * 2 ^ a.
Proof.
  intros H. rewrite <- pow2_add by lia. f_equal. lia.
Qed.

Lemma digits_pos (n : Z) : 0 < n -> 0 < Zdigits2 n.
Proof. destruct n; simpl; lia. Qed.

Lemma digits_bounds (n : Z) :
  0 < n -> 2 ^ (Zdigits2 n - 1) <= n < 2 ^ Zdigits2 n.
Proof.
  intros H. destruct n as [| p | p]; try lia. apply digits2_pos_bounds.
Qed.

Lemma digits_unique (n d : Z) :
  0 < n -> 2 ^ (d - 1) <= n < 2 ^ d -> Zdigits2 n = d.
Proof.
  intros Hn (Hlo & Hhi).
  pose proof (digits_bounds n Hn) as (Hlo' & Hhi').
  pose proof (digits_pos n Hn) as Hd.
  assert (Hd0 : 0 < d).
  { destruct (Z_lt_le_dec 0 d) as [H | H]; [exact H |].
    exfalso. destruct (Z.eq_dec d 0) as [-> | Hne].
    - simpl in Hhi. lia.
    - rewrite (Z.pow_neg_r 2 d) in Hhi by lia. lia. }
  destruct (Z.lt_trichotomy (Zdigits2 n) d) as [Hlt | [Heq | Hgt]]; [| exact Heq |].
  - exfalso. assert (2 ^ Zdigits2 n <= 2 ^ (d - 1)) by (apply pow2_le; lia). lia.
  - exfalso. assert (2 ^ d <= 2 ^ (Zdigits2 n - 1)) by (apply pow2_le; lia). lia.
Qed.

Lemma digits_mono (n1 n2 : Z) : 0 <= n1 <= n2 -> Zdigits2 n1 <= Zdigits2 n2.
Proof.
  intros (H1 & H2).
  destruct (Z.eq_dec n1 0) as [-> | Hne].
  - destruct n2; simpl; lia.
  - pose proof (digits_bounds n1 ltac:(lia)) as (Hlo1 & Hhi1).
    pose proof (digits_bounds n2 ltac:(lia)) as (Hlo2 & Hhi2).
    pose proof (digits_pos n1 ltac:(lia)) as Hd1.
    destruct (Z_lt_le_dec (Zdigits2 n2) (Zdigits2 n1)) as [Hlt | Hle]; [| exact Hle].
    exfalso.
    assert (2 ^ Zdigits2 n2 <= 2 ^ (Zdigits2 n1 - 1)).
    { pose proof (digits_pos n2 ltac:(lia)). apply pow2_le. lia. }
    lia.
Qed.

Lemma digits_shift (n j : Z) : 0 < n -> 0 <= j -> Zdigits2 (n * 2 ^ j) = Zdigits2 n + j.
Proof.
  intros Hn Hj.
  pose proof (digits_bounds n Hn) as (Hlo & Hhi).
  pose proof (digits_pos n Hn) as Hd.
  pose proof (pow2_pos j Hj) as Hp.
  apply digits_unique; [nia |].
  replace (Zdigits2 n + j - 1) with ((Zdigits2 n - 1) + j) by lia.
  rewrite !pow2_add by lia. nia.
Qed.

(** ** Rounding to nearest on integers *)

Lemma rne_shift_0 (m : Z) : rne_shift m 0 = m.
Proof.
  unfold rne_shift. change (2 ^ 0) with 1. rewrite Z.mod_1_r, Z.div_1_r. reflexivity.
Qed.

Lemma rne_bounds (m k : Z) :
  0 <= k -> m / 2 ^ k <= rne_shift m k <= m / 2 ^ k + 1.
Proof.
  intros Hk. unfold rne_shift.
  destruct (2 * (m mod 2 ^ k) ?= 2 ^ k); [destruct (Z.even _) | |]; lia.
Qed.

Lemma rne_exact (q k : Z) : 0 <= k -> rne_shift (q * 2 ^ k) k = q.
Proof.
  intros Hk. pose proof (pow2_pos k Hk) as Hp. unfold rne_shift.
  rewrite Z.mod_mul, Z.div_mul by lia.
  replace (2 * 0 ?= 2 ^ k) with Lt by (symmetry; apply Z.compare_lt_iff; lia).
  reflexivity.
Qed.

Lemma rne_scale (m j k : Z) :
  0 <= j -> 0 <= k -> rne_shift (m * 2 ^ j) (k + j) = rne_shift m k.
Proof.
  intros Hj Hk.
  pose proof (pow2_pos j Hj) as Hpj. pose proof (pow2_pos k Hk) as Hpk.
  unfold rne_shift. rewrite pow2_add by lia.
  rewrite Z.div_mul_cancel_r, Z.mul_mod_distr_r by lia.
  replace (2 * (m mod 2 ^ k * 2 ^ j) ?= 2 ^ k * 2 ^ j)
    with (2 * (m mod 2 ^ k) ?= 2 ^ k); [reflexivity |].
  destruct (Z.compare_spec (2 * (m mod 2 ^ k)) (2 ^ k)) as [E | E | E]; symmetry.
  - apply Z.compare_eq_iff. nia.
  - apply Z.compare_lt_iff. nia.
  - apply Z.compare_gt_iff. nia.
Qed.

Lemma rne_mono (m1 m2 k : Z) :
  0 <= k -> m1 <= m2 -> rne_shift m1 k <= rne_shift m2 k.
Proof.
  intros Hk H. pose proof (pow2_pos k Hk) as Hp.
  pose proof (Z.div_le_mono m1 m2 (2 ^ k) Hp H) as Hq.
  destruct (Z.eq_dec (m1 / 2 ^ k) (m2 / 2 ^ k)) as [E | E].
  - pose proof (Z.div_mod m1 (2 ^ k) ltac:(lia)) as D1.
    pose proof (Z.div_mod m2 (2 ^ k) ltac:(lia)) as D2.
    assert (Hr : m1 mod 2 ^ k <= m2 mod 2 ^ k) by (rewrite E in D1; nia).
    unfold rne_shift. rewrite E.
    destruct (Z.compare_spec (2 * (m1 mod 2 ^ k)) (2 ^ k)),
             (Z.compare_spec (2 * (m2 mod 2 ^ k)) (2 ^ k));
      try destruct (Z.even _); lia.
  - pose proof (rne_bounds m1 k Hk). pose proof (rne_bounds m2 k Hk). lia.
Qed.

Lemma rne_nonneg (m k : Z) : 0 <= k -> 0 <= m -> 0 <= rne_shift m k.
Proof.
  intros Hk Hm. pose proof (rne_bounds m k Hk).
  pose proof (Z.div_pos m (2 ^ k) Hm (pow2_pos k Hk)). lia.
Qed.

(** Below [2 ^ d] before, at most [2 ^ (d - k)] after. *)
Lemma rne_upper (m k d : Z) :
  0 <= k <= d -> 0 <= m < 2 ^ d -> rne_shift m k <= 2 ^ (d - k).
Proof.
  intros Hk Hm. pose proof (pow2_pos k ltac:(lia)) as Hp.
  pose proof (rne_bounds m k ltac:(lia)) as (_ & Hhi).
  rewrite (pow2_split k d) in Hm by lia.
  assert (m / 2 ^ k < 2 ^ (d - k)) by (apply Z.div_lt_upper_bound; lia).
  lia.
Qed.

(** Small against the shift: nothing is left. *)
Lemma rne_small (m k d : Z) :
  0 <= d < k -> 0 <= m < 2 ^ d -> rne_shift m k = 0.
Proof.
  intros Hk Hm. pose proof (pow2_pos k ltac:(lia)) as Hp.
  assert (H2 : 2 ^ k = 2 ^ (k - 1) * 2).
  { replace k with (k - 1 + 1) at 1 by lia. rewrite pow2_add by lia. reflexivity. }
  assert (Hle : 2 ^ d <= 2 ^ (k - 1)) by (apply pow2_le; lia).
  unfold rne_shift. rewrite Z.mod_small, Z.div_small by lia.
  replace (2 * m ?= 2 ^ k) with Lt by (symmetry; apply Z.compare_lt_iff; lia).
  reflexivity.
Qed.

Lemma rne_lower (m k d : Z) :
  0 <= k <= d -> 2 ^ d <= m -> 2 ^ (d - k) <= rne_shift m k.
Proof.
  intros Hk Hm. pose proof (pow2_pos k ltac:(lia)) as Hp.
  pose proof (rne_bounds m k ltac:(lia)) as (Hlo & _).
  rewrite (pow2_split k d) in Hm by lia.
  assert (2 ^ (d - k) <= m / 2 ^ k) by (apply Z.div_le_lower_bound; lia).
  lia.
Qed.
(** ** Rounding to 53 digits *)

Lemma round53_0 (u : Z) : 0 <= u -> round53 u 0 = 0.
Proof.
  intros Hu. unfold round53. cbn [Zdigits2].
  unfold rne_shift. rewrite Z.mod_0_l, Z.div_0_l by (pose proof (pow2_pos (Z.max (0 - 53) u)); lia).
  pose proof (pow2_pos (Z.max (0 - 53) u) ltac:(lia)).
  replace (2 * 0 ?= 2 ^ Z.max (0 - 53) u) with Lt by (symmetry; apply Z.compare_lt_iff; lia).
  reflexivity.
Qed.

Lemma round53_nonneg (u n : Z) : 0 <= u -> 0 <= n -> 0 <= round53 u n.
Proof.
  intros Hu Hn. unfold round53.
  apply Z.mul_nonneg_nonneg.
  - apply rne_nonneg; lia.
  - apply Z.pow_nonneg. lia.
Qed.

(** Rounding is monotone. *)
Lemma round53_mono (u n1 n2 : Z) :
  0 <= u -> 0 <= n1 <= n2 -> round53 u n1 <= round53 u n2.
Proof.
  intros Hu (H1 & H2).
  destruct (Z.eq_dec n1 0) as [-> | Hne].
  { rewrite round53_0 by exact Hu. apply round53_nonneg; lia. }
  assert (Hp1 : 0 < n1) by lia. assert (Hp2 : 0 < n2) by lia.
  pose proof (digits_mono n1 n2 ltac:(lia)) as Hd.
  pose proof (digits_bounds n1 Hp1) as (Hlo1 & Hhi1).
  pose proof (digits_bounds n2 Hp2) as (Hlo2 & Hhi2).
  pose proof (digits_pos n1 Hp1) as Hd1.
  unfold round53.
  set (d1 := Zdigits2 n1) in *. set (d2 := Zdigits2 n2) in *.
  set (k1 := Z.max (d1 - 53) u). set (k2 := Z.max (d2 - 53) u).
  destruct (Z.eq_dec k1 k2) as [E | E].
  - rewrite E. apply Z.mul_le_mono_nonneg_r.
    + apply Z.pow_nonneg. lia.
    + apply rne_mono; lia.
  - assert (Hk : k1 < k2 /\ k2 = d2 - 53 /\ d1 < d2) by lia.
    destruct Hk as (Hk & Hk2 & Hdd).
    apply Z.le_trans with (2 ^ (d2 - 1 - u)).
    + destruct (Z_le_gt_dec k1 d1) as [Hle | Hgt].
      * pose proof (rne_upper n1 k1 d1 ltac:(lia) ltac:(lia)) as Hup.
        apply Z.le_trans with (2 ^ (d1 - k1) * 2 ^ (k1 - u)).
        -- apply Z.mul_le_mono_nonneg_r; [apply Z.pow_nonneg; lia | exact Hup].
        -- rewrite <- pow2_add by lia. apply pow2_le. lia.
      * rewrite (rne_small n1 k1 d1) by lia. simpl. apply Z.pow_nonneg. lia.
    + pose proof (rne_lower n2 k2 (d2 - 1) ltac:(lia) Hlo2) as Hlow.
      apply Z.le_trans with (2 ^ (d2 - 1 - k2) * 2 ^ (k2 - u)).
      * rewrite <- pow2_add by lia. apply pow2_le. lia.
      * apply Z.mul_le_mono_nonneg_r; [apply Z.pow_nonneg; lia | exact Hlow].
Qed.

(** Rounding leaves what fits unchanged. *)
Lemma round53_fits (u n : Z) : 0 <= u -> fits53 n -> round53 u (n * 2 ^ u) = n.
Proof.
  intros Hu [-> | (m & j & Hm & Hj & ->)].
  - rewrite Z.mul_0_l. now apply round53_0.
  - unfold round53.
    rewrite <- Z.mul_assoc, <- pow2_add by lia.
    rewrite digits_shift by lia.
    assert (Hd : Zdigits2 m <= 53).
    { destruct (Z_le_gt_dec (Zdigits2 m) 53) as [H | H]; [exact H |].
      exfalso. pose proof (digits_bounds m ltac:(lia)) as (Hlo & _).
      assert (2 ^ 53 <= 2 ^ (Zdigits2 m - 1)) by (apply pow2_le; lia). lia. }
    pose proof (digits_pos m ltac:(lia)) as Hd0.
    set (k := Z.max (Zdigits2 m + (j + u) - 53) u).
    assert (Hk : u <= k <= j + u) by lia.
    replace (m * 2 ^ (j + u)) with (m * 2 ^ (j + u - k) * 2 ^ k).
    2:{ rewrite <- Z.mul_assoc, <- pow2_add by lia. do 2 f_equal. lia. }
    rewrite rne_exact by lia.
    rewrite <- Z.mul_assoc, <- pow2_add by lia. do 2 f_equal. lia.
Qed.

Lemma round53_fits_0 (n : Z) : fits53 n -> round53 0 n = n.
Proof.
  intros H. rewrite <- (round53_fits 0 n) at 2 by (lia || exact H).
  now rewrite Z.mul_1_r.
Qed.
(** ** Valid floats as integers *)

Lemma scaled_lt (M a b : Z) :
  0 <= a -> 0 <= b -> 0 <= M < 2 ^ b -> M * 2 ^ a < 2 ^ (b + a).
Proof.
  intros Ha Hb HM. rewrite pow2_add by lia.
  apply Z.mul_lt_mono_pos_r; [now apply pow2_pos | lia].
Qed.

Lemma scaled_le (M a b : Z) :
  0 <= a -> 0 <= b -> 2 ^ b <= M -> 2 ^ (b + a) <= M * 2 ^ a.
Proof.
  intros Ha Hb HM. rewrite pow2_add by lia.
  apply Z.mul_le_mono_nonneg_r; [apply Z.pow_nonneg; lia | lia].
Qed.

Lemma fexp_eq (x : Z) : fexp prec emax x = Z.max (x - 53) (-1074).
Proof. reflexivity. Qed.

Lemma valid_finite (m : positive) (e : Z) :
  SpecFloat.bounded prec emax m e = true ->
  Zpos m < 2 ^ 53 /\ (-1074 < e -> 2 ^ 52 <= Zpos m) /\ -1074 <= e <= 971.
Proof.
  intros H. pose proof (valid_mantissa m e H) as (H1 & H2 & H3).
  change (SpecFloat.emin prec emax) with (-1074) in *.
  unfold SpecFloat.bounded in H. apply andb_true_iff in H. destruct H as (_ & H).
  apply Z.leb_le in H. change (emax - prec) with 971 in H. lia.
Qed.

Lemma sf_val_finite (m : positive) (e : Z) :
  SpecFloat.bounded prec emax m e = true ->
  0 < Zpos m * 2 ^ (e + 1074) < 2 ^ 2098.
Proof.
  intros H. apply valid_finite in H. destruct H as (H1 & _ & H3).
  pose proof (pow2_pos (e + 1074) ltac:(lia)) as Hp.
  split; [apply Z.mul_pos_pos; lia |].
  apply Z.lt_le_trans with (2 ^ (53 + (e + 1074))).
  - apply scaled_lt; lia.
  - apply pow2_le. lia.
Qed.

Lemma inf_nonneg : 0 <= 2 ^ 2098.
Proof. apply Z.pow_nonneg. lia. Qed.

Lemma sf_val_nonneg (x : spec_float) : 0 <= sf_val x.
Proof.
  destruct x as [s | [] | | [] m e]; cbn [sf_val];
    try apply Z.le_refl; try apply inf_nonneg.
  apply Z.mul_nonneg_nonneg; [lia | apply Z.pow_nonneg; lia].
Qed.

Lemma sf_val_le_inf (x : spec_float) :
  SpecFloat.valid_binary prec emax x = true -> sf_val x <= 2 ^ 2098.
Proof.
  intros V. destruct x as [s | [] | | [] m e]; cbn [sf_val];
    try apply inf_nonneg; try apply Z.le_refl.
  simpl in V. apply sf_val_finite in V. apply Z.lt_le_incl, V.
Qed.

Lemma sf_val_fits (x : spec_float) :
  SpecFloat.valid_binary prec emax x = true -> fits53 (sf_val x).
Proof.
  intros V. destruct x as [s | [] | | [] m e]; cbn [sf_val]; try (now left).
  - right. exists 1, 2098. split; [split; reflexivity |]. split; [discriminate |].
    now rewrite Z.mul_1_l.
  - right. simpl in V. apply valid_finite in V. destruct V as (H1 & _ & H3).
    exists (Zpos m), (e + 1074). repeat split; lia.
Qed.

(** On valid floats that are not negative the order is that of the values. *)
Lemma sf_compare_val (x y : spec_float) :
  SpecFloat.valid_binary prec emax x = true -> SpecFloat.valid_binary prec emax y = true ->
  sf_good x = true -> sf_good y = true ->
  SFcompare x y = Some (sf_val x ?= sf_val y).
Proof.
  intros Vx Vy Gx Gy.
  destruct x as [sx | [] | | [] mx ex]; try discriminate;
    destruct y as [sy | [] | | [] my ey]; try discriminate;
    cbn [SFcompare sf_val]; f_equal.
  all: try (symmetry;
            first
              [ apply Z.compare_eq_iff; reflexivity
              | apply Z.compare_lt_iff;
                first [ apply (pow2_pos 2098); discriminate
                      | apply (sf_val_finite _ _ Vy)
                      | apply (sf_val_finite _ _ Vx) ]
              | apply Z.compare_gt_iff;
                first [ apply (pow2_pos 2098); discriminate
                      | apply (sf_val_finite _ _ Vy)
                      | apply (sf_val_finite _ _ Vx) ] ]; fail).
  simpl in Vx, Vy. apply valid_finite in Vx, Vy.
  destruct Vx as (Hx1 & Hx2 & Hx3), Vy as (Hy1 & Hy2 & Hy3).
  destruct (Z.compare_spec ex ey) as [E | E | E].
  + subst ey. pose proof (pow2_pos (ex + 1074) ltac:(lia)) as Hp.
    change (Pos.compare_cont Eq mx my) with (Zpos mx ?= Zpos my).
    destruct (Z.compare_spec (Zpos mx) (Zpos my)) as [E | E | E]; symmetry.
    * apply Z.compare_eq_iff. now rewrite E.
    * apply Z.compare_lt_iff. nia.
    * apply Z.compare_gt_iff. nia.
  + symmetry. apply Z.compare_lt_iff.
    apply Z.lt_le_trans with (2 ^ (53 + (ex + 1074))).
    * apply scaled_lt; lia.
    * apply Z.le_trans with (2 ^ (52 + (ey + 1074))).
      -- apply pow2_le. lia.
      -- apply scaled_le; [lia | lia |]. apply Hy2. lia.
  + symmetry. apply Z.compare_gt_iff.
    apply Z.lt_le_trans with (2 ^ (53 + (ey + 1074))).
    * apply scaled_lt; lia.
    * apply Z.le_trans with (2 ^ (52 + (ex + 1074))).
      -- apply pow2_le. lia.
      -- apply scaled_le; [lia | lia |]. apply Hx2. lia.
Qed.
(** ** What [binary_round_aux] returns *)

Lemma shr_fexp_none (m e : Z) :
  fexp prec emax (Zdigits2 m + e) = e ->
  shr_fexp prec emax m e loc_Exact = (Build_shr_record m false false, e).
Proof.
  intros H. unfold shr_fexp. rewrite H, Z.sub_diag. reflexivity.
Qed.

Lemma digits_le_53 (M : Z) : 0 < M < 2 ^ 53 -> Zdigits2 M <= 53.
Proof.
  intros HM.
  destruct (Z_le_gt_dec (Zdigits2 M) 53) as [H | H]; [exact H |].
  exfalso. pose proof (digits_bounds M ltac:(lia)) as (Hlo & _).
  assert (2 ^ 53 <= 2 ^ (Zdigits2 M - 1)) by (apply pow2_le; lia). lia.
Qed.

(** The result once the mantissa is rounded: it has at most 53 digits, or
    is [2 ^ 53] and loses one more digit. *)
Lemma finish_val (M E : Z) :
  -1074 <= E ->
  0 <= M <= 2 ^ 53 ->
  (-1074 < E -> 2 ^ 52 <= M) ->
  let '(mrs, e') := shr_fexp prec emax M E loc_Exact in
  sf_val (match shr_m mrs with
          | Z0 => S754_zero false
          | Zpos m => if e' <=? emax - prec then S754_finite false m e'
                      else S754_infinity false
          | Zneg _ => S754_nan
          end)
  = Z.min (M * 2 ^ (E + 1074)) (2 ^ 2098).
Proof.
  intros HE HM Hnorm.
  destruct (Z.eq_dec M 0) as [-> | Hne].
  { rewrite shr_fexp_none by (rewrite fexp_eq; cbn [Zdigits2]; lia).
    cbn [shr_m sf_val]. rewrite Z.mul_0_l. symmetry. apply Z.min_l.
    apply Z.pow_nonneg. lia. }
  destruct (Z.eq_dec M (2 ^ 53)) as [-> | Hne53].
  { unfold shr_fexp. rewrite fexp_eq.
    change (Zdigits2 (2 ^ 53)) with 54.
    replace (Z.max (54 + E - 53) (-1074) - E) with 1 by lia.
    cbn [shr_record_of_loc shr iter_pos]. change (shr_m (shr_1 _)) with (2 ^ 52).
    change (2 ^ 52) with (Zpos 4503599627370496) at 1. cbv iota.
    change (emax - prec) with 971.
    assert (Eq1 : 2 ^ 52 * 2 ^ (E + 1 + 1074) = 2 ^ 53 * 2 ^ (E + 1074)).
    { rewrite <- !pow2_add by lia. f_equal. lia. }
    assert (Eq2 : 2 ^ 53 * 2 ^ (E + 1074) = 2 ^ (E + 1127)).
    { rewrite <- !pow2_add by lia. f_equal. lia. }
    destruct (Z.leb_spec (E + 1) 971) as [H | H]; cbn [sf_val].
    - change (Zpos 4503599627370496) with (2 ^ 52). rewrite Eq1, Eq2.
      symmetry. apply Z.min_l. apply pow2_le. lia.
    - rewrite Eq2. symmetry. apply Z.min_r. apply pow2_le. lia. }
  assert (HM' : 0 < M < 2 ^ 53) by lia.
  pose proof (digits_le_53 M HM') as Hd.
  assert (Hd' : -1074 < E -> Zdigits2 M = 53).
  { intros H. apply digits_unique; [lia |]. change (2 ^ (53 - 1)) with (2 ^ 52).
    specialize (Hnorm H). lia. }
  pose proof (digits_pos M ltac:(lia)) as Hd0.
  rewrite shr_fexp_none by (rewrite fexp_eq; lia).
  cbn [shr_m]. destruct M as [| m | m]; try lia.
  change (emax - prec) with 971.
  destruct (Z.leb_spec E 971) as [H | H]; cbn [sf_val].
  - symmetry. apply Z.min_l. apply Z.lt_le_incl.
    apply Z.lt_le_trans with (2 ^ (53 + (E + 1074))).
    + apply scaled_lt; lia.
    + apply pow2_le. lia.
  - symmetry. apply Z.min_r.
    apply Z.le_trans with (2 ^ (52 + (E + 1074))).
    + apply pow2_le. lia.
    + apply scaled_le; [lia | lia |]. apply Hnorm. lia.
Qed.

Lemma bra_val (m : positive) (e : Z) :
  let E := fexp prec emax (Zpos (digits2_pos m) + e) in
  e <= E ->
  sf_val (binary_round_aux prec emax false (Zpos m) e loc_Exact)
  = Z.min (rne_shift (Zpos m) (E - e) * 2 ^ (E + 1074)) (2 ^ 2098).
Proof.
  cbv zeta. rewrite fexp_eq.
  pose proof (digits2_pos_bounds m) as (Hlo & Hhi).
  set (d := Zpos (digits2_pos m)) in *.
  assert (Hd0 : 0 < d) by (unfold d; lia).
  set (E := Z.max (d + e - 53) (-1074)). intros HeE.
  assert (Hfin : forall M : Z,
            0 <= M <= 2 ^ 53 -> (-1074 < E -> 2 ^ 52 <= M) ->
            sf_val (let '(mrs'', e'') := shr_fexp prec emax M E loc_Exact in
                    match shr_m mrs'' with
                    | Z0 => S754_zero false
                    | Zpos m0 => if e'' <=? emax - prec then S754_finite false m0 e''
                                 else S754_infinity false
                    | Zneg _ => S754_nan
                    end)
            = Z.min (M * 2 ^ (E + 1074)) (2 ^ 2098)).
  { intros M HM Hn. pose proof (finish_val M E ltac:(lia) HM Hn) as H.
    destruct (shr_fexp prec emax M E loc_Exact) as [mrs'' e'']. exact H. }
  unfold binary_round_aux.
  destruct (Z.eq_dec E e) as [Ee | Ee].
  - rewrite shr_fexp_none by (rewrite fexp_eq; cbn [Zdigits2]; fold d; fold E; exact Ee).
    cbn [shr_m loc_of_shr_record round_nearest_even].
    rewrite Ee, Z.sub_diag, rne_shift_0. rewrite <- Ee.
    apply Hfin.
    + assert (d <= 53) by lia.
      assert (2 ^ d <= 2 ^ 53) by (apply pow2_le; lia). lia.
    + intros H. assert (Hd : d = 53) by lia. rewrite Hd in Hlo. exact Hlo.
  - assert (Hk : 0 < E - e) by lia.
    destruct (E - e) as [| p | p] eqn:Ek; try lia.
    unfold shr_fexp at 1. rewrite fexp_eq. cbn [Zdigits2 shr_record_of_loc].
    fold d. fold E. rewrite Ek. cbn [shr].
    rewrite (round_shr (Zpos m) p) by lia.
    replace (e + Zpos p) with E by lia.
    apply Hfin.
    + split; [apply rne_nonneg; lia |].
      destruct (Z_le_gt_dec (Zpos p) d) as [Hle | Hgt].
      * apply Z.le_trans with (2 ^ (d - Zpos p)).
        -- apply rne_upper; lia.
        -- apply pow2_le. lia.
      * rewrite (rne_small (Zpos m) (Zpos p) d) by lia. apply Z.pow_nonneg. lia.
    + intros H. assert (Hd : Zpos p = d - 53) by lia.
      replace (2 ^ 52) with (2 ^ (d - 1 - Zpos p)) by (f_equal; lia).
      apply rne_lower; lia.
Qed.

Lemma round53_of_shift (m : positive) (e u : Z) :
  let E := fexp prec emax (Zpos (digits2_pos m) + e) in
  0 <= u -> 0 <= e + 1074 + u -> e <= E ->
  round53 u (Zpos m * 2 ^ (e + 1074 + u)) = rne_shift (Zpos m) (E - e) * 2 ^ (E + 1074).
Proof.
  cbv zeta. rewrite fexp_eq. intros Hu Hj HeE.
  unfold round53. rewrite digits_shift by lia. cbn [Zdigits2].
  set (d := Zpos (digits2_pos m)) in *.
  set (E := Z.max (d + e - 53) (-1074)) in *.
  replace (Z.max (d + (e + 1074 + u) - 53) u) with ((E - e) + (e + 1074 + u)) by lia.
  rewrite rne_scale by lia. do 2 f_equal. lia.
Qed.

Lemma bra_val53 (m : positive) (e u : Z) :
  0 <= u -> 0 <= e + 1074 + u ->
  e <= fexp prec emax (Zpos (digits2_pos m) + e) ->
  sf_val (binary_round_aux prec emax false (Zpos m) e loc_Exact)
  = Z.min (round53 u (Zpos m * 2 ^ (e + 1074 + u))) (2 ^ 2098).
Proof.
  intros Hu Hj HeE. rewrite (bra_val m e HeE).
  now rewrite (round53_of_shift m e u Hu Hj HeE).
Qed.

Lemma binary_round_val (m : positive) (e u : Z) :
  0 <= u -> 0 <= e + 1074 + u ->
  sf_val (binary_round prec emax false m e)
  = Z.min (round53 u (Zpos m * 2 ^ (e + 1074 + u))) (2 ^ 2098).
Proof.
  intros Hu Hj. unfold binary_round.
  set (E := fexp prec emax (Zpos (digits2_pos m) + e)).
  destruct (Z_le_gt_dec e E) as [Hle | Hgt].
  - assert (Hs : shl_align m e E = (m, e)).
    { unfold shl_align. destruct (E - e) eqn:Ed; try reflexivity. lia. }
    rewrite Hs. now apply bra_val53.
  - pose proof (shl_align_value m e E ltac:(lia)) as Hv.
    assert (Hs : snd (shl_align m e E) = E).
    { unfold shl_align. destruct (E - e) eqn:Ed; try lia. reflexivity. }
    destruct (shl_align m e E) as [mz ez]. cbn [fst snd] in Hv, Hs. subst ez.
    assert (HE : -1074 <= E) by (unfold E; rewrite fexp_eq; lia).
    assert (Hdz : Zpos (digits2_pos mz) = Zpos (digits2_pos m) + (e - E)).
    { change (Zpos (digits2_pos mz)) with (Zdigits2 (Zpos mz)). rewrite Hv.
      rewrite digits_shift by lia. reflexivity. }
    rewrite (bra_val53 mz E u Hu ltac:(lia)).
    + rewrite Hv. rewrite <- Z.mul_assoc, <- pow2_add by lia.
      replace (e - E + (E + 1074 + u)) with (e + 1074 + u) by lia. reflexivity.
    + rewrite Hdz. replace (Zpos (digits2_pos m) + (e - E) + E) with (Zpos (digits2_pos m) + e) by lia.
      fold E. lia.
Qed.
(** ** Sums and products of floats that are not negative *)

Lemma shr_1_nonneg (mrs : shr_record) : 0 <= shr_m mrs -> 0 <= shr_m (shr_1 mrs).
Proof.
  destruct mrs as [m r s]. cbn [shr_m]. intros H. rewrite shr_1_spec by exact H.
  cbn [shr_m]. apply Z.div_pos; lia.
Qed.

Lemma shr_fexp_nonneg (m e : Z) (l : location) :
  0 <= m -> 0 <= shr_m (fst (shr_fexp prec emax m e l)).
Proof.
  intros Hm. unfold shr_fexp, shr.
  assert (H0 : 0 <= shr_m (shr_record_of_loc m l)) by (destruct l as [| []]; exact Hm).
  destruct (fexp prec emax (Zdigits2 m + e) - e) as [| p | p]; cbn [fst]; try exact H0.
  rewrite iter_pos_nat. induction (Pos.to_nat p) as [| n IH]; [exact H0 |].
  cbn [Nat.iter nat_rect]. now apply shr_1_nonneg.
Qed.

Lemma round_nearest_even_nonneg (m : Z) (l : location) :
  0 <= m -> 0 <= round_nearest_even m l.
Proof.
  intros H. destruct l as [| []]; cbn [round_nearest_even]; try lia.
  destruct (Z.even m); lia.
Qed.

Lemma bra_good (m e : Z) (l : location) :
  0 <= m -> sf_good (binary_round_aux prec emax false m e l) = true.
Proof.
  intros Hm. unfold binary_round_aux.
  pose proof (shr_fexp_nonneg m e l Hm) as H1.
  destruct (shr_fexp prec emax m e l) as [mrs' e']. cbn [fst] in H1.
  pose proof (shr_fexp_nonneg _ e' loc_Exact
                (round_nearest_even_nonneg _ (loc_of_shr_record mrs') H1)) as H2.
  destruct (shr_fexp prec emax _ e' loc_Exact) as [mrs'' e'']. cbn [fst] in H2.
  destruct (shr_m mrs'') as [| p | p]; try reflexivity; [| lia].
  now destruct (e'' <=? emax - prec).
Qed.

Lemma binary_round_good (m : positive) (e : Z) :
  sf_good (binary_round prec emax false m e) = true.
Proof.
  unfold binary_round. destruct (shl_align m e _) as [mz ez]. apply bra_good. lia.
Qed.

(** At or above infinity rounding stays there. *)
Lemma round53_inf (u n : Z) :
  0 <= u -> 2 ^ 2098 * 2 ^ u <= n -> Z.min (round53 u n) (2 ^ 2098) = 2 ^ 2098.
Proof.
  intros Hu Hn. apply Z.min_r.
  rewrite <- (round53_fits u (2 ^ 2098)) at 1.
  - apply round53_mono; [exact Hu |]. split; [| exact Hn].
    apply Z.mul_nonneg_nonneg; apply Z.pow_nonneg; lia.
  - exact Hu.
  - right. exists 1, 2098. split; [split; reflexivity |]. split; [discriminate |].
    now rewrite Z.mul_1_l.
Qed.

Lemma round53_inf_0 (n : Z) :
  2 ^ 2098 <= n -> Z.min (round53 0 n) (2 ^ 2098) = 2 ^ 2098.
Proof.
  intros H. apply round53_inf; [lia |]. now rewrite Z.mul_1_r.
Qed.

(** What fits and is at most infinity is its own rounding. *)
Lemma round53_val (x : spec_float) :
  SpecFloat.valid_binary prec emax x = true ->
  Z.min (round53 0 (sf_val x)) (2 ^ 2098) = sf_val x.
Proof.
  intros V. rewrite round53_fits_0 by now apply sf_val_fits.
  apply Z.min_l. now apply sf_val_le_inf.
Qed.

(** The sum of two floats that are not negative: the sum of the values,
    rounded, or infinity. *)
Lemma sf_add_val (x y : spec_float) :
  SpecFloat.valid_binary prec emax x = true -> SpecFloat.valid_binary prec emax y = true ->
  sf_good x = true -> sf_good y = true ->
  sf_good (SFadd prec emax x y) = true /\
  sf_val (SFadd prec emax x y) = Z.min (round53 0 (sf_val x + sf_val y)) (2 ^ 2098).
Proof.
  intros Vx Vy Gx Gy.
  destruct x as [sx | [] | | [] mx ex]; try discriminate;
    destruct y as [sy | [] | | [] my ey]; try discriminate.
  - split; [now destruct sx, sy |].
    replace (sf_val (SFadd prec emax (S754_zero sx) (S754_zero sy))) with 0
      by now destruct sx, sy.
    cbn [sf_val]. rewrite round53_0 by lia. symmetry. apply Z.min_l, inf_nonneg.
  - split; [reflexivity |]. cbn [SFadd sf_val]. symmetry. now apply round53_inf_0.
  - split; [reflexivity |]. cbn [SFadd]. rewrite <- (round53_val _ Vy) at 1.
    cbn [sf_val]. now rewrite Z.add_0_l.
  - split; [reflexivity |]. cbn [SFadd sf_val]. symmetry. apply round53_inf_0. lia.
  - split; [reflexivity |]. cbn [SFadd sf_val]. symmetry. apply round53_inf_0.
    pose proof inf_nonneg. lia.
  - split; [reflexivity |]. cbn [SFadd]. symmetry.
    apply round53_inf_0. pose proof (sf_val_nonneg (S754_finite false my ey)).
    cbn [sf_val] in *. lia.
  - split; [reflexivity |]. cbn [SFadd]. rewrite <- (round53_val _ Vx) at 1.
    cbn [sf_val]. now rewrite Z.add_0_r.
  - split; [reflexivity |]. cbn [SFadd]. symmetry.
    apply round53_inf_0. pose proof (sf_val_nonneg (S754_finite false mx ex)).
    cbn [sf_val] in *. lia.
  - simpl in Vx, Vy. apply valid_finite in Vx, Vy.
    destruct Vx as (Hx1 & Hx2 & Hx3), Vy as (Hy1 & Hy2 & Hy3).
    cbn [SFadd cond_Zopp].
    set (ez := Z.min ex ey).
    pose proof (shl_align_value mx ex ez ltac:(lia)) as Ex.
    pose proof (shl_align_value my ey ez ltac:(lia)) as Ey.
    destruct (shl_align mx ex ez) as [mx' ex'], (shl_align my ey ez) as [my' ey'].
    cbn [fst] in *.
    change (Zpos mx' + Zpos my') with (Zpos (mx' + my')). cbn [binary_normalize].
    split; [apply binary_round_good |].
    rewrite (binary_round_val (mx' + my') ez 0) by lia.
    f_equal. f_equal. rewrite Pos2Z.inj_add, Ex, Ey, Z.add_0_r, Z.mul_add_distr_r.
    cbn [sf_val]. rewrite <- !Z.mul_assoc, <- !pow2_add by lia.
    f_equal; do 2 f_equal; lia.
Qed.

(** One, and what is at least one. *)
Lemma sf_val_one : sf_val sf_one = 2 ^ 1074.
Proof.
  unfold sf_one. cbn [sf_val].
  change 4503599627370496 with (2 ^ 52). rewrite <- pow2_add by lia. reflexivity.
Qed.

Lemma digits_product (mx mf : positive) :
  2 ^ 52 <= Zpos mf ->
  Zpos (digits2_pos mx) + 52 <= Zpos (digits2_pos (mx * mf)).
Proof.
  intros Hf. pose proof (digits2_pos_bounds mx) as (Hlo & _).
  set (d := Zpos (digits2_pos mx)) in *. assert (Hd : 0 < d) by (unfold d; lia).
  assert (Hp : 2 ^ (d - 1 + 52) <= Zpos (mx * mf)).
  { rewrite pow2_add by lia. rewrite Pos2Z.inj_mul.
    apply Z.mul_le_mono_nonneg; try lia; apply Z.pow_nonneg; lia. }
  assert (Hdg : Zdigits2 (2 ^ (d - 1 + 52)) = d + 52).
  { apply digits_unique.
    - apply pow2_pos. lia.
    - replace (d + 52 - 1) with (d - 1 + 52) by lia. split; [lia |].
      apply pow2_lt. lia. }
  pose proof (digits_mono (2 ^ (d - 1 + 52)) (Zpos (mx * mf))
                (conj (Z.pow_nonneg 2 _ ltac:(lia)) Hp)) as Hm.
  rewrite Hdg in Hm. exact Hm.
Qed.

(** Multiplying by a factor of at least one does not lower a float that is
    not negative. *)
Lemma sf_mul_grows (x f : spec_float) :
  SpecFloat.valid_binary prec emax x = true -> SpecFloat.valid_binary prec emax f = true ->
  sf_good x = true -> sf_good f = true ->
  2 ^ 1074 <= sf_val f ->
  SFmul prec emax x f <> S754_nan ->
  sf_good (SFmul prec emax x f) = true /\ sf_val x <= sf_val (SFmul prec emax x f).
Proof.
  intros Vx Vf Gx Gf Hone Hnan.
  assert (Hpos : 0 < 2 ^ 1074) by (apply pow2_pos; lia).
  destruct x as [sx | [] | | [] mx ex]; try discriminate;
    destruct f as [sf | [] | | [] mf ef]; try discriminate;
    cbn [sf_val] in Hone;
    try (exfalso; apply Z.le_ngt in Hone; apply Hone; exact Hpos);
    cbn [SFmul] in *; try congruence;
    try (split; [reflexivity |]; cbn [sf_val];
         first [apply Z.le_refl | apply inf_nonneg | apply (sf_val_le_inf _ Vx)]).
  cbn [xorb]. split; [apply bra_good; lia |].
  pose proof Vx as Vx'. pose proof Vf as Vf'.
  simpl in Vx', Vf'. apply valid_finite in Vx', Vf'.
  destruct Vx' as (Hx1 & Hx2 & Hx3), Vf' as (Hf1 & Hf2 & Hf3).
  assert (Hef : -1074 < ef).
  { destruct (Z.eq_dec ef (-1074)) as [-> | Hne]; [| lia].
    exfalso. change (-1074 + 1074) with 0 in Hone. change (2 ^ 0) with 1 in Hone.
    assert (2 ^ 53 <= 2 ^ 1074) by (apply pow2_le; lia). lia. }
  specialize (Hf2 Hef).
  pose proof (digits_product mx mf Hf2) as Hd.
  assert (Hd0 : 0 < Zpos (digits2_pos mx)) by lia.
  rewrite (bra_val53 (mx * mf) (ex + ef) 1074) by (try rewrite fexp_eq; lia).
  apply Z.min_glb; [| apply (sf_val_le_inf _ Vx)].
  rewrite <- (round53_fits 1074 (sf_val (S754_finite false mx ex)))
    by (lia || now apply sf_val_fits).
  apply round53_mono; [lia |]. cbn [sf_val].
  pose proof (pow2_pos (ex + 1074) ltac:(lia)) as Hpx.
  split.
  { apply Z.mul_nonneg_nonneg; [apply Z.mul_nonneg_nonneg |].
    - apply Pos2Z.is_nonneg.
    - apply Z.pow_nonneg. discriminate.
    - apply Z.pow_nonneg. discriminate. }
  replace (ex + ef + 1074 + 1074) with ((ex + 1074) + (ef + 1074)) by lia.
  rewrite (pow2_add (ex + 1074) (ef + 1074)) by lia. rewrite Pos2Z.inj_mul.
  replace (Zpos mx * Zpos mf * (2 ^ (ex + 1074) * 2 ^ (ef + 1074)))
    with (Zpos mx * 2 ^ (ex + 1074) * (Zpos mf * 2 ^ (ef + 1074))) by ring.
  apply Z.mul_le_mono_nonneg_l; [| exact Hone].
  apply Z.mul_nonneg_nonneg; lia.
Qed.

End RoundingFacts.

(** * Binary64: totals do not fall *)

Module Binary64Order.
Import SpecFloatFacts RoundingFacts.
#[local] Open Scope Z_scope.

Lemma good_leb (x : float) : PrimFloat.leb 0%float x = float_good x.
Proof.
  rewrite leb_spec, Binary64Laws.Prim2SF_zero. unfold float_good.
  destruct (Prim2SF x) as [[] | [] | | [] m e]; reflexivity.
Qed.

Lemma nn_cases (x : float) :
  PrimFloat.ltb x 0%float = false -> at_least 0 x.
Proof.
  intros H. apply Binary64Laws.not_neg_spec in H. unfold at_least, float_good, float_val.
  destruct (Prim2SF x) as [s | [] | | [] m e]; try discriminate;
    try (now left); right; split; try reflexivity; apply sf_val_nonneg.
Qed.

Lemma good_nn (x : float) : float_good x = true -> PrimFloat.ltb x 0%float = false.
Proof.
  intros H. apply Binary64Laws.not_neg_spec. unfold float_good in H.
  now destruct (Prim2SF x) as [s | [] | | [] m e].
Qed.

Lemma good_val_nonneg (x : float) : 0 <= float_val x.
Proof. apply sf_val_nonneg. Qed.

Lemma ltb_val (x y : float) :
  float_good x = true -> float_good y = true ->
  PrimFloat.ltb x y = (float_val x <? float_val y).
Proof.
  intros Gx Gy. rewrite ltb_spec. unfold SFltb.
  rewrite (sf_compare_val _ _ (Prim2SF_valid x) (Prim2SF_valid y) Gx Gy).
  unfold Z.ltb, float_val. now destruct (sf_val (Prim2SF x) ?= sf_val (Prim2SF y)).
Qed.

Lemma leb_val (x y : float) :
  float_good x = true -> float_good y = true ->
  PrimFloat.leb x y = (float_val x <=? float_val y).
Proof.
  intros Gx Gy. rewrite leb_spec. unfold SFleb.
  rewrite (sf_compare_val _ _ (Prim2SF_valid x) (Prim2SF_valid y) Gx Gy).
  unfold Z.leb, float_val. now destruct (sf_val (Prim2SF x) ?= sf_val (Prim2SF y)).
Qed.

Lemma is_nan_spec (x : float) :
  PrimFloat.is_nan x = true <-> Prim2SF x = S754_nan.
Proof.
  unfold PrimFloat.is_nan. rewrite eqb_spec. unfold SFeqb.
  destruct (Prim2SF x) as [s | s | | s m e] eqn:E.
  - simpl. split; discriminate.
  - destruct s; simpl; split; discriminate.
  - simpl. split; reflexivity.
  - rewrite SFcompare_refl by discriminate. simpl. split; discriminate.
Qed.

Lemma ltb_nan_l (x y : float) : Prim2SF x = S754_nan -> PrimFloat.ltb x y = false.
Proof. intros H. rewrite ltb_spec, H. reflexivity. Qed.

Lemma ltb_nan_r (x y : float) : Prim2SF y = S754_nan -> PrimFloat.ltb x y = false.
Proof.
  intros H. rewrite ltb_spec, H. unfold SFltb. now destruct (Prim2SF x).
Qed.

Lemma add_nan_l (x y : float) :
  Prim2SF x = S754_nan -> Prim2SF (PrimFloat.add x y) = S754_nan.
Proof. intros H. rewrite add_spec, H. reflexivity. Qed.

Lemma add_nan_r (x y : float) :
  Prim2SF y = S754_nan -> Prim2SF (PrimFloat.add x y) = S754_nan.
Proof. intros H. rewrite add_spec, H. unfold SF64add. now destruct (Prim2SF x). Qed.

Lemma mul_nan_l (x y : float) :
  Prim2SF x = S754_nan -> Prim2SF (PrimFloat.mul x y) = S754_nan.
Proof. intros H. rewrite mul_spec, H. reflexivity. Qed.

Lemma add_good_val (x y : float) :
  float_good x = true -> float_good y = true ->
  float_good (PrimFloat.add x y) = true /\
  float_val (PrimFloat.add x y) = Z.min (round53 0 (float_val x + float_val y)) (2 ^ 2098).
Proof.
  intros Gx Gy. unfold float_good, float_val. rewrite add_spec.
  apply sf_add_val; try assumption; apply Prim2SF_valid.
Qed.

Lemma float_val_round (x : float) :
  Z.min (round53 0 (float_val x)) (2 ^ 2098) = float_val x.
Proof. apply round53_val. apply Prim2SF_valid. Qed.

(** Addition is monotone on floats that are not negative. *)
Lemma add_mono (a a' b b' : float) :
  float_good a = true -> float_good a' = true ->
  float_good b = true -> float_good b' = true ->
  float_val a <= float_val a' -> float_val b <= float_val b' ->
  float_val (PrimFloat.add a b) <= float_val (PrimFloat.add a' b').
Proof.
  intros Ga Ga' Gb Gb' Ha Hb.
  rewrite (proj2 (add_good_val a b Ga Gb)), (proj2 (add_good_val a' b' Ga' Gb')).
  apply Z.min_le_compat_r. apply round53_mono; [lia |].
  pose proof (good_val_nonneg a). pose proof (good_val_nonneg b). lia.
Qed.

(** Adding what is not negative does not lower a float. *)
Lemma add_grows (lo : Z) (a d : float) :
  at_least lo a -> at_least 0 d -> at_least lo (PrimFloat.add a d).
Proof.
  intros [Ha | (Ga & Ha)] [Hd | (Gd & Hd)].
  - left. now apply add_nan_l.
  - left. now apply add_nan_l.
  - left. now apply add_nan_r.
  - right. destruct (add_good_val a d Ga Gd) as (G & V). split; [exact G |].
    rewrite V. apply Z.le_trans with (float_val a); [exact Ha |].
    rewrite <- (float_val_round a) at 1.
    apply Z.min_le_compat_r. apply round53_mono; [lia |].
    pose proof (good_val_nonneg a). lia.
Qed.

Lemma float_val_one : float_val 1%float = 2 ^ 1074.
Proof. unfold float_val. rewrite Binary64Laws.Prim2SF_one. apply sf_val_one. Qed.

Lemma good_at_least (x : float) : float_good x = true -> at_least (float_val x) x.
Proof. intros G. right. split; [exact G | apply Z.le_refl]. Qed.

Lemma good_at_least_0 (x : float) : float_good x = true -> at_least 0 x.
Proof. intros G. right. split; [exact G | apply good_val_nonneg]. Qed.

(** Multiplying by [1 + rate], the rate not negative, does not lower a float
    that is not negative. *)
Lemma mul_grows (lo : Z) (x rate : float) :
  at_least lo x -> float_good rate = true ->
  at_least lo (PrimFloat.mul x (PrimFloat.add 1%float rate)).
Proof.
  intros [Hx | (Gx & Hx)] Gr; [left; now apply mul_nan_l |].
  assert (G1 : float_good 1%float = true) by reflexivity.
  destruct (add_grows (float_val 1%float) 1%float rate (good_at_least _ G1)
              (good_at_least_0 _ Gr)) as [Hf | (Gf & Hf)].
  { left. rewrite mul_spec, Hf. unfold SF64mul. now destruct (Prim2SF x). }
  rewrite float_val_one in Hf.
  destruct (Prim2SF (PrimFloat.mul x (PrimFloat.add 1%float rate))) as [s | s | | s m e] eqn:E;
    [| | now left |];
    (right; rewrite mul_spec in E;
     destruct (sf_mul_grows (Prim2SF x) (Prim2SF (PrimFloat.add 1%float rate))
                 (Prim2SF_valid _) (Prim2SF_valid _) Gx Gf Hf) as (G & V);
     [unfold SF64mul in E; rewrite E; discriminate |];
     unfold float_good, float_val; rewrite mul_spec; split; [exact G |];
     apply Z.le_trans with (float_val x); [exact Hx | exact V]).
Qed.

Lemma at_least_nn (lo : Z) (x : float) : at_least lo x -> PrimFloat.ltb x 0%float = false.
Proof.
  intros [H | (G & _)]; [now apply ltb_nan_l | now apply good_nn].
Qed.

Lemma at_least_weaken (lo lo' : Z) (x : float) :
  lo' <= lo -> at_least lo x -> at_least lo' x.
Proof.
  intros H [Hx | (G & Hx)]; [now left | right; split; [exact G | lia]].
Qed.

(** From the values to the comparisons of the program. *)
Lemma not_below_of_vals (x y : float) :
  Prim2SF x = S754_nan \/ Prim2SF y = S754_nan \/
  (float_good x = true /\ float_good y = true /\ float_val x <= float_val y) ->
  not_below x y.
Proof.
  intros [H | [H | (Gx & Gy & H)]].
  - split; [now apply ltb_nan_r |]. intros Hn. apply is_nan_spec in H. congruence.
  - split; [now apply ltb_nan_l |]. intros _ Hn. apply is_nan_spec in H. congruence.
  - split.
    + rewrite (ltb_val y x Gy Gx). apply Z.ltb_ge. exact H.
    + intros _ _. rewrite (leb_val x y Gx Gy). apply Z.leb_le. exact H.
Qed.

Lemma sum_not_below (tg e tg' e' : float) :
  float_good tg = true -> float_good e = true ->
  at_least (float_val tg) tg' -> at_least (float_val e) e' ->
  not_below (PrimFloat.add tg e) (PrimFloat.add tg' e').
Proof.
  intros Gtg Ge [Ht | (Gt' & Ht)] [He | (Ge' & He)]; apply not_below_of_vals.
  - right. left. now apply add_nan_l.
  - right. left. now apply add_nan_l.
  - right. left. now apply add_nan_r.
  - right. right.
    split; [apply (add_good_val tg e Gtg Ge) |].
    split; [apply (add_good_val tg' e' Gt' Ge') |].
    now apply add_mono.
Qed.
Lemma at_least_not_below (x y : float) :
  float_good x = true -> at_least (float_val x) y -> not_below x y.
Proof.
  intros Gx [Hy | (Gy & Hy)]; apply not_below_of_vals.
  - right. now left.
  - right. right. now repeat split.
Qed.

Section Steps.

Variable float_pow : float -> Z -> result float.

Let A : Arith float := Binary64.arith float_pow.

Variables (deposit_years : Z) (annual_deposit : float).
Hypothesis deposit_nonneg : PrimFloat.leb 0%float annual_deposit = true.

Lemma deposit_good (y : Z) :
  float_good (@deposit_of float A deposit_years annual_deposit y) = true.
Proof.
  unfold deposit_of. destruct (y <=? deposit_years).
  - now rewrite <- good_leb.
  - reflexivity.
Qed.

(** ** The pure simulations *)

Section Pure.

Variable rate : float.
Hypothesis rate_nonneg : PrimFloat.leb 0%float rate = true.

Lemma pure_step_at_least (lo : Z) (y : Z) (b : float) :
  at_least lo b ->
  at_least lo (PrimFloat.mul (PrimFloat.add b (@deposit_of float A deposit_years annual_deposit y))
                 (PrimFloat.add 1%float rate)).
Proof.
  intros H. apply mul_grows; [| now rewrite <- good_leb].
  apply add_grows; [exact H |]. apply good_at_least_0, deposit_good.
Qed.

Lemma recurrence_at_least_0 (n : nat) :
  at_least 0 (@recurrence float A deposit_years annual_deposit rate n).
Proof.
  induction n as [| n IH]; cbn [recurrence].
  - now apply good_at_least_0.
  - apply (pure_step_at_least 0 (Z.of_nat (S n)) _ IH).
Qed.

Lemma recurrence_not_below (n : nat) :
  not_below (@recurrence float A deposit_years annual_deposit rate n)
    (@recurrence float A deposit_years annual_deposit rate (S n)).
Proof.
  destruct (recurrence_at_least_0 n) as [Hn | (G & _)].
  - apply not_below_of_vals. now left.
  - apply at_least_not_below; [exact G |]. cbn [recurrence].
    apply (pure_step_at_least _ (Z.of_nat (S n)) _ (good_at_least _ G)).
Qed.

End Pure.

(** ** The combination *)

Section Combination.

Variables (tg_rate etf_rate tg_target_first tg_target_after : float).
Variable years_first_target : Z.
Hypothesis tg_rate_nonneg : PrimFloat.leb 0%float tg_rate = true.
Hypothesis etf_rate_nonneg : PrimFloat.leb 0%float etf_rate = true.
Hypothesis first_nonneg : PrimFloat.leb 0%float tg_target_first = true.
Hypothesis after_nonneg : PrimFloat.leb 0%float tg_target_after = true.

Lemma target_good (y : Z) :
  float_good (@target_of float tg_target_first tg_target_after years_first_target y) = true.
Proof.
  unfold target_of. destruct (y <=? years_first_target); now rewrite <- good_leb.
Qed.

Lemma sub_lt_at_least (x y : float) :
  PrimFloat.ltb x 0%float = false -> PrimFloat.ltb y 0%float = false ->
  PrimFloat.ltb y x = true -> at_least 0 (PrimFloat.sub x y).
Proof.
  intros Hx Hy Hlt. apply nn_cases.
  exact (@sub_lt_not_neg float A (Binary64Laws.sign_laws float_pow) x y Hx Hy Hlt).
Qed.

Lemma sub_diag_at_least (x : float) : at_least 0 (PrimFloat.sub x x).
Proof.
  apply nn_cases.
  exact (@sub_diag_not_neg float A (Binary64Laws.sign_laws float_pow) x).
Qed.

Lemma allocate_at_least (lo1 lo2 : Z) (target dep tg e : float) :
  float_good target = true -> float_good dep = true ->
  at_least lo1 tg -> at_least lo2 e ->
  at_least lo1 (fst (@allocate float A target dep (tg, e))) /\
  at_least lo2 (snd (@allocate float A target dep (tg, e))).
Proof.
  intros Gt Gd Htg He. unfold allocate, py_min.
  change (@ltb float A) with PrimFloat.ltb. change (@add float A) with PrimFloat.add.
  change (@sub float A) with PrimFloat.sub. change (@zero float A) with 0%float.
  destruct (PrimFloat.ltb tg target) eqn:E1; cbn [andb].
  - destruct (PrimFloat.ltb 0%float dep) eqn:E2.
    + pose proof (sub_lt_at_least target tg (good_nn _ Gt) (at_least_nn _ _ Htg) E1) as Hneeded.
      destruct (PrimFloat.ltb (PrimFloat.sub target tg) dep) eqn:E3; cbn [fst snd]; split.
      * now apply add_grows.
      * apply add_grows; [exact He |].
        apply sub_lt_at_least; [now apply good_nn | now apply (at_least_nn 0) | exact E3].
      * apply add_grows; [exact Htg | now apply good_at_least_0].
      * apply add_grows; [exact He | apply sub_diag_at_least].
    + cbn [fst snd]. split; [exact Htg |].
      apply add_grows; [exact He | now apply good_at_least_0].
  - cbn [fst snd]. split; [exact Htg |].
    apply add_grows; [exact He | now apply good_at_least_0].
Qed.

Lemma compound_at_least (lo1 lo2 : Z) (b : float * float) :
  at_least lo1 (fst b) -> at_least lo2 (snd b) ->
  at_least lo1 (fst (@compound float A tg_rate etf_rate b)) /\
  at_least lo2 (snd (@compound float A tg_rate etf_rate b)).
Proof.
  destruct b as [tg e]. cbn [fst snd compound]. intros Htg He.
  split; apply mul_grows; try assumption; now rewrite <- good_leb.
Qed.

Lemma sweep_at_least (lo1 lo2 : Z) (target : float) (b : float * float) :
  float_good target = true -> lo1 <= float_val target ->
  at_least lo1 (fst b) -> at_least lo2 (snd b) ->
  at_least lo1 (fst (@sweep float A target b)) /\
  at_least lo2 (snd (@sweep float A target b)).
Proof.
  destruct b as [tg e]. cbn [fst snd]. intros Gt Hlo Htg He. unfold sweep.
  change (@ltb float A) with PrimFloat.ltb. change (@add float A) with PrimFloat.add.
  change (@sub float A) with PrimFloat.sub.
  destruct (PrimFloat.ltb target tg) eqn:E; cbn [fst snd]; split; try assumption.
  - right. now split.
  - apply add_grows; [exact He |].
    apply sub_lt_at_least; [now apply (at_least_nn lo1) | now apply good_nn | exact E].
Qed.

Lemma combo_year_at_least (lo1 lo2 : Z) (y : Z) (b : float * float) :
  lo1 <= float_val (@target_of float tg_target_first tg_target_after years_first_target y) ->
  at_least lo1 (fst b) -> at_least lo2 (snd b) ->
  let b' := @combo_year float A deposit_years annual_deposit tg_rate etf_rate
              tg_target_first tg_target_after years_first_target y b in
  at_least lo1 (fst b') /\ at_least lo2 (snd b').
Proof.
  intros Hlo Htg He. cbv zeta. unfold combo_year. destruct b as [tg e].
  cbn [fst snd] in Htg, He.
  destruct (allocate_at_least lo1 lo2 _ _ tg e (target_good y) (deposit_good y) Htg He)
    as (H1 & H2).
  destruct (compound_at_least lo1 lo2 _ H1 H2) as (H3 & H4).
  exact (sweep_at_least lo1 lo2 _ _ (target_good y) Hlo H3 H4).
Qed.

Let state (n : nat) : float * float :=
  @combo_state float A deposit_years annual_deposit tg_rate etf_rate
    tg_target_first tg_target_after years_first_target n.

Lemma combo_state_at_least_0 (n : nat) :
  at_least 0 (fst (state n)) /\ at_least 0 (snd (state n)).
Proof.
  induction n as [| n (IH1 & IH2)].
  - split; now apply good_at_least_0.
  - unfold state, combo_state. cbn [state_after].
    apply combo_year_at_least; try assumption. apply good_val_nonneg.
Qed.

(** The savings account is within the target of the year when the year
    ends. *)
Lemma combo_state_within (n : nat) :
  PrimFloat.ltb
    (@target_of float tg_target_first tg_target_after years_first_target (Z.of_nat (S n)))
    (fst (state (S n))) = false.
Proof.
  unfold state, combo_state. cbn [state_after]. unfold combo_year.
  apply (@sweep_within_target float A (Binary64Laws.laws float_pow)).
Qed.

(** From one year to the next the total does not fall, when the target of
    the next year is not below the target of the year. *)
Lemma combo_total_not_below (n : nat) :
  PrimFloat.leb
    (@target_of float tg_target_first tg_target_after years_first_target (Z.of_nat (S n)))
    (@target_of float tg_target_first tg_target_after years_first_target (Z.of_nat (S (S n))))
  = true ->
  not_below (PrimFloat.add (fst (state (S n))) (snd (state (S n))))
    (PrimFloat.add (fst (state (S (S n)))) (snd (state (S (S n))))).
Proof.
  intros Htargets.
  pose proof (combo_state_within n) as Hwithin.
  set (T := target_of tg_target_first tg_target_after years_first_target (Z.of_nat (S n))) in *.
  set (T' := target_of tg_target_first tg_target_after years_first_target (Z.of_nat (S (S n))))
    in *.
  assert (GT : float_good T = true) by apply target_good.
  assert (GT' : float_good T' = true) by apply target_good.
  rewrite (leb_val T T' GT GT') in Htargets. apply Z.leb_le in Htargets.
  destruct (combo_state_at_least_0 (S n)) as ([Htg | (Gtg & _)] & [He | (Ge & _)]).
  - apply not_below_of_vals. left. now apply add_nan_l.
  - apply not_below_of_vals. left. now apply add_nan_l.
  - apply not_below_of_vals. left. now apply add_nan_r.
  - rewrite (ltb_val T _ GT Gtg) in Hwithin. apply Z.ltb_ge in Hwithin.
    destruct (combo_year_at_least (float_val (fst (state (S n))))
                (float_val (snd (state (S n)))) (Z.of_nat (S (S n))) (state (S n)))
      as (H1 & H2).
    + fold T'. lia.
    + now apply good_at_least.
    + now apply good_at_least.
    + apply sum_not_below; [exact Gtg | exact Ge | exact H1 | exact H2].
Qed.

End Combination.

End Steps.
Lemma leb_refl_good (x : float) : float_good x = true -> PrimFloat.leb x x = true.
Proof. intros G. rewrite (leb_val x x G G). apply Z.leb_refl. Qed.

Section Totals.

Variable float_pow : float -> Z -> result float.

Let A : Arith float := Binary64.arith float_pow.

Variables (deposit_years growth_years : Z).
Variables (annual_deposit tg_rate etf_rate inflation_rate : float).
Variables (tg_target_first tg_target_after : float) (years_first_target : Z).

(** The target of the next year is not below the target of the year, unless
    the next year is the first one of the second phase and the target
    falls. *)
Lemma targets_in_order (k : nat) :
  PrimFloat.leb 0%float tg_target_first = true ->
  PrimFloat.leb 0%float tg_target_after = true ->
  Z.of_nat (S (S k)) <> years_first_target + 1 \/
  PrimFloat.leb tg_target_first tg_target_after = true ->
  PrimFloat.leb
    (@target_of float tg_target_first tg_target_after years_first_target (Z.of_nat (S k)))
    (@target_of float tg_target_first tg_target_after years_first_target (Z.of_nat (S (S k))))
  = true.
Proof.
  intros Hf Ha Hc. rewrite good_leb in Hf, Ha. unfold target_of.
  destruct (Z.leb_spec (Z.of_nat (S k)) years_first_target) as [H1 | H1],
           (Z.leb_spec (Z.of_nat (S (S k))) years_first_target) as [H2 | H2].
  - now apply leb_refl_good.
  - destruct Hc as [Hc | Hc]; [exfalso; lia | exact Hc].
  - exfalso. lia.
  - now apply leb_refl_good.
Qed.

(** C7, in binary64.  With a non-negative deposit and a non-negative rate,
    [total_nominal] does not fall from a snapshot to the next in
    [simulate_tagesgeld] and in [simulate_etf]; with non-negative rates and
    targets it does not fall in [simulate_combo] either, except into the
    year [years_first_target + 1] when the target falls there
    ([tg_target_after] below [tg_target_first]), the one step where the
    rounding of the sweep can lower the total.  "Does not fall": the next
    total is not less than the total, and the total is less than or equal to
    the next one unless one of them is NaN. *)
Theorem totals_never_fall (l : list (YearResult float)) (k : nat)
    (r r' : YearResult float) :
  PrimFloat.leb 0%float annual_deposit = true ->
  (PrimFloat.leb 0%float tg_rate = true /\
   @simulate_tagesgeld float A deposit_years growth_years annual_deposit tg_rate
     inflation_rate = Ok l) \/
  (PrimFloat.leb 0%float etf_rate = true /\
   @simulate_etf float A deposit_years growth_years annual_deposit etf_rate
     inflation_rate = Ok l) \/
  (PrimFloat.leb 0%float tg_rate = true /\ PrimFloat.leb 0%float etf_rate = true /\
   PrimFloat.leb 0%float tg_target_first = true /\
   PrimFloat.leb 0%float tg_target_after = true /\
   (year r' <> years_first_target + 1 \/
    PrimFloat.leb tg_target_first tg_target_after = true) /\
   @simulate_combo float A deposit_years growth_years annual_deposit tg_rate etf_rate
     inflation_rate tg_target_first tg_target_after years_first_target = Ok l) ->
  nth_error l k = Some r -> nth_error l (S k) = Some r' ->
  PrimFloat.ltb (total_nominal r') (total_nominal r) = false /\
  (PrimFloat.is_nan (total_nominal r) = false ->
   PrimFloat.is_nan (total_nominal r') = false ->
   PrimFloat.leb (total_nominal r) (total_nominal r') = true).
Proof.
  intros Hd H Hk Hk'.
  destruct H as [(Hr & H) | [(Hr & H) | (Ht & He & Hf & Ha & Hc & H)]].
  - apply tagesgeld_run in H. destruct H as (_ & Hnth).
    destruct (Hnth k r Hk) as (v & _ & ->). destruct (Hnth (S k) r' Hk') as (v' & _ & ->).
    cbn [total_nominal tagesgeld_snapshot].
    exact (recurrence_not_below float_pow deposit_years annual_deposit Hd tg_rate Hr (S k)).
  - apply etf_run in H. destruct H as (_ & Hnth).
    destruct (Hnth k r Hk) as (v & _ & ->). destruct (Hnth (S k) r' Hk') as (v' & _ & ->).
    cbn [total_nominal etf_snapshot].
    exact (recurrence_not_below float_pow deposit_years annual_deposit Hd etf_rate Hr (S k)).
  - apply combo_run in H. destruct H as (_ & Hnth).
    destruct (Hnth k r Hk) as (v & _ & ->). destruct (Hnth (S k) r' Hk') as (v' & _ & ->).
    cbn [year combo_snapshot] in Hc. cbn [total_nominal combo_snapshot].
    exact (combo_total_not_below float_pow deposit_years annual_deposit Hd
             tg_rate etf_rate tg_target_first tg_target_after years_first_target
             Ht He Hf Ha k (targets_in_order k Hf Ha Hc)).
Qed.

End Totals.

End Binary64Order.

(** * The runs, computed *)

Module Runs.

Import Scenario.
Local Open Scope float_scope.

Lemma savings_3_run : savings_3 = Ok savings_3_result.
Proof. vm_compute. reflexivity. Defined.

Lemma etf_3_run : etf_3 = Ok etf_3_result.
Proof. vm_compute. reflexivity. Defined.

(** Scenario 3 of the specification. *)
Lemma hybrid_run : hybrid = Ok hybrid_result.
Proof. vm_compute. reflexivity. Defined.

Lemma hybrid_drop_run : hybrid_drop = Ok hybrid_drop_result.
Proof. vm_compute. reflexivity. Defined.

(** C9. [simulate_tagesgeld] with [deposit_years = 1], [growth_years = 0],
    [annual_deposit = 1000] and [tg_rate = 0.10], in binary64 and with any
    [pow]: whenever [real_value] returns for the year, the result is the
    one snapshot with [deposit = 1000], [tg_balance = 1100] and
    [total_nominal = 1100], exactly. *)
Theorem savings_scenario (float_pow : float -> Z -> result float) (inflation_rate v : float) :
  @real_value float (Binary64.arith float_pow) 1100 inflation_rate 1 = Ok v ->
  @simulate_tagesgeld float (Binary64.arith float_pow) 1 0 1000 0.1 inflation_rate
  = Ok [mkYearResult 1 1000 1100 0 1100 v].
Proof.
  intros H. unfold simulate_tagesgeld.
  change (py_range 1 (1 + 0 + 1)) with [1%Z].
  cbn [tagesgeld_loop].
  change (@mul float (Binary64.arith float_pow)
            (@add float (Binary64.arith float_pow) (@zero float (Binary64.arith float_pow))
               (@deposit_of float (Binary64.arith float_pow) 1 1000 1))
            (@add float (Binary64.arith float_pow) (@one float (Binary64.arith float_pow)) 0.1))
    with 1100.
  rewrite H. reflexivity.
Qed.

Lemma savings_scenario_witness :
  savings 0.1 = Ok [mkYearResult 1 1000 1100 0 1100 (1100 / (1 + 0.1))].
Proof.
  apply (savings_scenario Binary64.pow_mult 0.1 (1100 / (1 + 0.1))).
  vm_compute. reflexivity.
Defined.

(** C5 as stated fails: with an inflation rate of minus one the divisor of
    [real_value] is zero, and the simulation raises instead of returning
    its one snapshot, in binary64 as in exact arithmetic. *)
Lemma deflated_run_raises :
  savings_deflated = Raise ZeroDivisionError /\
  savings_deflated_exact = Raise ZeroDivisionError.
Proof. split; vm_compute; reflexivity. Qed.

(** C7 as stated fails in binary64: all inputs are non-negative, and the
    total of the second year is below the total of the first, by the
    rounding of the sweep. *)
Lemma rounding_lowers_total :
  exists r1 r2 : YearResult float,
    hybrid_rounding = Ok [r1; r2] /\
    total_nominal r1 = 1000 /\
    PrimFloat.ltb (total_nominal r2) (total_nominal r1) = true.
Proof.
  do 2 eexists. split; [vm_compute; reflexivity |]. split; reflexivity.
Qed.

End Runs.

(** * The theorems at work on the concrete runs *)

Module Examples.

Import Scenario Runs.
Local Open Scope float_scope.

Abbreviation py := Binary64.python.
Abbreviation py_laws := (Binary64Laws.laws Binary64.pow_mult).

(** Year 1 of scenario 3: the savings account is empty and below the target
    of 500, so 500 of the deposit go there and 500 to the ETF. *)
Lemma combo_allocation_rule_witness :
  exists tg1 etf1 : float,
    balances (mkYearResult 1 1000 500 500 1000 1000)
    = @sweep float py 500 (@compound float py 0 0 (tg1, etf1)) /\
    tg1 = 500 /\ etf1 = 500.
Proof.
  destruct (@combo_allocation_rule float py py_laws 2 0 1000 0 0 0 500 500 1
              hybrid_result 0 (mkYearResult 1 1000 500 500 1000 1000)
              hybrid_run eq_refl)
    as (_ & _ & tg1 & etf1 & Hb & Hlt & _).
  exists tg1, etf1. split; [exact Hb |]. exact (Hlt eq_refl eq_refl).
Defined.

(** Year 2 of the run whose target falls to 200: the 300 above it move
    to the ETF in that year. *)
Lemma combo_sweep_rule_witness :
  tg_balance (mkYearResult 2 0 200 800 1000 1000) = 200 /\
  etf_balance (mkYearResult 2 0 200 800 1000 1000) = 500 + (500 - 200).
Proof.
  destruct (@combo_sweep_rule float py 1 1 1000 0 0 0 500 200 1
              hybrid_drop_result 1 (mkYearResult 2 0 200 800 1000 1000)
              hybrid_drop_run eq_refl)
    as (tg2 & etf2 & Heq & _ & _ & Hfirst).
  injection Heq as -> ->. exact (Hfirst eq_refl eq_refl).
Defined.

Lemma total_nominal_is_sum_witness :
  Binary64.float_same 2541 (2541 + 0) = true /\
  Binary64.float_same 2000 (500 + 1500) = true.
Proof.
  split.
  - apply (@total_nominal_is_sum float py py_laws 2 1 1000 0.1 0.1 0 500 500 1
             savings_3_result (mkYearResult 3 0 2541 0 2541 2541)).
    + left. exact savings_3_run.
    + simpl. auto.
  - apply (@total_nominal_is_sum float py py_laws 2 0 1000 0 0 0 500 500 1
             hybrid_result (mkYearResult 2 1000 500 1500 2000 2000)).
    + right. right. exact hybrid_run.
    + simpl. auto.
Defined.


Lemma real_value_defined_2_percent (y : Z) (x : float) :
  (1 <= y <= 2 + 1)%Z -> exists v, @real_value float py x 0.02 y = Ok v.
Proof.
  intros Hy.
  assert (Hc : y = 1%Z \/ y = 2%Z \/ y = 3%Z) by lia.
  destruct Hc as [-> | [-> | ->]]; eexists; vm_compute; reflexivity.
Defined.

Lemma simulations_return_every_year_witness :
  exists l : list (YearResult float),
    @simulate_combo float py 2 1 1000 0.02 0.05 0.02 500 800 1 = Ok l /\
    length l = 3%nat /\ map (@year float) l = [1; 2; 3]%Z.
Proof.
  apply (@simulations_return_every_year float py 2 1 1000 0.02 0.05 0.02 500 800 1
           real_value_defined_2_percent).
  simpl. auto.
Defined.

Lemma total_real_is_discounted_witness :
  (exists p, Binary64.pow_mult (1 + 0) 3 = Ok p /\ Binary64.float_div 2541 p = Ok 2541) /\
  total_real (mkYearResult 3 0 2541 0 2541 2541) = 2541.
Proof.
  destruct (@total_real_is_discounted float py 2 1 1000 0.1 0.1 0 500 500 1
              savings_3_result (mkYearResult 3 0 2541 0 2541 2541)
              (or_introl savings_3_run) (or_intror (or_intror (or_introl eq_refl))))
    as (Hd & Hz).
  split; [exact Hd |]. exact (Hz Binary64Laws.python_unit_laws eq_refl).
Defined.

Lemma balances_never_negative_witness :
  PrimFloat.ltb 200 0 = false /\ PrimFloat.ltb 800 0 = false.
Proof.
  destruct (@balances_never_negative float py py_laws (Binary64Laws.sign_laws Binary64.pow_mult)
              1 1 1000 0 0 0 500 200 1
              eq_refl eq_refl eq_refl eq_refl eq_refl
              hybrid_drop_result (mkYearResult 2 0 200 800 1000 1000)
              (or_intror (or_intror hybrid_drop_run)) (or_intror (or_introl eq_refl)))
    as (H & _).
  exact H.
Defined.

Lemma combo_tg_within_target_witness :
  PrimFloat.ltb 200 200 = false.
Proof.
  destruct (@combo_tg_within_target float py py_laws 1 1 1000 0 0 0 500 200 1
              hybrid_drop_result (mkYearResult 2 0 200 800 1000 1000)
              hybrid_drop_run (or_intror (or_introl eq_refl)))
    as (H & _).
  exact H.
Defined.

(** The savings run and scenario 3: the totals rise from 1100 to 2310 and
    from 1000 to 2000. *)
Lemma totals_never_fall_witness :
  (PrimFloat.ltb 2310 1100 = false /\ PrimFloat.leb 1100 2310 = true) /\
  (PrimFloat.ltb 2000 1000 = false /\ PrimFloat.leb 1000 2000 = true).
Proof.
  split.
  - destruct (Binary64Order.totals_never_fall Binary64.pow_mult 2 1 1000 0.1 0.1 0 500 500 1
                savings_3_result 0 (mkYearResult 1 1000 1100 0 1100 1100)
                (mkYearResult 2 1000 2310 0 2310 2310)
                eq_refl (or_introl (conj eq_refl savings_3_run)) eq_refl eq_refl)
      as (H1 & H2).
    split; [exact H1 | exact (H2 eq_refl eq_refl)].
  - destruct (Binary64Order.totals_never_fall Binary64.pow_mult 2 0 1000 0 0 0 500 500 1
                hybrid_result 0 (mkYearResult 1 1000 500 500 1000 1000)
                (mkYearResult 2 1000 500 1500 2000 2000)
                eq_refl
                (or_intror (or_intror
                   (conj eq_refl (conj eq_refl (conj eq_refl (conj eq_refl
                      (conj (or_intror eq_refl) hybrid_run)))))))
                eq_refl eq_refl)
      as (H1 & H2).
    split; [exact H1 | exact (H2 eq_refl eq_refl)].
Defined.

End Examples.

(** * Laws of zero in binary64 *)

Module ZeroFacts.

Lemma zero_like_spec (float_pow : float -> Z -> result float) (x : float) :
  @zero_like float (Binary64.arith float_pow) x <-> sf_zero_like (Prim2SF x) = true.
Proof.
  unfold zero_like. simpl. rewrite !ltb_spec, Binary64Laws.Prim2SF_zero.
  destruct (Prim2SF x) as [[] | [] | | [] m e]; cbn;
    (split; [intros (H1 & H2) | intros H]); try discriminate; auto.
Qed.

Lemma sf_zero_like_mul (a b : spec_float) :
  sf_zero_like a = true -> sf_zero_like (SFmul prec emax a b) = true.
Proof.
  destruct a as [[] | [] | | [] ma ea], b as [[] | [] | | [] mb eb];
    intros Ha; try discriminate; reflexivity.
Qed.

Lemma sf_zero_like_add (a b : spec_float) :
  sf_zero_like a = true -> sf_zero_like b = true ->
  sf_zero_like (SFadd prec emax a b) = true.
Proof.
  destruct a as [[] | [] | | [] ma ea], b as [[] | [] | | [] mb eb];
    intros Ha Hb; try discriminate; reflexivity.
Qed.

Lemma sf_zero_like_not_above (x t : spec_float) :
  sf_zero_like x = true -> SFleb (S754_zero false) t = true -> SFltb t x = false.
Proof.
  destruct x as [[] | [] | | [] mx ex], t as [[] | [] | | [] mt et];
    intros Hx Ht; try discriminate; reflexivity.
Qed.

#[global] Instance float_zero_laws (float_pow : float -> Z -> result float) :
  @ZeroLaws float (Binary64.arith float_pow).
Proof.
  constructor.
  - intros x g Hx. apply zero_like_spec in Hx. apply zero_like_spec.
    simpl. rewrite mul_spec. now apply sf_zero_like_mul.
  - intros x y Hx Hy. apply zero_like_spec in Hx, Hy. apply zero_like_spec.
    simpl. rewrite add_spec. now apply sf_zero_like_add.
  - intros x t Hx Ht. apply zero_like_spec in Hx. simpl in Ht |- *.
    rewrite leb_spec, Binary64Laws.Prim2SF_zero in Ht. rewrite ltb_spec.
    now apply sf_zero_like_not_above.
Qed.

End ZeroFacts.


(** * When a simulation raises *)

Section RaiseFacts.

Context {F : Type} {A : Arith F} {St : Type}.
Variables (step : Z -> St -> St) (snapshot : Z -> St -> F -> YearResult F).
Variables (nominal : St -> F) (inflation_rate : F).

Let loop := year_loop step snapshot nominal inflation_rate.

(** A run raises [e] exactly when [real_value] raises [e] at some pass and
    returns at every pass before it. *)
Lemma year_loop_raise_iff (years : list Z) (e : exn) :
  forall (st : St) (results : list (YearResult F)),
    loop years st results = Raise e <->
    exists i p,
      nth_error (trace step years st) i = Some p /\
      real_value (nominal (snd p)) inflation_rate (fst p) = Raise e /\
      forall j q, (j < i)%nat -> nth_error (trace step years st) j = Some q ->
        exists v, real_value (nominal (snd q)) inflation_rate (fst q) = Ok v.
Proof.
  induction years as [| y rest IH]; intros st results; simpl.
  - split; [discriminate |]. intros (i & p & H & _). destruct i; discriminate.
  - destruct (real_value (nominal (step y st)) inflation_rate y) as [v | e'] eqn:E; simpl.
    + rewrite IH. split.
      * intros (i & p & Hp & He & Hbefore). exists (S i), p. repeat split; try assumption.
        intros j q Hj Hq. destruct j as [| j]; simpl in Hq.
        -- injection Hq as <-. now exists v.
        -- apply (Hbefore j q); [lia | exact Hq].
      * intros (i & p & Hp & He & Hbefore). destruct i as [| i]; simpl in Hp.
        -- injection Hp as <-. simpl in He. congruence.
        -- exists i, p. repeat split; try assumption.
           intros j q Hj Hq. apply (Hbefore (S j) q); [lia | exact Hq].
    + split.
      * intros [= <-]. exists 0%nat, (y, step y st). repeat split; try assumption.
        intros j q Hj. lia.
      * intros (i & p & Hp & He & Hbefore). destruct i as [| i]; simpl in Hp.
        -- injection Hp as <-. simpl in He. congruence.
        -- destruct (Hbefore 0%nat (y, step y st)) as (v & Hv); [lia | reflexivity |].
           simpl in Hv. congruence.
Qed.

Lemma run_raise_iff (init : St) (n : Z) (e : exn) :
  loop (py_range 1 (n + 1)) init [] = Raise e <->
  exists k, (k < Z.to_nat n)%nat /\
    real_value (nominal (state_after step init (S k))) inflation_rate (Z.of_nat (S k))
    = Raise e /\
    forall j, (j < k)%nat ->
      exists v, real_value (nominal (state_after step init (S j))) inflation_rate
                  (Z.of_nat (S j)) = Ok v.
Proof.
  rewrite year_loop_raise_iff, py_range_from_1.
  change init with (state_after step init 0) at 1 2.
  rewrite trace_seq.
  assert (Hnth : forall i p,
            nth_error (map (fun k : nat => (Z.of_nat k, state_after step init k))
                         (seq 1 (Z.to_nat n))) i = Some p <->
            (i < Z.to_nat n)%nat /\ p = (Z.of_nat (S i), state_after step init (S i))).
  { intros i p. rewrite nth_error_map, nth_error_seq.
    destruct (i <? Z.to_nat n)%nat eqn:Ei; simpl.
    - apply Nat.ltb_lt in Ei. split.
      + intros [= <-]. now split.
      + now intros (_ & ->).
    - apply Nat.ltb_ge in Ei. split; [discriminate | intros (Hi & _); lia]. }
  split.
  - intros (i & p & Hp & He & Hbefore). apply Hnth in Hp. destruct Hp as (Hi & ->).
    exists i. repeat split; try assumption.
    intros j Hj.
    apply (Hbefore j (Z.of_nat (S j), state_after step init (S j)) Hj).
    apply Hnth. split; [lia | reflexivity].
  - intros (k & Hk & He & Hbefore).
    exists k, (Z.of_nat (S k), state_after step init (S k)). repeat split.
    + apply Hnth. now split.
    + exact He.
    + intros j q Hj Hq. apply Hnth in Hq. destruct Hq as (_ & ->). now apply Hbefore.
Qed.

(** Two runs that differ in the inflation rate only return snapshots that
    agree on every field [project] reads, when no such field comes from
    [real_value]. *)
Lemma year_loop_projection {P : Type} (project : YearResult F -> P)
    (inflation_rate' : F) (years : list Z) :
  (forall y st v v', project (snapshot y st v) = project (snapshot y st v')) ->
  forall (st : St) (results results' l l' : list (YearResult F)),
    map project results = map project results' ->
    loop years st results = Ok l ->
    year_loop step snapshot nominal inflation_rate' years st results' = Ok l' ->
    map project l = map project l'.
Proof.
  intros Hproj. induction years as [| y rest IH]; intros st results results' l l' Hres H H';
    simpl in H, H'.
  - now injection H as <-; injection H' as <-.
  - destruct (real_value (nominal (step y st)) inflation_rate y) as [v |]; [| discriminate].
    destruct (real_value (nominal (step y st)) inflation_rate' y) as [v' |]; [| discriminate].
    simpl in H, H'.
    refine (IH _ _ _ _ _ _ H H').
    rewrite !map_app. simpl. now rewrite Hres, (Hproj y (step y st) v v').
Qed.

End RaiseFacts.


(** * More about the three simulations *)

Section MoreClaims.

Context {F : Type} {A : Arith F}.
Variables (deposit_years growth_years : Z).
Variables (annual_deposit tg_rate etf_rate inflation_rate : F).
Variables (tg_target_first tg_target_after : F) (years_first_target : Z).

Let tagesgeld :=
  simulate_tagesgeld deposit_years growth_years annual_deposit tg_rate inflation_rate.
Let etf :=
  simulate_etf deposit_years growth_years annual_deposit etf_rate inflation_rate.
Let combo :=
  simulate_combo deposit_years growth_years annual_deposit tg_rate etf_rate
    inflation_rate tg_target_first tg_target_after years_first_target.
Let combo_total (n : nat) : F :=
  combo_nominal
    (combo_state deposit_years annual_deposit tg_rate etf_rate
       tg_target_first tg_target_after years_first_target n).

(** X1. A simulation raises [e] exactly when [real_value] raises [e] for the
    total of some year of the run and returns for the totals of all years
    before: the first year that cannot be discounted ends the call, and
    nothing else does. *)
Theorem simulation_raises_at_first_failure (e : exn) :
  forall sim total,
    In (sim, total)
      [(tagesgeld, recurrence deposit_years annual_deposit tg_rate);
       (etf, recurrence deposit_years annual_deposit etf_rate);
       (combo, combo_total)] ->
    (sim = Raise e <->
     exists k, (k < Z.to_nat (deposit_years + growth_years))%nat /\
       real_value (total (S k)) inflation_rate (Z.of_nat (S k)) = Raise e /\
       forall j, (j < k)%nat ->
         exists v, real_value (total (S j)) inflation_rate (Z.of_nat (S j)) = Ok v).
Proof.
  intros sim total [[= <- <-] | [[= <- <-] | [[= <- <-] | []]]].
  - unfold tagesgeld, simulate_tagesgeld. cbv zeta.
    rewrite tagesgeld_loop_eq, run_raise_iff.
    split; intros (k & Hk & He & Hb); exists k; (split; [exact Hk |]).
    + rewrite pure_state_recurrence in He. split; [exact He |].
      intros j Hj. destruct (Hb j Hj) as (v & Hv).
      rewrite pure_state_recurrence in Hv. now exists v.
    + rewrite pure_state_recurrence. split; [exact He |].
      intros j Hj. rewrite pure_state_recurrence. now apply Hb.
  - unfold etf, simulate_etf. cbv zeta.
    rewrite etf_loop_eq, run_raise_iff.
    split; intros (k & Hk & He & Hb); exists k; (split; [exact Hk |]).
    + rewrite pure_state_recurrence in He. split; [exact He |].
      intros j Hj. destruct (Hb j Hj) as (v & Hv).
      rewrite pure_state_recurrence in Hv. now exists v.
    + rewrite pure_state_recurrence. split; [exact He |].
      intros j Hj. rewrite pure_state_recurrence. now apply Hb.
  - unfold combo, simulate_combo. cbv zeta.
    rewrite combo_loop_eq, run_raise_iff. reflexivity.
Qed.

(** X2. The inflation rate reaches [total_real] only: two calls that differ
    in the inflation rate alone and both return agree, snapshot by snapshot,
    on year, deposit, both balances and [total_nominal]. *)
Theorem nominal_fields_ignore_inflation (inflation_rate' : F)
    (l l' : list (YearResult F)) :
  (tagesgeld = Ok l /\
   simulate_tagesgeld deposit_years growth_years annual_deposit tg_rate inflation_rate'
   = Ok l') \/
  (etf = Ok l /\
   simulate_etf deposit_years growth_years annual_deposit etf_rate inflation_rate'
   = Ok l') \/
  (combo = Ok l /\
   simulate_combo deposit_years growth_years annual_deposit tg_rate etf_rate
     inflation_rate' tg_target_first tg_target_after years_first_target = Ok l') ->
  map nominal_part l = map nominal_part l'.
Proof.
  intros [(H & H') | [(H & H') | (H & H')]].
  - unfold tagesgeld, simulate_tagesgeld in H, H'. cbv zeta in H, H'.
    rewrite tagesgeld_loop_eq in H, H'.
    refine (year_loop_projection _ _ _ _ nominal_part _ _ _ _ [] [] _ _ eq_refl H H').
    reflexivity.
  - unfold etf, simulate_etf in H, H'. cbv zeta in H, H'.
    rewrite etf_loop_eq in H, H'.
    refine (year_loop_projection _ _ _ _ nominal_part _ _ _ _ [] [] _ _ eq_refl H H').
    reflexivity.
  - unfold combo, simulate_combo in H, H'. cbv zeta in H, H'.
    rewrite combo_loop_eq in H, H'.
    refine (year_loop_projection _ _ _ _ nominal_part _ _ _ _ [] [] _ _ eq_refl H H').
    reflexivity.
Qed.

Lemma etf_loop_mirror (rate : F) (years : list Z) :
  forall (b : F) (results : list (YearResult F)),
    etf_loop deposit_years annual_deposit rate inflation_rate years b (map mirror results)
    = map_result (map mirror)
        (tagesgeld_loop deposit_years annual_deposit rate inflation_rate years b results).
Proof.
  induction years as [| y rest IH]; intros b results; simpl; [reflexivity |].
  destruct (real_value _ inflation_rate y) as [v | e]; simpl; [| reflexivity].
  rewrite <- IH, map_app. reflexivity.
Qed.

(** X3. [simulate_etf] is [simulate_tagesgeld] with the two balances
    exchanged: called with the same arguments, either both raise the same
    exception or both return, and then the snapshots of the one are those
    of the other with [tg_balance] and [etf_balance] swapped. *)
Theorem etf_is_tagesgeld_mirrored (rate : F) :
  simulate_etf deposit_years growth_years annual_deposit rate inflation_rate
  = map_result (map mirror)
      (simulate_tagesgeld deposit_years growth_years annual_deposit rate inflation_rate).
Proof.
  unfold simulate_etf, simulate_tagesgeld. cbv zeta.
  exact (etf_loop_mirror rate _ zero []).
Qed.

End MoreClaims.


(** * Zero targets and zero deposits *)

Section ZeroClaims.

Context {F : Type} {A : Arith F} {L : ArithLaws F} {ZL : ZeroLaws F}.
Variables (deposit_years growth_years : Z).
Variables (annual_deposit tg_rate etf_rate inflation_rate : F).

Lemma zero_is_zero_like : zero_like zero.
Proof. split; apply ltb_irrefl. Qed.

(** With both targets zero the savings account stays zero-like and the ETF
    balance is the recurrence of the pure ETF simulation. *)
Lemma combo_state_zero_targets (years_first_target : Z) (n : nat) :
  let b := combo_state deposit_years annual_deposit tg_rate etf_rate
             zero zero years_first_target n in
  zero_like (fst b) /\ snd b = recurrence deposit_years annual_deposit etf_rate n.
Proof.
  induction n as [| n IH]; cbv zeta in *.
  - split; [apply zero_is_zero_like | reflexivity].
  - unfold combo_state in *. cbn [state_after]. unfold combo_year.
    destruct (state_after _ _ n) as [tg e]. cbn [fst snd] in IH.
    destruct IH as (Hz & ->).
    assert (Ht : target_of zero zero years_first_target (Z.of_nat (S n)) = zero)
      by (unfold target_of; now destruct (_ <=? _)%Z).
    rewrite Ht. unfold allocate.
    destruct Hz as (Hlt & Hgt). rewrite Hlt. cbn [andb].
    unfold compound, sweep.
    pose proof (mul_zero_like tg (add one tg_rate) (conj Hlt Hgt)) as (Hlt' & Hgt').
    rewrite Hgt'. cbn [fst snd]. split; [now split | reflexivity].
Qed.

(** X4. With both targets zero the combination is the pure ETF strategy:
    every deposit goes to the ETF, whose balance is, year by year, the
    balance [simulate_etf] reports for the same inputs, and the savings
    account never holds anything: its balance is neither below nor above
    zero in any snapshot. *)
Theorem combo_with_zero_targets_is_etf (years_first_target : Z)
    (l : list (YearResult F)) :
  simulate_combo deposit_years growth_years annual_deposit tg_rate etf_rate
    inflation_rate zero zero years_first_target = Ok l ->
  (forall r, In r l -> zero_like (tg_balance r)) /\
  (forall l',
     simulate_etf deposit_years growth_years annual_deposit etf_rate inflation_rate = Ok l' ->
     map (fun r => (year r, deposit r, etf_balance r)) l
     = map (fun r => (year r, deposit r, etf_balance r)) l').
Proof.
  intros H. apply combo_run in H. destruct H as (Hlen & Hnth). split.
  - intros r Hin. apply In_nth_error in Hin. destruct Hin as (k & Hk).
    destruct (Hnth k r Hk) as (v & _ & ->). cbn [tg_balance combo_snapshot].
    apply (combo_state_zero_targets years_first_target (S k)).
  - intros l' H'. apply etf_run in H'. destruct H' as (Hlen' & Hnth').
    apply nth_error_ext. intros k. rewrite !nth_error_map.
    destruct (nth_error l k) as [r |] eqn:Ek, (nth_error l' k) as [r' |] eqn:Ek'; simpl.
    + destruct (Hnth k r Ek) as (v & _ & ->). destruct (Hnth' k r' Ek') as (v' & _ & ->).
      cbn [year deposit etf_balance combo_snapshot etf_snapshot].
      now rewrite (proj2 (combo_state_zero_targets years_first_target (S k))).
    + apply nth_error_None in Ek'.
      assert (k < length l)%nat by (apply nth_error_Some; congruence). exfalso. lia.
    + apply nth_error_None in Ek.
      assert (k < length l')%nat by (apply nth_error_Some; congruence). exfalso. lia.
    + reflexivity.
Qed.

Section NoDeposit.

Variables (tg_target_first tg_target_after : F) (years_first_target : Z).
Hypothesis no_deposit : (deposit_years <= 0)%Z \/ annual_deposit = zero.
Hypothesis first_nonneg : leb zero tg_target_first = true.
Hypothesis after_nonneg : leb zero tg_target_after = true.

Lemma deposit_of_none (k : nat) :
  deposit_of deposit_years annual_deposit (Z.of_nat (S k)) = zero.
Proof.
  unfold deposit_of. destruct no_deposit as [Hd | ->].
  - destruct (Z.of_nat (S k) <=? deposit_years)%Z eqn:E; [| reflexivity].
    apply Z.leb_le in E. lia.
  - now destruct (_ <=? _)%Z.
Qed.

Lemma recurrence_zero_like (rate : F) (n : nat) :
  zero_like (recurrence deposit_years annual_deposit rate n).
Proof.
  induction n as [| n IH]; cbn [recurrence].
  - apply zero_is_zero_like.
  - change (if (Z.of_nat (S n) <=? deposit_years)%Z then annual_deposit else zero)
      with (deposit_of deposit_years annual_deposit (Z.of_nat (S n))).
    rewrite deposit_of_none. apply mul_zero_like.
    apply add_zero_like; [exact IH | apply zero_is_zero_like].
Qed.

Lemma combo_state_zero_like (n : nat) :
  let b := combo_state deposit_years annual_deposit tg_rate etf_rate
             tg_target_first tg_target_after years_first_target n in
  zero_like (fst b) /\ zero_like (snd b).
Proof.
  induction n as [| n IH]; cbv zeta in *.
  - split; apply zero_is_zero_like.
  - unfold combo_state in *. cbn [state_after]. unfold combo_year.
    destruct (state_after _ _ n) as [tg e]. cbn [fst snd] in IH.
    destruct IH as (Htg & He).
    rewrite deposit_of_none.
    set (target := target_of tg_target_first tg_target_after years_first_target
                     (Z.of_nat (S n))).
    assert (Ht : leb zero target = true)
      by (unfold target, target_of; now destruct (_ <=? _)%Z).
    unfold allocate. rewrite (ltb_irrefl zero), andb_false_r.
    unfold compound, sweep.
    pose proof (mul_zero_like tg (add one tg_rate) Htg) as Htg'.
    rewrite (zero_like_not_above _ _ Htg' Ht). cbn [fst snd].
    split; [exact Htg' |].
    apply mul_zero_like. apply add_zero_like; [exact He | apply zero_is_zero_like].
Qed.

(** X5. Without deposits nothing ever accumulates: when there is no deposit
    year or the annual deposit is zero (and, for the combination, the targets
    are not negative), every snapshot of each simulation has a zero deposit
    and two balances that are neither below nor above zero (a zero of either
    sign or, in binary64 with a rate that is not finite, NaN). *)
Theorem no_deposit_no_balance (l : list (YearResult F)) (r : YearResult F) :
  simulate_tagesgeld deposit_years growth_years annual_deposit tg_rate inflation_rate = Ok l \/
  simulate_etf deposit_years growth_years annual_deposit etf_rate inflation_rate = Ok l \/
  simulate_combo deposit_years growth_years annual_deposit tg_rate etf_rate
    inflation_rate tg_target_first tg_target_after years_first_target = Ok l ->
  In r l ->
  deposit r = zero /\ zero_like (tg_balance r) /\ zero_like (etf_balance r).
Proof.
  intros H Hin. apply In_nth_error in Hin. destruct Hin as (k & Hk).
  destruct H as [H | [H | H]].
  - apply tagesgeld_run in H. destruct H as (_ & Hnth).
    destruct (Hnth k r Hk) as (v & _ & ->).
    cbn [deposit tg_balance etf_balance tagesgeld_snapshot].
    split; [apply deposit_of_none |].
    split; [apply recurrence_zero_like | apply zero_is_zero_like].
  - apply etf_run in H. destruct H as (_ & Hnth).
    destruct (Hnth k r Hk) as (v & _ & ->).
    cbn [deposit tg_balance etf_balance etf_snapshot].
    split; [apply deposit_of_none |].
    split; [apply zero_is_zero_like | apply recurrence_zero_like].
  - apply combo_run in H. destruct H as (_ & Hnth).
    destruct (Hnth k r Hk) as (v & _ & ->).
    cbn [deposit tg_balance etf_balance combo_snapshot].
    split; [apply deposit_of_none |]. apply combo_state_zero_like.
Qed.

End NoDeposit.

End ZeroClaims.

(** * The formatting of amounts *)

Module FormatFacts.

Local Open Scope N_scope.

Lemma is_digit_spec (c : N) : Char.is_digit c = true <-> 48 <= c <= 57.
Proof.
  unfold Char.is_digit. rewrite andb_true_iff, !N.leb_le. reflexivity.
Qed.

Lemma digit_char (k : N) : k < 10 -> Char.is_digit (Char.zero + k) = true.
Proof. intros H. apply is_digit_spec. unfold Char.zero. lia. Qed.

Lemma digits_fuel_digits (fuel : nat) :
  forall (n : N) (acc : text),
    Forall (fun c => Char.is_digit c = true) acc ->
    Forall (fun c => Char.is_digit c = true) (digits_fuel fuel n acc).
Proof.
  induction fuel as [| fuel IH]; intros n acc Hacc; simpl; [exact Hacc |].
  assert (Hd : Char.is_digit (Char.zero + n mod 10) = true)
    by (apply digit_char; apply N.mod_lt; discriminate).
  destruct (n / 10 =? 0); [now constructor | apply IH; now constructor].
Qed.

Lemma decimal_digits (n : N) : Forall (fun c => Char.is_digit c = true) (decimal n).
Proof. apply digits_fuel_digits. constructor. Qed.

Lemma digits_fuel_nonempty (fuel : nat) :
  forall (n : N) (acc : text), acc <> [] -> digits_fuel fuel n acc <> [].
Proof.
  induction fuel as [| fuel IH]; intros n acc Hacc; simpl; [exact Hacc |].
  destruct (n / 10 =? 0); [discriminate | apply IH; discriminate].
Qed.

Lemma decimal_nonempty (n : N) : decimal n <> [].
Proof.
  unfold decimal. simpl. destruct (n / 10 =? 0); [discriminate |].
  apply digits_fuel_nonempty. discriminate.
Qed.

Lemma two_digits_digits (k : N) :
  k < 100 -> Forall (fun c => Char.is_digit c = true) (two_digits k).
Proof.
  intros H. unfold two_digits. repeat constructor; apply digit_char.
  - apply N.Div0.div_lt_upper_bound. lia.
  - apply N.mod_lt. discriminate.
Qed.

Lemma group_chars (sep : N) (ds : text) (c : N) :
  In c (group sep ds) -> c = sep \/ In c ds.
Proof.
  induction ds as [| d rest IH]; cbn [group]; [intros [] |].
  intros H. destruct H as [-> | H]; [right; now left |].
  destruct ((0 <? List.length rest)%nat && (List.length rest mod 3 =? 0)%nat).
  - destruct H as [<- | H]; [now left |].
    destruct (IH H) as [-> | Hin]; [now left | right; now right].
  - destruct (IH H) as [-> | Hin]; [now left | right; now right].
Qed.

(** The three replacements, one after the other, on a character. *)
Lemma replacements_on_char (c : N) :
  c <> Char.X ->
  (let c1 := if c =? Char.comma then Char.X else c in
   let c2 := if c1 =? Char.dot then Char.comma else c1 in
   if c2 =? Char.X then Char.dot else c2) = swap_separators c.
Proof.
  intros H. unfold swap_separators. cbv zeta.
  destruct (c =? Char.comma) eqn:E1; [reflexivity |].
  destruct (c =? Char.dot) eqn:E2; [reflexivity |].
  destruct (c =? Char.X) eqn:E3; [apply N.eqb_eq in E3; contradiction | reflexivity].
Qed.

Lemma replacements_swap (s : text) :
  ~ In Char.X s ->
  replace_char Char.X Char.dot
    (replace_char Char.dot Char.comma (replace_char Char.comma Char.X s))
  = map swap_separators s.
Proof.
  intros H. unfold replace_char. rewrite !map_map. apply map_ext_in.
  intros c Hc. apply replacements_on_char. intros ->. contradiction.
Qed.

Lemma digit_not_X (c : N) : Char.is_digit c = true -> c <> Char.X.
Proof. intros H ->. discriminate. Qed.

(** The formatted number never contains the placeholder. *)
Lemma format_fixed2_no_X (grouped : bool) (value : float) :
  ~ In Char.X (format_fixed2 grouped value).
Proof.
  unfold format_fixed2.
  destruct (Prim2SF value) as [s | s | | s m e].
  - destruct s; simpl; intuition discriminate.
  - destruct s; simpl; intuition discriminate.
  - simpl; intuition discriminate.
  - cbv zeta. rewrite !in_app_iff. intros [H | [H | [H | H]]].
    + destruct s; simpl in H; intuition discriminate.
    + assert (Hd : In Char.X (decimal (cents_of m e / 100))).
      { destruct grouped; [| exact H].
        apply group_chars in H. destruct H as [H | H]; [discriminate | exact H]. }
      pose proof (decimal_digits (cents_of m e / 100)) as Hall.
      rewrite Forall_forall in Hall. now apply Hall in Hd.
    + simpl in H. intuition discriminate.
    + pose proof (two_digits_digits (cents_of m e mod 100)) as Hall.
      rewrite Forall_forall in Hall. apply Hall in H; [discriminate |].
      apply N.mod_lt. discriminate.
Qed.

(** The three replacements on the formatted amount. *)
Lemma format_money_swapped (value : float) :
  format_money value
  = map swap_separators (format_fixed2 true value) ++ [Char.space; Char.euro].
Proof.
  unfold format_money. rewrite replacements_swap.
  - now rewrite map_app.
  - rewrite in_app_iff. intros [H | H].
    + now apply format_fixed2_no_X in H.
    + simpl in H. intuition discriminate.
Qed.

(** X10. [format_money] exchanges the separators and changes nothing else:
    for every float, its result is the number as [f"{value:,.2f}"] writes
    it with each comma turned into a point and each point into a comma,
    followed by a space and the euro sign.  The placeholder of the three
    replacements never meets an X of the number, which has none. *)
Theorem format_money_swaps_separators (value : float) :
  format_money value
  = map swap_separators (format_fixed2 true value) ++ [Char.space; Char.euro].
Proof. exact (format_money_swapped value). Qed.

Lemma swap_digit (c : N) : Char.is_digit c = true -> swap_separators c = c.
Proof.
  intros H. apply is_digit_spec in H. unfold swap_separators.
  destruct (c =? Char.comma) eqn:E1; [apply N.eqb_eq in E1; subst; unfold Char.comma in H; lia |].
  destruct (c =? Char.dot) eqn:E2; [apply N.eqb_eq in E2; subst; unfold Char.dot in H; lia |].
  reflexivity.
Qed.

Lemma swap_digits (ds : text) :
  Forall (fun c => Char.is_digit c = true) ds -> map swap_separators ds = ds.
Proof.
  induction 1 as [| d rest Hd _ IH]; simpl; [reflexivity |].
  now rewrite swap_digit, IH.
Qed.

Lemma swap_group (ds : text) :
  Forall (fun c => Char.is_digit c = true) ds ->
  map swap_separators (group Char.comma ds) = group Char.dot ds.
Proof.
  induction 1 as [| d rest Hd _ IH]; cbn [group map]; [reflexivity |].
  rewrite swap_digit by exact Hd.
  destruct ((0 <? List.length rest)%nat && (List.length rest mod 3 =? 0)%nat);
    cbn [map]; now rewrite IH.
Qed.

(** The groups after the first one, and the hundredths. *)
Lemma groups_and_cents_complete (a b : N) (k : nat) :
  Char.is_digit a = true -> Char.is_digit b = true ->
  forall ds : text,
    List.length ds = (3 * k)%nat ->
    Forall (fun c => Char.is_digit c = true) ds ->
    groups_and_cents
      ((match ds with [] => [] | _ => Char.dot :: group Char.dot ds end)
       ++ [Char.comma; a; b; Char.space; Char.euro]) = true.
Proof.
  intros Ha Hb. induction k as [| k IH]; intros ds Hlen Hds.
  - destruct ds; [| discriminate]. simpl. now rewrite Ha, Hb.
  - destruct ds as [| x [| y [| z rest]]]; try (simpl in Hlen; lia).
    assert (Hrest : List.length rest = (3 * k)%nat) by (simpl in Hlen; lia).
    inversion Hds as [| ? ? Hx Hds1]; subst.
    inversion Hds1 as [| ? ? Hy Hds2]; subst.
    inversion Hds2 as [| ? ? Hz Hds3]; subst.
    specialize (IH rest Hrest Hds3).
    cbn [group].
    replace (List.length (y :: z :: rest) mod 3 =? 0)%nat with false.
    2:{ symmetry. apply Nat.eqb_neq. cbn [List.length]. rewrite Hrest.
        replace (S (S (3 * k)))%nat with (2 + k * 3)%nat by lia.
        rewrite Nat.Div0.mod_add. discriminate. }
    rewrite andb_false_r.
    replace (List.length (z :: rest) mod 3 =? 0)%nat with false.
    2:{ symmetry. apply Nat.eqb_neq. cbn [List.length]. rewrite Hrest.
        replace (S (3 * k))%nat with (1 + k * 3)%nat by lia.
        rewrite Nat.Div0.mod_add. discriminate. }
    rewrite andb_false_r.
    replace (List.length rest mod 3 =? 0)%nat with true.
    2:{ symmetry. apply Nat.eqb_eq. rewrite Hrest.
        replace (3 * k)%nat with (0 + k * 3)%nat by lia.
        now rewrite Nat.Div0.mod_add. }
    rewrite andb_true_r.
    cbn [app groups_and_cents]. rewrite N.eqb_refl, Hx, Hy, Hz. cbn [andb].
    destruct rest as [| w rest']; [exact IH |]. exact IH.
Qed.

Lemma group_cons (sep d : N) (rest : text) :
  group sep (d :: rest)
  = d :: (if (0 <? List.length rest)%nat && (List.length rest mod 3 =? 0)%nat
          then sep :: group sep rest else group sep rest).
Proof. reflexivity. Qed.

Lemma group_step (sep : N) (rest : text) (k : nat) :
  List.length rest = (3 * k)%nat ->
  (if (0 <? List.length rest)%nat && (List.length rest mod 3 =? 0)%nat
   then sep :: group sep rest else group sep rest)
  = match rest with [] => [] | _ => sep :: group sep rest end.
Proof.
  intros H. destruct rest as [| x rest']; [reflexivity |].
  replace (List.length (x :: rest') mod 3 =? 0)%nat with true.
  - reflexivity.
  - symmetry. apply Nat.eqb_eq. rewrite H.
    replace (3 * k)%nat with (0 + k * 3)%nat by lia. now rewrite Nat.Div0.mod_add.
Qed.

Lemma group_no_step (sep : N) (rest : text) (k j : nat) :
  List.length rest = (3 * k + j)%nat -> (0 < j < 3)%nat ->
  (if (0 <? List.length rest)%nat && (List.length rest mod 3 =? 0)%nat
   then sep :: group sep rest else group sep rest)
  = group sep rest.
Proof.
  intros H Hj.
  replace (List.length rest mod 3 =? 0)%nat with false.
  - now rewrite andb_false_r.
  - symmetry. apply Nat.eqb_neq. rewrite H.
    replace (3 * k + j)%nat with (j + k * 3)%nat by lia.
    rewrite Nat.Div0.mod_add, Nat.mod_small; lia.
Qed.

Lemma unsigned_amount_group (a b : N) (ds : text) :
  Char.is_digit a = true -> Char.is_digit b = true ->
  ds <> [] -> Forall (fun c => Char.is_digit c = true) ds ->
  unsigned_amount (group Char.dot ds ++ [Char.comma; a; b; Char.space; Char.euro]) = true.
Proof.
  intros Ha Hb Hne Hds. destruct ds as [| d rest]; [contradiction |].
  inversion Hds as [| ? ? Hd Hrest]; subst.
  assert (Hk : exists k j, List.length rest = (3 * k + j)%nat /\ (j < 3)%nat).
  { exists (List.length rest / 3)%nat, (List.length rest mod 3)%nat. split.
    - apply Nat.div_mod_eq.
    - apply Nat.mod_upper_bound. discriminate. }
  destruct Hk as (k & j & Hlen & Hj).
  cbn [group].
  destruct j as [| [| [| j]]]; try lia.
  - rewrite (group_step _ rest k) by lia.
    cbn [app unsigned_amount]. rewrite Hd. cbn [andb].
    rewrite (groups_and_cents_complete a b k Ha Hb rest) by (assumption || lia).
    reflexivity.
  - rewrite (group_no_step _ rest k 1) by lia.
    destruct rest as [| y rest']; [simpl in Hlen; lia |].
    inversion Hrest as [| ? ? Hy Hrest']; subst.
    cbn [group]. rewrite (group_step _ rest' k) by (simpl in Hlen; lia).
    cbn [app unsigned_amount]. rewrite Hd, Hy. cbn [andb].
    rewrite (groups_and_cents_complete a b k Ha Hb rest')
      by (assumption || (simpl in Hlen; lia)).
    cbn [orb]. now rewrite orb_true_r.
  - rewrite (group_no_step _ rest k 2) by lia.
    destruct rest as [| y rest1]; [simpl in Hlen; lia |].
    inversion Hrest as [| ? ? Hy Hrest1]; subst.
    rewrite (group_cons _ y rest1).
    rewrite (group_no_step _ rest1 k 1) by (simpl in Hlen; lia).
    destruct rest1 as [| z rest']; [simpl in Hlen; lia |].
    inversion Hrest1 as [| ? ? Hz Hrest']; subst.
    rewrite (group_cons _ z rest').
    rewrite (group_step _ rest' k) by (simpl in Hlen; lia).
    cbn [app unsigned_amount]. rewrite Hd, Hy, Hz. cbn [andb].
    rewrite (groups_and_cents_complete a b k Ha Hb rest')
      by (assumption || (simpl in Hlen; lia)).
    now rewrite !orb_true_r.
Qed.

Lemma is_finite_spec (value : float) :
  PrimFloat.is_finite value = true ->
  exists s, Prim2SF value = S754_zero s \/ exists m e, Prim2SF value = S754_finite s m e.
Proof.
  unfold PrimFloat.is_finite, PrimFloat.is_nan, PrimFloat.is_infinity.
  rewrite !eqb_spec, abs_spec.
  change (Prim2SF infinity) with (S754_infinity false).
  destruct (Prim2SF value) as [s | s | | s m e].
  - intros _. exists s. now left.
  - destruct s; discriminate.
  - discriminate.
  - intros _. exists s. right. now exists m, e.
Qed.

(** X11. For every finite amount, [format_money] writes a German amount: an
    optional minus, the integer part in groups of three digits separated by
    points (the first group of one to three digits), a comma, exactly two
    digits, a space and the euro sign. *)
Theorem format_money_shape (value : float) :
  PrimFloat.is_finite value = true -> german_amount (format_money value) = true.
Proof.
  intros Hfin. rewrite format_money_swapped.
  apply is_finite_spec in Hfin. destruct Hfin as (s & [E | (m & e & E)]);
    unfold format_fixed2; rewrite E.
  - destruct s; reflexivity.
  - cbv zeta.
    set (c := cents_of m e).
    assert (Hlt : c mod 100 < 100) by (apply N.mod_lt; discriminate).
    pose proof (two_digits_digits (c mod 100) Hlt) as Htwo.
    pose proof (decimal_digits (c / 100)) as Hwhole.
    pose proof (decimal_nonempty (c / 100)) as Hne.
    rewrite !map_app, swap_group by exact Hwhole.
    rewrite (swap_digits (two_digits (c mod 100))) by exact Htwo.
    unfold two_digits in *.
    inversion Htwo as [| ? ? Ha Htwo']; subst. inversion Htwo' as [| ? ? Hb _]; subst.
    change (map swap_separators [Char.dot]) with [Char.comma].
    assert (Hbody : unsigned_amount
              (group Char.dot (decimal (c / 100)) ++
               [Char.comma; Char.zero + c mod 100 / 10; Char.zero + (c mod 100) mod 10;
                Char.space; Char.euro]) = true)
      by now apply unsigned_amount_group.
    destruct s; cbn [sign_text map app].
    + rewrite <- !app_assoc. cbn [app]. unfold german_amount.
      rewrite N.eqb_refl. exact Hbody.
    + rewrite <- !app_assoc. cbn [app].
      destruct (decimal (c / 100)) as [| d rest] eqn:Ed; [contradiction |].
      inversion Hwhole as [| ? ? Hd _]; subst.
      cbn [group app] in Hbody |- *. unfold german_amount.
      replace (d =? Char.minus) with false; [exact Hbody |].
      symmetry. apply N.eqb_neq. apply is_digit_spec in Hd. unfold Char.minus. lia.
Qed.

(** ** The digits that are written *)

Lemma digits_value_app (a b : text) :
  digits_value (a ++ b) = fold_left read_digit b (digits_value a).
Proof. unfold digits_value. now rewrite fold_left_app. Qed.

Lemma read_digit_char (acc k : N) :
  k < 10 -> read_digit acc (Char.zero + k) = acc * 10 + k.
Proof.
  intros H. unfold read_digit. rewrite digit_char by exact H.
  unfold Char.zero. f_equal. lia.
Qed.

Lemma read_other (acc c : N) : Char.is_digit c = false -> read_digit acc c = acc.
Proof. intros H. unfold read_digit. now rewrite H. Qed.

Lemma digits_fuel_value (fuel : nat) :
  forall (n : N) (acc : text),
    n < 2 ^ N.of_nat fuel ->
    exists ds, digits_fuel fuel n acc = ds ++ acc /\
      forall a, fold_left read_digit ds a = a * 10 ^ N.of_nat (List.length ds) + n.
Proof.
  induction fuel as [| fuel IH]; intros n acc Hn.
  - exists []. split; [reflexivity |]. intros a. simpl in Hn |- *. lia.
  - cbn [digits_fuel]. cbv zeta.
    assert (Hmod : n mod 10 < 10) by (apply N.mod_lt; discriminate).
    pose proof (N.Div0.div_mod n 10) as Hdm.
    destruct (n / 10 =? 0) eqn:E.
    + apply N.eqb_eq in E. exists [Char.zero + n mod 10]. split; [reflexivity |].
      intros a. cbn [fold_left List.length]. rewrite read_digit_char by exact Hmod.
      change (10 ^ N.of_nat 1) with 10. lia.
    + assert (Hdiv : n / 10 < 2 ^ N.of_nat fuel).
      { rewrite Nnat.Nat2N.inj_succ, N.pow_succ_r' in Hn.
        apply N.Div0.div_lt_upper_bound. lia. }
      destruct (IH (n / 10) ((Char.zero + n mod 10) :: acc) Hdiv) as (ds & Hds & Hval).
      exists (ds ++ [Char.zero + n mod 10]). split.
      * rewrite Hds, <- app_assoc. reflexivity.
      * intros a. rewrite fold_left_app, Hval. cbn [fold_left].
        rewrite read_digit_char by exact Hmod.
        rewrite length_app. cbn [List.length]. rewrite Nat.add_1_r, Nnat.Nat2N.inj_succ, N.pow_succ_r'.
        lia.
Qed.

(** [decimal] writes the number: reading its digits gives it back. *)
Lemma decimal_value (n : N) : digits_value (decimal n) = n.
Proof.
  unfold decimal.
  destruct (digits_fuel_value (S (N.to_nat (N.log2 n))) n []) as (ds & Hds & Hval).
  - rewrite Nnat.Nat2N.inj_succ, Nnat.N2Nat.id.
    destruct n as [| p]; [reflexivity |]. apply N.log2_spec. reflexivity.
  - rewrite Hds, app_nil_r. unfold digits_value.
    change (fold_left read_digit ds 0 = n). rewrite Hval. lia.
Qed.

Lemma read_group (sep : N) (ds : text) :
  Char.is_digit sep = false ->
  forall a, fold_left read_digit (group sep ds) a = fold_left read_digit ds a.
Proof.
  intros Hsep. induction ds as [| d rest IH]; intros a; [reflexivity |].
  rewrite group_cons. cbn [fold_left].
  destruct ((0 <? List.length rest)%nat && (List.length rest mod 3 =? 0)%nat).
  - cbn [fold_left]. unfold read_digit at 2. rewrite Hsep. apply IH.
  - apply IH.
Qed.

(** X12. The digits [format_money] writes for a finite amount are those of
    the amount in hundredths, rounded to the nearest hundredth with ties to
    the even one: grouping and the exchange of the separators add no digit
    and drop none. *)
Theorem format_money_digits (value : float) :
  PrimFloat.is_finite value = true ->
  digits_value (format_money value) = cents value.
Proof.
  intros Hfin. rewrite format_money_swapped.
  apply is_finite_spec in Hfin. destruct Hfin as (s & [E | (m & e & E)]);
    unfold format_fixed2, cents; rewrite E.
  - destruct s; reflexivity.
  - cbv zeta.
    set (c := cents_of m e).
    assert (Hlt : c mod 100 < 100) by (apply N.mod_lt; discriminate).
    pose proof (two_digits_digits (c mod 100) Hlt) as Htwo.
    pose proof (decimal_digits (c / 100)) as Hwhole.
    rewrite !map_app, swap_group by exact Hwhole.
    rewrite (swap_digits (two_digits (c mod 100))) by exact Htwo.
    change (map swap_separators [Char.dot]) with [Char.comma].
    assert (Hsign : digits_value (map swap_separators (sign_text s)) = 0)
      by (destruct s; reflexivity).
    rewrite <- !app_assoc.
    rewrite digits_value_app, Hsign, fold_left_app.
    rewrite read_group by reflexivity.
    change (fold_left read_digit (decimal (c / 100)) 0) with (digits_value (decimal (c / 100))).
    rewrite decimal_value. unfold two_digits. cbn [app fold_left].
    rewrite (read_other _ Char.comma) by reflexivity.
    rewrite !read_digit_char.
    + rewrite (read_other _ Char.space), (read_other _ Char.euro) by reflexivity.
      pose proof (N.Div0.div_mod c 100). pose proof (N.Div0.div_mod (c mod 100) 10). lia.
    + apply N.Div0.div_lt_upper_bound. lia.
    + apply N.mod_lt. discriminate.
Qed.

End FormatFacts.

(** * The console report *)

Module ReportFacts.

Lemma py_index_last_nil {X : Type} : py_index (@nil X) (-1) = None.
Proof. reflexivity. Qed.

Lemma py_index_last_cons {X : Type} (x : X) (l : list X) :
  exists r, py_index (x :: l) (-1) = Some r.
Proof.
  unfold py_index.
  change (-1 <? 0)%Z with true. cbv iota.
  set (n := Z.of_nat (List.length (x :: l))).
  assert (Hn : n = (Z.of_nat (List.length l) + 1)%Z)
    by (unfold n; cbn [List.length]; lia).
  assert (H1 : (-1 + n <? 0)%Z = false) by (apply Z.ltb_ge; lia).
  assert (H2 : (n <=? -1 + n)%Z = false) by (apply Z.leb_gt; lia).
  rewrite H1, H2. cbn [orb].
  destruct (nth_error (x :: l) (Z.to_nat (-1 + n))) as [r |] eqn:E.
  - now exists r.
  - apply nth_error_None in E. cbn [List.length] in E. exfalso. lia.
Qed.

Section Outcome.

Variable float_sum : list float -> float.
Variables (inflation_rate : float) (scenario_name out : text).

Lemma print_table_empty :
  print_table float_sum [] inflation_rate scenario_name out
  = Raised IndexError
      (print (repeat Char.minus (List.length table_header))
         (print table_header (print_header (Literal.scenario ++ scenario_name) out))).
Proof. reflexivity. Qed.

Lemma print_table_returns (results : list (YearResult float)) :
  results <> [] ->
  exists out', print_table float_sum results inflation_rate scenario_name out = Returned out'.
Proof.
  intros Hne. destruct results as [| r rest]; [congruence |].
  unfold print_table. cbv zeta.
  destruct (py_index_last_cons r rest) as (last & ->).
  eexists. reflexivity.
Qed.

End Outcome.

(** ** Widths *)

Lemma align_right_length (width : nat) (s : text) :
  List.length (align_right width s) = Nat.max width (List.length s).
Proof. unfold align_right. rewrite length_app, repeat_length. lia. Qed.

Lemma digits_fuel_length (fuel : nat) :
  forall (k : nat) (n : N) (acc : text),
    (0 < k)%nat -> (n < 10 ^ N.of_nat k)%N ->
    (List.length (digits_fuel fuel n acc) <= List.length acc + k)%nat.
Proof.
  induction fuel as [| fuel IH]; intros k n acc Hk Hn; cbn [digits_fuel]; [lia |].
  cbv zeta. destruct (n / 10 =? 0)%N eqn:E.
  - cbn [List.length]. lia.
  - apply N.eqb_neq in E.
    destruct k as [| [| k]]; [lia | |].
    + exfalso. apply E. apply N.div_small. exact Hn.
    + eapply Nat.le_trans.
      * apply (IH (S k)); [lia |].
        apply N.Div0.div_lt_upper_bound.
        rewrite <- N.pow_succ_r'. now rewrite <- Nnat.Nat2N.inj_succ.
      * cbn [List.length]. lia.
Qed.

Lemma decimal_length (k : nat) (n : N) :
  (0 < k)%nat -> (n < 10 ^ N.of_nat k)%N -> (List.length (decimal n) <= k)%nat.
Proof. intros Hk Hn. apply (digits_fuel_length _ k n [] Hk Hn). Qed.

Lemma group_length_6 (sep : N) (ds : text) :
  (List.length ds <= 6)%nat -> (List.length (group sep ds) <= 7)%nat.
Proof.
  intros H.
  destruct ds as [| a [| b [| c [| d [| e [| f [| g rest]]]]]]];
    cbn in *; lia.
Qed.

Lemma format_money_length (value : float) :
  List.length (format_money value) = (List.length (format_fixed2 true value) + 2)%nat.
Proof.
  unfold format_money, replace_char. rewrite !length_map, length_app. reflexivity.
Qed.

Lemma negative_below_zero (value : float) (m : positive) (e : Z) :
  Prim2SF value = S754_finite true m e -> PrimFloat.ltb value 0 = true.
Proof.
  intros E. rewrite ltb_spec, E. reflexivity.
Qed.

Lemma format_money_fits (value : float) :
  fits_column value -> (List.length (format_money value) <= 12)%nat.
Proof.
  intros (Hsign & Hcents). rewrite format_money_length.
  unfold format_fixed2, cents in *.
  destruct (Prim2SF value) as [s | s | | s m e] eqn:E.
  - destruct s; cbn; lia.
  - destruct s; cbn; lia.
  - cbn. lia.
  - destruct s.
    + rewrite (negative_below_zero _ _ _ E) in Hsign. discriminate.
    + cbv zeta. rewrite !length_app. unfold two_digits. cbn [sign_text List.length].
      assert (Hw : (List.length (decimal (cents_of m e / 100)) <= 6)%nat).
      { apply decimal_length; [lia |].
        apply N.Div0.div_lt_upper_bound. change (10 ^ N.of_nat 6)%N with 1000000%N. lia. }
      pose proof (group_length_6 Char.comma _ Hw). lia.
Qed.

Lemma int_text_length (z : Z) :
  (0 <= z < 10000)%Z -> (List.length (int_text z) <= 4)%nat.
Proof.
  intros H. destruct z as [| p | p]; [| | lia].
  - apply decimal_length; [lia | reflexivity].
  - apply decimal_length; [lia |]. change (10 ^ N.of_nat 4)%N with 10000%N. lia.
Qed.

(** X13. A row of the table is as wide as the header, so the columns line
    up, when the year has at most four digits and each of the five amounts
    is not negative and, rounded to hundredths, below a million. *)
Theorem table_row_aligned (r : YearResult float) :
  (0 <= year r < 10000)%Z ->
  fits_column (deposit r) -> fits_column (tg_balance r) ->
  fits_column (etf_balance r) -> fits_column (total_nominal r) ->
  fits_column (total_real r) ->
  List.length (table_row r) = List.length table_header.
Proof.
  intros Hy Hd Ht He Hn Hr.
  apply int_text_length in Hy.
  apply format_money_fits in Hd, Ht, He, Hn, Hr.
  unfold table_row. rewrite !length_app, !align_right_length.
  change (List.length Literal.bar) with 3%nat.
  change (List.length table_header) with 81%nat. lia.
Qed.

Section Reports.

Variable float_pow : float -> Z -> result float.
Variable float_sum : list float -> float.
Variables (deposit_years growth_years : Z).
Variables (annual_deposit tg_rate etf_rate inflation_rate : float).
Variables (tg_target_first tg_target_after : float) (years_first_target : Z).
Variables (scenario_name out : text).

#[local] Existing Instance Binary64.arith.
Let A : Arith float := Binary64.arith float_pow.

(** X14. The report of a simulation needs a year.  When
    [deposit_years + growth_years] is not positive, [print_table] of what a
    simulation returned raises [IndexError], after the title and the column
    heads and before any summary line; when it is positive, [print_table]
    returns. *)
Theorem report_needs_a_year (results : list (YearResult float)) :
  simulate_tagesgeld (A := A) deposit_years growth_years annual_deposit tg_rate
    inflation_rate = Ok results \/
  simulate_etf (A := A) deposit_years growth_years annual_deposit etf_rate
    inflation_rate = Ok results \/
  simulate_combo (A := A) deposit_years growth_years annual_deposit tg_rate etf_rate
    inflation_rate tg_target_first tg_target_after years_first_target = Ok results ->
  ((deposit_years + growth_years <= 0)%Z ->
   print_table float_sum results inflation_rate scenario_name out
   = Raised IndexError
       (print (repeat Char.minus (List.length table_header))
          (print table_header (print_header (Literal.scenario ++ scenario_name) out)))) /\
  ((0 < deposit_years + growth_years)%Z ->
   exists out',
     print_table float_sum results inflation_rate scenario_name out = Returned out').
Proof.
  intros H.
  assert (Hlen : List.length results = Z.to_nat (deposit_years + growth_years)).
  { destruct H as [H | [H | H]].
    - now apply tagesgeld_run in H.
    - now apply etf_run in H.
    - now apply combo_run in H. }
  split; intros Hn.
  - destruct results as [| r rest]; [apply print_table_empty |].
    cbn [List.length] in Hlen. exfalso. lia.
  - apply print_table_returns. intros ->. cbn [List.length] in Hlen. lia.
Qed.

End Reports.

End ReportFacts.

(** * The further theorems at work on concrete runs *)

Module MoreExamples.

Import Scenario Runs Sample.
#[local] Open Scope float_scope.

Abbreviation py := Binary64.python.
Abbreviation py_laws := (Binary64Laws.laws Binary64.pow_mult).
Abbreviation py_zero_laws := (ZeroFacts.float_zero_laws Binary64.pow_mult).

Lemma savings_3_inflated_run : savings_3_inflated = Ok savings_3_inflated_result.
Proof. vm_compute. reflexivity. Defined.

Lemma combo_zero_targets_run : combo_zero_targets = Ok etf_3_result.
Proof. vm_compute. reflexivity. Defined.

Lemma idle_run : idle = Ok idle_result.
Proof. vm_compute. reflexivity. Defined.

Lemma no_year_run : no_year = Ok [].
Proof. vm_compute. reflexivity. Defined.

(** With an inflation rate of minus one the first year cannot be
    discounted. *)
Lemma simulation_raises_at_first_failure_witness :
  @simulate_tagesgeld float py 1 0 1000 0.1 (-1) = Raise ZeroDivisionError.
Proof.
  apply (@simulation_raises_at_first_failure float py 1 0 1000 0.1 0.1 (-1) 0 0 0
           ZeroDivisionError _ _ (or_introl eq_refl)).
  exists 0%nat. split; [simpl; lia |]. split; [vm_compute; reflexivity |].
  intros j Hj. exfalso. lia.
Defined.

Lemma nominal_fields_ignore_inflation_witness :
  map nominal_part savings_3_result = map nominal_part savings_3_inflated_result.
Proof.
  apply (@nominal_fields_ignore_inflation float py 2 1 1000 0.1 0.1 0 0 0 0 0.02).
  left. split; [exact savings_3_run | exact savings_3_inflated_run].
Defined.

Lemma combo_with_zero_targets_is_etf_witness :
  @zero_like float py (tg_balance (mkYearResult 2 1000 0 2310 2310 2310)) /\
  map (fun r : YearResult float => (year r, deposit r, etf_balance r)) etf_3_result
  = map (fun r : YearResult float => (year r, deposit r, etf_balance r)) etf_3_result.
Proof.
  destruct (@combo_with_zero_targets_is_etf float py py_laws py_zero_laws
              2 1 1000 0.1 0.1 0 1 etf_3_result combo_zero_targets_run)
    as (Hz & H).
  split.
  - apply Hz. simpl. auto.
  - exact (H etf_3_result etf_3_run).
Defined.

Lemma no_deposit_no_balance_witness :
  deposit (mkYearResult 1 0 0 0 0 0) = 0 /\
  @zero_like float py (tg_balance (mkYearResult 1 0 0 0 0 0)) /\
  @zero_like float py (etf_balance (mkYearResult 1 0 0 0 0 0)).
Proof.
  apply (@no_deposit_no_balance float py py_laws py_zero_laws
           0 2 1000 0.02 0.05 0.02 500 800 1
           (or_introl (Z.le_refl 0)) eq_refl eq_refl idle_result).
  - right. right. exact idle_run.
  - simpl. auto.
Defined.

Lemma format_money_shape_witness :
  german_amount (format_money 1234567.891) = true.
Proof. apply FormatFacts.format_money_shape. reflexivity. Defined.

Lemma format_money_digits_witness :
  digits_value (format_money 1234567.891) = 123456789%N.
Proof.
  exact (eq_trans (FormatFacts.format_money_digits 1234567.891 eq_refl) eq_refl).
Defined.

Lemma table_row_aligned_witness :
  List.length (table_row row) = List.length table_header.
Proof.
  apply ReportFacts.table_row_aligned.
  - simpl. lia.
  - split; [reflexivity | vm_compute; reflexivity].
  - split; [reflexivity | vm_compute; reflexivity].
  - split; [reflexivity | vm_compute; reflexivity].
  - split; [reflexivity | vm_compute; reflexivity].
  - split; [reflexivity | vm_compute; reflexivity].
Defined.

(** A run without a year returns the empty list, and its report raises. *)
Lemma report_needs_a_year_witness :
  print_table sum_left [] 0.02 title []
  = Raised IndexError
      (print (repeat Char.minus (List.length table_header))
         (print table_header (print_header (Literal.scenario ++ title) []))).
Proof.
  apply (proj1 (ReportFacts.report_needs_a_year Binary64.pow_mult sum_left
                  0 0 1000 0.02 0.02 0.02 0 0 0 title [] []
                  (or_introl no_year_run))).
  simpl. lia.
Defined.

End MoreExamples.
